(** * OIM: the pruned Monte-Carlo evaluator and the command-line driver

    A shallow embedding of [src/src/OhsakaEvaluator.hpp] (class
    [OhsakaEvaluator]: [select], [tarjan], [scc], [bfs], [gain],
    [update_dag]) and of [src/main.cpp] (the graph loaders, the evaluator
    tables of the operating modes, and what the modes benchmark and spread
    print).

    Conventions of the embedding.
    - [unode_int] and the [unsigned int] counters are [N]; the counters
      [cur_index] and [cur_num_cc] grow by one per node, so they do not
      wrap on any graph that fits in memory.
    - [std::unordered_set] and [std::unordered_map] are duplicate-free
      lists; the iteration order of a container is the order of its list,
      which is the insertion order for the containers the evaluator builds
      itself.  The iteration order of the input graph is whatever order the
      [node_set] of the [Graph] value has.
    - module [Ohsaka] reads every arc's probability as a constant and
      iterates [pred] in the order of insertion; module [Sampled] has the
      functions that sample without these two choices.
    - [float] values are exact: the cached gains are counts of nodes ([N]),
      the averaged gain is a rational ([Q]), and [0.0f / 0.0f] is the only
      NaN that can arise.
    - every [while] loop and every recursion takes fuel; a computation ends
      in [Ok], in [OutOfFuel], or in [Undefined] where C++ leaves the
      behaviour undefined (front of an empty container, index past the end
      of a vector). *)

From Stdlib Require Import List NArith ZArith QArith Bool Lia.
From Stdlib Require String Ascii.
From Stdlib Require Decimal DecimalString DecimalN DecimalPos.
From Stdlib Require Import Relations.Relation_Operators.
From Stdlib Require Import Relations.Operators_Properties.
Import ListNotations.

Local Open Scope N_scope.

(** ** Results of fuelled computations *)

Inductive result (T : Type) : Type :=
| Ok (a : T)
| OutOfFuel
| Undefined.
Arguments Ok {T} a.
Arguments OutOfFuel {T}.
Arguments Undefined {T}.

Definition bind {T U : Type} (m : result T) (f : T -> result U) : result U :=
  match m with
  | Ok a => f a
  | OutOfFuel => OutOfFuel
  | Undefined => Undefined
  end.

Notation "x <- m ;; k" := (bind m (fun x => k))
  (at level 61, m at next level, right associativity).
Notation "' p <- m ;; k" := (bind m (fun x => let 'p := x in k))
  (at level 61, p pattern, m at next level, right associativity).

Definition is_ok {T : Type} (m : result T) : bool :=
  match m with Ok _ => true | _ => false end.

(** ** Containers *)

Module Containers.

(** [std::unordered_set<unode_int>] *)
Definition uset := list N.

Definition mem (x : N) (s : uset) : bool := existsb (N.eqb x) s.

Definition insert (x : N) (s : uset) : uset :=
  if mem x s then s else s ++ [x].

Definition erase (x : N) (s : uset) : uset :=
  filter (fun y => negb (x =? y)) s.

(** [std::unordered_map<unode_int, V>] *)
Definition umap (V : Type) := list (N * V).

Fixpoint find {V : Type} (k : N) (m : umap V) : option V :=
  match m with
  | [] => None
  | (k', v) :: m' => if k =? k' then Some v else find k m'
  end.

(** [m[k]] read: a missing key yields the value-initialised [d].  (C++
    also inserts the key; no code of the evaluator observes the presence
    of a key in a map it reads this way.) *)
Definition get {V : Type} (d : V) (k : N) (m : umap V) : V :=
  match find k m with Some v => v | None => d end.

(** [m[k] = v] *)
Fixpoint assign {V : Type} (k : N) (v : V) (m : umap V) : umap V :=
  match m with
  | [] => [(k, v)]
  | (k', v') :: m' =>
      if k =? k' then (k', v) :: m' else (k', v') :: assign k v m'
  end.

Definition erase_key {V : Type} (k : N) (m : umap V) : umap V :=
  filter (fun kv => negb (k =? fst kv)) m.

(** [vec[i]] and [vec[i] = x] on a [std::vector] *)
Definition vec_at {T : Type} (v : list T) (i : nat) : result T :=
  match nth_error v i with Some x => Ok x | None => Undefined end.

Fixpoint vec_set {T : Type} (v : list T) (i : nat) (x : T) : list T :=
  match v, i with
  | [], _ => []
  | _ :: v', O => x :: v'
  | y :: v', S i' => y :: vec_set v' i' x
  end.

End Containers.
Import Containers.

(** ** Graph *)

Module GraphModel.

(** An arc as the evaluator reads it: [edge.target] and [edge.dist], as
    the probability [add_edge] was given.  Module [Ohsaka] takes it for
    the value [edge.dist->sample(sampler.get_type())] returns, which is
    so for point distributions; module [Sampled] leaves that value
    open. *)
Record EdgeType := { target : N; dist : Q }.

(** Modelled from the spec: Graph.hpp is not among the sources.  The spec
    gives "a mapping node -> list of (target, dist)", nodes "implicit in
    the edge list; their set is the union of all endpoints", [add_edge]
    "appends arc", and [remove_node(u)] "drops u and all its outgoing
    arcs" with an adjacency that "is outgoing-only". *)
Record Graph := {
  node_set : uset;
  adj_list : umap (list EdgeType)
}.

Definition empty_graph : Graph := {| node_set := []; adj_list := [] |}.

Definition get_nodes (g : Graph) : uset := node_set g.

Definition has_node (g : Graph) (n : N) : bool := mem n (node_set g).

Definition has_neighbours (g : Graph) (n : N) : bool :=
  match find n (adj_list g) with Some _ => true | None => false end.

Definition get_neighbours (g : Graph) (n : N) : list EdgeType :=
  get [] n (adj_list g).

Definition add_node (g : Graph) (n : N) : Graph :=
  {| node_set := insert n (node_set g); adj_list := adj_list g |}.

Definition add_edge (g : Graph) (u v : N) (d : Q) : Graph :=
  {| node_set := insert v (insert u (node_set g));
     adj_list := assign u (get_neighbours g u ++ [{| target := v; dist := d |}])
                        (adj_list g) |}.

Definition remove_node (g : Graph) (u : N) : Graph :=
  {| node_set := erase u (node_set g);
     adj_list := erase_key u (adj_list g) |}.

(** [arc g u v]: [v] is the target of an arc stored at [u]. *)
Definition arc (g : Graph) (u v : N) : Prop :=
  has_neighbours g u = true /\ In v (map target (get_neighbours g u)).

(** Reachable along at least one arc. *)
Definition reach_plus (g : Graph) : N -> N -> Prop := clos_trans N (arc g).

(** Reachable along any number of arcs. *)
Definition reach (g : Graph) : N -> N -> Prop := clos_refl_trans N (arc g).

End GraphModel.
Import GraphModel.

(** ** OhsakaEvaluator *)

Module Ohsaka.

Definition cc_map := umap N.
Definition cc_node_map := umap uset.

(** "Structures containing the CCs detected in each round" *)
Record rounds := {
  cc : list cc_map;
  cc_list : list cc_node_map;
  graphs : list Graph;
  A : list uset;
  D : list uset;
  h : list N;
  latest : list (umap bool);
  delta : list (umap N)
}.

(** "For Tarjan's algorithm" *)
Record tarjan_vars := {
  lowlink : umap N;
  index : umap N;
  pred : umap N;
  visited : uset;
  vis_stack : list N;
  cur_index : N
}.

(** "random devices": the state of [gen] is the sequence of values
    [dist(gen)] will return, and the number of values drawn so far. *)
Record mt19937 := { draws : nat -> Q; drawn : nat }.

Record OhsakaEvaluator := {
  rs : rounds;
  tv : tarjan_vars;
  R_ : N;
  gen : mt19937
}.

(** *** bfs *)

Record bfs_vars := { q : list N; seen : uset; col : uset }.

(** The [for] loop over the neighbours of [cur_node]; [inr c] is the
    [return] inside the loop, with the collection [c] as it is then. *)
Fixpoint bfs_neighbours (node : N) (to : bool) (to_node : N)
         (es : list EdgeType) (s : bfs_vars) : bfs_vars + uset :=
  match es with
  | [] => inl s
  | neigh :: es' =>
      if mem (target neigh) (seen s) then
        bfs_neighbours node to to_node es' s
      else
        let q1 := q s ++ [target neigh] in
        let seen1 := insert (target neigh) (seen s) in
        if negb to then
          bfs_neighbours node to to_node es'
            {| q := q1; seen := seen1; col := insert (target neigh) (col s) |}
        else if target neigh =? to_node then
          inr (insert node (col s))
        else
          bfs_neighbours node to to_node es'
            {| q := q1; seen := seen1; col := col s |}
  end.

Fixpoint bfs_loop (fuel : nat) (g : Graph) (node : N) (to : bool)
         (to_node : N) (s : bfs_vars) : result uset :=
  match fuel with
  | O => OutOfFuel
  | S fuel' =>
      match q s with
      | [] => Ok (col s)
      | cur_node :: q' =>
          let s1 := {| q := q'; seen := insert cur_node (seen s);
                       col := col s |} in
          if has_neighbours g cur_node then
            match bfs_neighbours node to to_node
                    (get_neighbours g cur_node) s1 with
            | inl s2 => bfs_loop fuel' g node to to_node s2
            | inr c => Ok c
            end
          else bfs_loop fuel' g node to to_node s1
      end
  end.

(** [bfs(node, i, col, to, to_node)]; the result is [col] afterwards. *)
Definition bfs (fuel : nat) (gs : list Graph) (node : N) (i : nat)
           (col0 : uset) (to : bool) (to_node : N) : result uset :=
  g <- vec_at gs i ;;
  bfs_loop fuel g node to to_node
    {| q := [node]; seen := insert node []; col := col0 |}.

(** *** tarjan and scc *)

(** What [scc] reads and writes: the Tarjan members, the generator, and
    the three locals of [tarjan] it receives by reference. *)
Record scc_vars := {
  tvars : tarjan_vars;
  rng : mt19937;
  cur_cc : cc_map;
  cur_cc_list : cc_node_map;
  cur_num_cc : N
}.

(** [dist(gen)] *)
Definition draw (g : mt19937) : Q * mt19937 :=
  (draws g (drawn g), {| draws := draws g; drawn := S (drawn g) |}).

Definition Qlt_bool (x y : Q) : bool := negb (Qle_bool y x).

Definition enter (node : N) (t : tarjan_vars) : tarjan_vars :=
  {| lowlink := assign node (cur_index t) (lowlink t);
     index := assign node (cur_index t) (index t);
     pred := pred t;
     visited := insert node (visited t);
     vis_stack := node :: vis_stack t;
     cur_index := cur_index t + 1 |}.

Definition set_pred (k v : N) (t : tarjan_vars) : tarjan_vars :=
  {| lowlink := lowlink t; index := index t;
     pred := assign k v (pred t);
     visited := visited t; vis_stack := vis_stack t;
     cur_index := cur_index t |}.

Definition set_lowlink (k v : N) (t : tarjan_vars) : tarjan_vars :=
  {| lowlink := assign k v (lowlink t); index := index t;
     pred := pred t;
     visited := visited t; vis_stack := vis_stack t;
     cur_index := cur_index t |}.

Definition with_tvars (t : tarjan_vars) (s : scc_vars) : scc_vars :=
  {| tvars := t; rng := rng s; cur_cc := cur_cc s;
     cur_cc_list := cur_cc_list s; cur_num_cc := cur_num_cc s |}.

Definition with_rng (g : mt19937) (s : scc_vars) : scc_vars :=
  {| tvars := tvars s; rng := g; cur_cc := cur_cc s;
     cur_cc_list := cur_cc_list s; cur_num_cc := cur_num_cc s |}.

(** The [do ... while (cur_node != node)] loop that unwinds the stack into
    component number [cur_num_cc]. *)
Fixpoint pop_component (node : N) (stack : list N) (s : scc_vars)
  : result scc_vars :=
  match stack with
  | [] => Undefined
  | cur_node :: stack' =>
      let t := tvars s in
      let s1 :=
        {| tvars := {| lowlink := lowlink t; index := index t;
                       pred := pred t;
                       visited := erase cur_node (visited t);
                       vis_stack := stack';
                       cur_index := cur_index t |};
           rng := rng s;
           cur_cc := assign cur_node (cur_num_cc s) (cur_cc s);
           cur_cc_list :=
             assign (cur_num_cc s)
                    (insert cur_node (get [] (cur_num_cc s) (cur_cc_list s)))
                    (cur_cc_list s);
           cur_num_cc := cur_num_cc s |} in
      if cur_node =? node then Ok s1 else pop_component node stack' s1
  end.

Fixpoint scc (fuel : nat) (node : N) (graph : Graph) (s : scc_vars)
  : result scc_vars :=
  match fuel with
  | O => OutOfFuel
  | S fuel' =>
      let s0 := with_tvars (enter node (tvars s)) s in
      s1 <- (if has_neighbours graph node then
               (fix edges (es : list EdgeType) (s : scc_vars)
                  : result scc_vars :=
                  match es with
                  | [] => Ok s
                  | edge :: es' =>
                      let dice_dst := dist edge in
                      let (dice, g') := draw (rng s) in
                      let s := with_rng g' s in
                      if Qlt_bool dice dice_dst then
                        match find (target edge) (index (tvars s)) with
                        | None =>
                            s' <- scc fuel' (target edge) graph
                                    (with_tvars
                                       (set_pred (target edge) node (tvars s)) s) ;;
                            let t := tvars s' in
                            edges es'
                              (with_tvars
                                 (set_lowlink node
                                    (N.min (get 0 node (lowlink t))
                                           (get 0 (target edge) (lowlink t))) t)
                                 s')
                        | Some _ =>
                            let t := tvars s in
                            edges es'
                              (with_tvars
                                 (set_lowlink node
                                    (N.min (get 0 node (lowlink t))
                                           (get 0 (target edge) (index t))) t)
                                 s)
                        end
                      else edges es' s
                  end) (get_neighbours graph node) s0
             else Ok s0) ;;
      let t := tvars s1 in
      if get 0 node (lowlink t) =? get 0 node (index t) then
        s2 <- pop_component node (vis_stack t) s1 ;;
        Ok {| tvars := tvars s2; rng := rng s2; cur_cc := cur_cc s2;
              cur_cc_list := cur_cc_list s2;
              cur_num_cc := cur_num_cc s2 + 1 |}
      else Ok s1
  end.

(** The loop of [tarjan] over [graph.get_nodes()]. *)
Fixpoint tarjan_roots (fuel : nat) (graph : Graph) (nodes : list N)
         (s : scc_vars) : result scc_vars :=
  match nodes with
  | [] => Ok s
  | node :: nodes' =>
      match find node (index (tvars s)) with
      | None =>
          s' <- scc fuel node graph
                  (with_tvars (set_pred node node (tvars s)) s) ;;
          tarjan_roots fuel graph nodes' s'
      | Some _ => tarjan_roots fuel graph nodes' s
      end
  end.

(** "Create the DAG (actually, most probably a spanning tree...)": the
    loop over [pred], meeting its entries in the order of the list (the
    order of their insertion where [Ohsaka.tarjan] calls it; any order
    where [Sampled.tarjan] does). *)
Definition create_dag (cur_cc : cc_map) (pred : umap N) : Graph :=
  fold_left
    (fun dag (val : N * N) =>
       let dag := add_node dag (fst val) in
       if negb (get 0 (snd val) cur_cc =? get 0 (fst val) cur_cc) then
         add_edge dag (get 0 (snd val) cur_cc) (get 0 (fst val) cur_cc) 1%Q
       else dag)
    pred empty_graph.

Definition push_sample (c : cc_map) (cl : cc_node_map) (dag : Graph)
           (r : rounds) : rounds :=
  {| cc := cc r ++ [c]; cc_list := cc_list r ++ [cl];
     graphs := graphs r ++ [dag];
     A := A r; D := D r; h := h r; latest := latest r; delta := delta r |}.

Definition tarjan (fuel : nat) (graph : Graph) (e : OhsakaEvaluator)
  : result OhsakaEvaluator :=
  let t0 := {| lowlink := []; index := []; pred := []; visited := [];
               vis_stack := vis_stack (tv e); cur_index := 0 |} in
  s <- tarjan_roots fuel graph (get_nodes graph)
         {| tvars := t0; rng := gen e; cur_cc := []; cur_cc_list := [];
            cur_num_cc := 0 |} ;;
  let t := tvars s in
  let dag := create_dag (cur_cc s) (pred t) in
  Ok {| rs := push_sample (cur_cc s) (cur_cc_list s) dag (rs e);
        tv := {| lowlink := lowlink t; index := index t; pred := pred t;
                 visited := visited t; vis_stack := [];
                 cur_index := cur_index t |};
        R_ := R_ e;
        gen := rng s |}.

(** *** gain *)

Definition with_latest (l : list (umap bool)) (r : rounds) : rounds :=
  {| cc := cc r; cc_list := cc_list r; graphs := graphs r;
     A := A r; D := D r; h := h r; latest := l; delta := delta r |}.

Definition with_delta (d : list (umap N)) (r : rounds) : rounds :=
  {| cc := cc r; cc_list := cc_list r; graphs := graphs r;
     A := A r; D := D r; h := h r; latest := latest r; delta := d |}.

Definition with_graphs (gs : list Graph) (r : rounds) : rounds :=
  {| cc := cc r; cc_list := cc_list r; graphs := gs;
     A := A r; D := D r; h := h r; latest := latest r; delta := delta r |}.

(** The [for] loop of [gain] over the neighbours of [u]. *)
Fixpoint gain_neighbours (g : Graph) (es : list EdgeType)
         (QX : list N * uset) : list N * uset :=
  match es with
  | [] => QX
  | neigh :: es' =>
      let (Q, X) := QX in
      if negb (mem (target neigh) X) && has_node g (target neigh) then
        gain_neighbours g es' (Q ++ [target neigh], insert (target neigh) X)
      else gain_neighbours g es' QX
  end.

(** The [while (Q.size() != 0)] loop of [gain]; [dv] is [delta[i][v]]. *)
Fixpoint gain_loop (fuel : nat) (g : Graph) (A_i D_i : uset)
         (ccl_i : cc_node_map) (v : N) (set : uset)
         (Q : list N) (X : uset) (dv : N) : result N :=
  match fuel with
  | O => OutOfFuel
  | S fuel' =>
      match Q with
      | [] => Ok dv
      | u :: Q' =>
          if mem v A_i && mem u D_i && (length set =? 0)%nat then
            gain_loop fuel' g A_i D_i ccl_i v set Q' X dv
          else
            let dv := dv + N.of_nat (length (get [] u ccl_i)) in
            let (Q2, X2) :=
              if has_neighbours g u
              then gain_neighbours g (get_neighbours g u) (Q', X)
              else (Q', X) in
            gain_loop fuel' g A_i D_i ccl_i v set Q2 X2 dv
      end
  end.

Fixpoint gain (fuel : nat) (i : nat) (node : N) (set : uset) (r : rounds)
  : result (N * rounds) :=
  match fuel with
  | O => OutOfFuel
  | S fuel' =>
      cc_i <- vec_at (cc r) i ;;
      let v := get 0 node cc_i in
      g <- vec_at (graphs r) i ;;
      if negb (has_node g v) then Ok (0, r) else
      latest_i <- vec_at (latest r) i ;;
      delta_i <- vec_at (delta r) i ;;
      if get false v latest_i then Ok (get 0 v delta_i, r) else
      let r := with_latest (vec_set (latest r) i (assign v true latest_i)) r in
      A_i <- vec_at (A r) i ;;
      D_i <- vec_at (D r) i ;;
      ccl_i <- vec_at (cc_list r) i ;;
      '(d0, r) <-
        (if mem v A_i && (length set =? 0)%nat then
           h_i <- vec_at (h r) i ;;
           match get [] h_i ccl_i with
           | [] => Undefined
           | first :: _ => gain fuel' i first set r
           end
         else Ok (0, r)) ;;
      dv <- gain_loop fuel' g A_i D_i ccl_i v set [v] (insert v []) d0 ;;
      delta_i <- vec_at (delta r) i ;;
      Ok (dv, with_delta (vec_set (delta r) i (assign v dv delta_i)) r)
  end.

(** *** update_dag *)

(** The loop over [desc] for one [v] with [latest[i][v]] set: [true] when
    some [u] in [desc] makes [bfs(v, i, reach, true, u)] collect. *)
Fixpoint reaches_removed (fuel : nat) (gs : list Graph) (i : nat) (v : N)
         (desc : list N) : result bool :=
  match desc with
  | [] => Ok false
  | u :: desc' =>
      reach <- bfs fuel gs v i [] true u ;;
      if negb (length reach =? 0)%nat then Ok true
      else reaches_removed fuel gs i v desc'
  end.

Fixpoint invalidate (fuel : nat) (gs : list Graph) (i : nat)
         (desc : uset) (nodes : list N) (latest_i : umap bool)
  : result (umap bool) :=
  match nodes with
  | [] => Ok latest_i
  | v :: nodes' =>
      if get false v latest_i then
        b <- reaches_removed fuel gs i v desc ;;
        invalidate fuel gs i desc nodes'
          (if b then assign v false latest_i else latest_i)
      else invalidate fuel gs i desc nodes' latest_i
  end.

Definition update_dag (fuel : nat) (i : nat) (node : N) (r : rounds)
  : result rounds :=
  cc_i <- vec_at (cc r) i ;;
  let t := get 0 node cc_i in
  desc <- bfs fuel (graphs r) t i [] false 0 ;;
  g <- vec_at (graphs r) i ;;
  latest_i <- vec_at (latest r) i ;;
  latest_i' <- invalidate fuel (graphs r) i desc (get_nodes g) latest_i ;;
  let r := with_latest (vec_set (latest r) i latest_i') r in
  Ok (with_graphs (vec_set (graphs r) i (fold_left remove_node desc g)) r).

(** *** select: sampling the graphs *)

Definition no_rounds : rounds :=
  {| cc := []; cc_list := []; graphs := []; A := []; D := []; h := [];
     latest := []; delta := [] |}.

(** "find the highest degree node (only outgoing)" *)
Fixpoint highest_degree (g : Graph) (nodes : list N) (max_node max_val : N)
  : N :=
  match nodes with
  | [] => max_node
  | node :: nodes' =>
      let deg := if has_neighbours g node
                 then N.of_nat (length (get_neighbours g node)) else 0 in
      if max_val <=? deg then highest_degree g nodes' node deg
      else highest_degree g nodes' max_node max_val
  end.

(** The body of the loop "Removing activated nodes": [cc] is the loop
    variable, declared [auto cc], so it holds a copy of the map entry; the
    result is that local copy as the body leaves it. *)
Definition erase_in_copy (node : N) (cc : N * uset) : N * uset :=
  if mem node (snd cc) then (fst cc, erase node (snd cc)) else cc.

(** "Removing activated nodes": both loops, with [cc_list[i]] threaded
    through them.  The copy made for an iteration is dropped at its end. *)
Definition remove_activated (activated : uset) (ccl_i : cc_node_map)
  : cc_node_map :=
  fold_left
    (fun ccl node =>
       fold_left
         (fun ccl' entry =>
            let cc_copy := erase_in_copy node entry in
            ccl')
         ccl ccl)
    activated ccl_i.

(** The loop that fills [A[i]]. *)
Fixpoint ancestors (fuel : nat) (gs : list Graph) (i : nat) (h_i : N)
         (D_i : uset) (nodes : list N) (A_i : uset) : result uset :=
  match nodes with
  | [] => Ok A_i
  | node :: nodes' =>
      if negb (node =? h_i) && negb (mem node D_i) then
        A_i' <- bfs fuel gs node i A_i true h_i ;;
        ancestors fuel gs i h_i D_i nodes' A_i'
      else ancestors fuel gs i h_i D_i nodes' A_i
  end.

(** One iteration of "Sample the graphs and create DAGs and supporting
    structures". *)
Definition sample (fuel : nat) (graph : Graph) (activated : uset) (i : nat)
           (e : OhsakaEvaluator) : result OhsakaEvaluator :=
  e <- tarjan fuel graph e ;;
  let r := rs e in
  let A1 := A r ++ [[]] in
  let D1 := D r ++ [[]] in
  g <- vec_at (graphs r) i ;;
  let max_node := highest_degree g (get_nodes g) 0 0 in
  ccl_i <- vec_at (cc_list r) i ;;
  let cc_list1 := vec_set (cc_list r) i (remove_activated activated ccl_i) in
  let h1 := h r ++ [max_node] in
  h_i <- vec_at h1 i ;;
  D_i <- vec_at D1 i ;;
  D_i' <- bfs fuel (graphs r) h_i i D_i false 0 ;;
  let D2 := vec_set D1 i D_i' in
  A_i <- vec_at A1 i ;;
  A_i' <- ancestors fuel (graphs r) i h_i D_i' (get_nodes g) A_i ;;
  let A2 := vec_set A1 i A_i' in
  let cur_latest :=
    fold_left (fun m node => assign node false m) (get_nodes g) [] in
  let cur_delta :=
    fold_left (fun m node => assign node 0 m) (get_nodes g) [] in
  Ok {| rs := {| cc := cc r; cc_list := cc_list1; graphs := graphs r;
                 A := A2; D := D2; h := h1;
                 latest := latest r ++ [cur_latest];
                 delta := delta r ++ [cur_delta] |};
        tv := tv e; R_ := R_ e; gen := gen e |}.

Fixpoint samples (fuel : nat) (graph : Graph) (activated : uset)
         (ids : list nat) (e : OhsakaEvaluator) : result OhsakaEvaluator :=
  match ids with
  | [] => Ok e
  | i :: ids' =>
      e' <- sample fuel graph activated i e ;;
      samples fuel graph activated ids' e'
  end.

(** *** select: the main loop *)

(** [for (i = 0; i < R_; i++) tot_val += gain(i, v, set)] *)
Fixpoint sum_gains (fuel : nat) (ids : list nat) (v : N) (set : uset)
         (tot_val : N) (r : rounds) : result (N * rounds) :=
  match ids with
  | [] => Ok (tot_val, r)
  | i :: ids' =>
      '(g, r') <- gain fuel i v set r ;;
      sum_gains fuel ids' v set (tot_val + g) r'
  end.

(** [tot_val / (float)R_]; [None] is NaN, which is what [0.0f / 0.0f]
    gives when [R_] is 0 (the sum is then empty). *)
Definition average (tot_val R : N) : option Q :=
  if R =? 0 then None
  else Some (inject_Z (Z.of_N tot_val) / inject_Z (Z.of_N R))%Q.

(** [tot_val >= val_max]; a comparison with NaN is false. *)
Definition float_ge (tot_val : option Q) (val_max : Q) : bool :=
  match tot_val with
  | None => false
  | Some x => Qle_bool val_max x
  end.

(** The running maximum of the scan: [t] and [val_max]. *)
Definition best := (N * Q)%type.

Definition better (v : N) (tot_val : option Q) (b : best) : best :=
  if float_ge tot_val (snd b)
  then (v, match tot_val with Some x => x | None => snd b end)
  else b.

(** [for (auto v : graph.get_nodes())] of the main loop. *)
Fixpoint candidates (fuel : nat) (R : N) (nodes : list N)
         (activated set : uset) (b : best) (r : rounds)
  : result (best * rounds) :=
  match nodes with
  | [] => Ok (b, r)
  | v :: nodes' =>
      if negb (mem v activated) then
        '(tot_val, r') <- sum_gains fuel (seq 0 (N.to_nat R)) v set 0 r ;;
        candidates fuel R nodes' activated set
          (better v (average tot_val R) b) r'
      else candidates fuel R nodes' activated set b r
  end.

(** [for (i = 0; i < R_; i++) update_dag(i, t)] *)
Fixpoint update_dags (fuel : nat) (ids : list nat) (t : N) (r : rounds)
  : result rounds :=
  match ids with
  | [] => Ok r
  | i :: ids' =>
      r' <- update_dag fuel i t r ;;
      update_dags fuel ids' t r'
  end.

(** One iteration of [while (set.size() < k)]. *)
Definition select_step (fuel : nat) (graph : Graph) (activated : uset)
           (R : N) (set : uset) (r : rounds) : result (uset * rounds) :=
  '(b, r1) <- candidates fuel R (get_nodes graph) activated set (0, 0%Q) r ;;
  let t := fst b in
  r2 <- update_dags fuel (seq 0 (N.to_nat R)) t r1 ;;
  Ok (insert t set, r2).

Fixpoint select_loop (fuel inner : nat) (graph : Graph) (activated : uset)
         (k R : N) (set : uset) (r : rounds) : result (uset * rounds) :=
  match fuel with
  | O => OutOfFuel
  | S fuel' =>
      if N.of_nat (length set) <? k then
        '(set', r') <- select_step inner graph activated R set r ;;
        select_loop fuel' inner graph activated k R set' r'
      else Ok (set, r)
  end.

(** [select(graph, sampler, activated, k)]: the returned set and the
    evaluator as the call leaves it. *)
Definition select (fuel : nat) (graph : Graph) (activated : uset) (k : N)
           (e : OhsakaEvaluator) : result (uset * OhsakaEvaluator) :=
  let e0 := {| rs := no_rounds; tv := tv e; R_ := R_ e; gen := gen e |} in
  e1 <- samples fuel graph activated (seq 0 (N.to_nat (R_ e0))) e0 ;;
  '(set, r) <- select_loop fuel fuel graph activated k (R_ e1) [] (rs e1) ;;
  Ok (set, {| rs := r; tv := tv e1; R_ := R_ e1; gen := gen e1 |}).

(** [OhsakaEvaluator(R)]: empty structures; the generator as
    [gen(rd())] seeded it. *)
Definition new_evaluator (R : N) (seeded : mt19937) : OhsakaEvaluator :=
  {| rs := no_rounds;
     tv := {| lowlink := []; index := []; pred := []; visited := [];
              vis_stack := []; cur_index := 0 |};
     R_ := R; gen := seeded |}.

End Ohsaka.

Import Ohsaka.

(** ** OhsakaEvaluator, with the sampler and the order of pred left open *)

(** [Ohsaka.scc] takes the value of [edge.dist->sample(sampler.get_type())]
    to be the [dist] of the arc, and [Ohsaka.tarjan] iterates [pred] in
    the order of insertion.  This module has the same functions without
    these two choices; [bfs], [gain], [update_dag] and the main loop of
    [select] use neither the sampler nor [pred] and are those of
    [Ohsaka]. *)
Module Sampled.

(** [Sampler] and [InfluenceDistribution] are not among the sources.
    What [scc] needs of them is the value
    [edge.dist->sample(sampler.get_type())] returns at each call; a
    distribution may draw it afresh, so the value is a function of the
    arc and of the number of calls made before. *)
Record Sampler := { values : nat -> EdgeType -> Q; asked : nat }.

Definition sample_dist (edge : EdgeType) (sm : Sampler) : Q * Sampler :=
  (values sm (asked sm) edge,
   {| values := values sm; asked := S (asked sm) |}).


Section Order.

(** The order in which [for (auto val : pred)] meets the entries of
    [pred], which are given in the order of their insertion: it is
    unspecified for [std::unordered_map]. *)
Variable pred_order : umap N -> list (N * N).

Fixpoint scc (fuel : nat) (node : N) (graph : Graph) (s : scc_vars)
         (sm : Sampler) : result (scc_vars * Sampler) :=
  match fuel with
  | O => OutOfFuel
  | S fuel' =>
      let s0 := with_tvars (enter node (tvars s)) s in
      '(s1, sm1) <-
        (if has_neighbours graph node then
           (fix edges (es : list EdgeType) (s : scc_vars) (sm : Sampler)
              : result (scc_vars * Sampler) :=
              match es with
              | [] => Ok (s, sm)
              | edge :: es' =>
                  let (dice_dst, sm) := sample_dist edge sm in
                  let (dice, g') := draw (rng s) in
                  let s := with_rng g' s in
                  if Qlt_bool dice dice_dst then
                    match find (target edge) (index (tvars s)) with
                    | None =>
                        '(s', sm') <-
                          scc fuel' (target edge) graph
                              (with_tvars
                                 (set_pred (target edge) node (tvars s)) s)
                              sm ;;
                        let t := tvars s' in
                        edges es'
                          (with_tvars
                             (set_lowlink node
                                (N.min (get 0 node (lowlink t))
                                       (get 0 (target edge) (lowlink t))) t)
                             s')
                          sm'
                    | Some _ =>
                        let t := tvars s in
                        edges es'
                          (with_tvars
                             (set_lowlink node
                                (N.min (get 0 node (lowlink t))
                                       (get 0 (target edge) (index t))) t)
                             s)
                          sm
                    end
                  else edges es' s sm
              end) (get_neighbours graph node) s0 sm
         else Ok (s0, sm)) ;;
      let t := tvars s1 in
      if get 0 node (lowlink t) =? get 0 node (index t) then
        s2 <- pop_component node (vis_stack t) s1 ;;
        Ok ({| tvars := tvars s2; rng := rng s2; cur_cc := cur_cc s2;
               cur_cc_list := cur_cc_list s2;
               cur_num_cc := cur_num_cc s2 + 1 |}, sm1)
      else Ok (s1, sm1)
  end.

(** The loop of [tarjan] over [graph.get_nodes()]. *)
Fixpoint tarjan_roots (fuel : nat) (graph : Graph) (nodes : list N)
         (s : scc_vars) (sm : Sampler) : result (scc_vars * Sampler) :=
  match nodes with
  | [] => Ok (s, sm)
  | node :: nodes' =>
      match find node (index (tvars s)) with
      | None =>
          '(s', sm') <- scc fuel node graph
                          (with_tvars (set_pred node node (tvars s)) s) sm ;;
          tarjan_roots fuel graph nodes' s' sm'
      | Some _ => tarjan_roots fuel graph nodes' s sm
      end
  end.

Definition tarjan (fuel : nat) (graph : Graph) (e : OhsakaEvaluator)
           (sm : Sampler) : result (OhsakaEvaluator * Sampler) :=
  let t0 := {| lowlink := []; index := []; pred := []; visited := [];
               vis_stack := vis_stack (tv e); cur_index := 0 |} in
  '(s, sm') <- tarjan_roots fuel graph (get_nodes graph)
                 {| tvars := t0; rng := gen e; cur_cc := []; cur_cc_list := [];
                    cur_num_cc := 0 |} sm ;;
  let t := tvars s in
  let dag := create_dag (cur_cc s) (pred_order (pred t)) in
  Ok ({| rs := push_sample (cur_cc s) (cur_cc_list s) dag (rs e);
         tv := {| lowlink := lowlink t; index := index t; pred := pred t;
                  visited := visited t; vis_stack := [];
                  cur_index := cur_index t |};
         R_ := R_ e;
         gen := rng s |}, sm').

(** One iteration of "Sample the graphs and create DAGs and supporting
    structures". *)
Definition sample (fuel : nat) (graph : Graph) (activated : uset) (i : nat)
           (e : OhsakaEvaluator) (sm : Sampler)
  : result (OhsakaEvaluator * Sampler) :=
  '(e, sm') <- tarjan fuel graph e sm ;;
  let r := rs e in
  let A1 := A r ++ [[]] in
  let D1 := D r ++ [[]] in
  g <- vec_at (graphs r) i ;;
  let max_node := highest_degree g (get_nodes g) 0 0 in
  ccl_i <- vec_at (cc_list r) i ;;
  let cc_list1 := vec_set (cc_list r) i (remove_activated activated ccl_i) in
  let h1 := h r ++ [max_node] in
  h_i <- vec_at h1 i ;;
  D_i <- vec_at D1 i ;;
  D_i' <- bfs fuel (graphs r) h_i i D_i false 0 ;;
  let D2 := vec_set D1 i D_i' in
  A_i <- vec_at A1 i ;;
  A_i' <- ancestors fuel (graphs r) i h_i D_i' (get_nodes g) A_i ;;
  let A2 := vec_set A1 i A_i' in
  let cur_latest :=
    fold_left (fun m node => assign node false m) (get_nodes g) [] in
  let cur_delta :=
    fold_left (fun m node => assign node 0 m) (get_nodes g) [] in
  Ok ({| rs := {| cc := cc r; cc_list := cc_list1; graphs := graphs r;
                  A := A2; D := D2; h := h1;
                  latest := latest r ++ [cur_latest];
                  delta := delta r ++ [cur_delta] |};
         tv := tv e; R_ := R_ e; gen := gen e |}, sm').

Fixpoint samples (fuel : nat) (graph : Graph) (activated : uset)
         (ids : list nat) (e : OhsakaEvaluator) (sm : Sampler)
  : result (OhsakaEvaluator * Sampler) :=
  match ids with
  | [] => Ok (e, sm)
  | i :: ids' =>
      '(e', sm') <- sample fuel graph activated i e sm ;;
      samples fuel graph activated ids' e' sm'
  end.

(** [select(graph, sampler, activated, k)]: the returned set, the
    evaluator and the sampler as the call leaves them. *)
Definition select (fuel : nat) (graph : Graph) (activated : uset) (k : N)
           (e : OhsakaEvaluator) (sm : Sampler)
  : result (uset * OhsakaEvaluator * Sampler) :=
  let e0 := {| rs := no_rounds; tv := tv e; R_ := R_ e; gen := gen e |} in
  '(e1, sm1) <- samples fuel graph activated (seq 0 (N.to_nat (R_ e0))) e0 sm ;;
  '(set, r) <- select_loop fuel fuel graph activated k (R_ e1) [] (rs e1) ;;
  Ok (set, {| rs := r; tv := tv e1; R_ := R_ e1; gen := gen e1 |}, sm1).

End Order.


End Sampled.

(** ** main.cpp *)

Module Main.

Import String Ascii.
Local Open Scope string_scope.

Inductive Evaluator :=
| CELFEvaluator
| RandomEvaluator
| DiscountDegreeEvaluator
| TIMEvaluator
| HighestDegreeEvaluator.

Inductive Strategy :=
| OriginalGraphStrategy
| EpsilonGreedyStrategy
| ExponentiatedGradientStrategy
| ZScoresStrategy.

(** *** The graph file *)

(** The file named by [argv[2]], as its characters; a file that cannot be
    opened behaves as the empty one.  [file >> x] is the formatted
    extraction of the GNU C++ library with the flags of a fresh stream
    ([skipws], [dec]) in the C locale: it skips white space, takes the
    longest run of characters that can go on a number of the type of [x],
    and fails when that run is no number or its value does not fit. *)

Definition is_space (c : ascii) : bool :=
  let n := nat_of_ascii c in
  (n =? 32)%nat || ((9 <=? n)%nat && (n <=? 13)%nat).

Fixpoint skip_spaces (s : string) : string :=
  match s with
  | String c s' => if is_space c then skip_spaces s' else s
  | EmptyString => s
  end.

(** One decimal digit, as the step it adds to a numeral. *)
Definition digit_char (c : ascii) : option (Decimal.uint -> Decimal.uint) :=
  match c with
  | "0"%char => Some Decimal.D0 | "1"%char => Some Decimal.D1
  | "2"%char => Some Decimal.D2 | "3"%char => Some Decimal.D3
  | "4"%char => Some Decimal.D4 | "5"%char => Some Decimal.D5
  | "6"%char => Some Decimal.D6 | "7"%char => Some Decimal.D7
  | "8"%char => Some Decimal.D8 | "9"%char => Some Decimal.D9
  | _ => None
  end.

(** The longest run of digits a string starts with, and what follows. *)
Fixpoint take_digits (s : string) : Decimal.uint * string :=
  match s with
  | String c s' =>
      match digit_char c with
      | Some d => let (u, rest) := take_digits s' in (d u, rest)
      | None => (Decimal.Nil, s)
      end
  | EmptyString => (Decimal.Nil, s)
  end.

(** An optional sign; [true] is minus. *)
Definition take_sign (s : string) : bool * string :=
  match s with
  | String "-" s' => (true, s')
  | String "+" s' => (false, s')
  | _ => (false, s)
  end.

Definition no_digit (u : Decimal.uint) : bool :=
  match u with Decimal.Nil => true | _ => false end.

(** [file >> src] for [unsigned long src], of 64 bits: the value and the
    rest of the stream, or [None] when the fail bit is set.  A minus sign
    is accepted and the value negated in the unsigned type ("-1" reads as
    2^64 - 1); a magnitude that does not fit fails; so does a run without
    a digit.
    The extraction stops before the first character that is no digit, so
    of "1.5" it takes 1 and leaves ".5" in the stream. *)
Definition extract_ulong (s : string) : option (N * string) :=
  let (neg, s1) := take_sign (skip_spaces s) in
  let (u, rest) := take_digits s1 in
  if no_digit u then None
  else
    let v := N.of_uint u in
    if (v <? 2 ^ 64)%N
    then Some (if neg then ((2 ^ 64 - v) mod 2 ^ 64)%N else v, rest)
    else None.

(** From this magnitude on a decimal literal rounds to infinity. *)
Definition huge : Q := inject_Z (2 ^ 1024 - 2 ^ 970).

(** The exponent part of a floating literal: [e] or [E], an optional
    sign, digits. *)
Definition take_exponent (s : string)
  : option (bool * Decimal.uint) * string :=
  match s with
  | String c s' =>
      if (c =? "e")%char || (c =? "E")%char then
        let (eneg, s1) := take_sign s' in
        let (ed, s2) := take_digits s1 in
        (Some (eneg, ed), s2)
      else (None, s)
  | EmptyString => (None, s)
  end.

(** The value of the digits [ip], a point, the digits [fp]. *)
Definition mantissa (ip fp : Decimal.uint) : Q :=
  let k := Z.of_nat (Decimal.nb_digits fp) in
  Qmake (Z.of_N (N.of_uint ip) * 10 ^ k + Z.of_N (N.of_uint fp))
        (Z.to_pos (10 ^ k)).

Definition scale (m : Q) (ex : option (bool * Decimal.uint)) : Q :=
  match ex with
  | None => m
  | Some (eneg, ed) =>
      let p := inject_Z (10 ^ Z.of_N (N.of_uint ed)) in
      if eneg then (m / p)%Q else (m * p)%Q
  end.

(** [file >> prob] for [double prob]: sign, digits, an optional point and
    digits, and, once a digit has been met, an optional exponent.  The
    run is a number when the mantissa has a digit and the exponent, if
    begun, has one; a value that rounds to infinity fails.  The value is
    the rational the literal denotes (its rounding to [double] is left
    out). *)
Definition extract_double (s : string) : option (Q * string) :=
  let (neg, s1) := take_sign (skip_spaces s) in
  let (ip, s2) := take_digits s1 in
  let (fp, s3) :=
    match s2 with
    | String "." s' => take_digits s'
    | _ => (Decimal.Nil, s2)
    end in
  if no_digit ip && no_digit fp then None
  else
    let (ex, rest) := take_exponent s3 in
    match ex with
    | Some (_, Decimal.Nil) => None
    | _ =>
        let v := scale (mantissa ip fp) ex in
        if Qle_bool huge v then None
        else Some (if neg then (- v)%Q else v, rest)
    end.

(** [file >> src >> tgt >> prob] *)
Definition extract_triple (s : string) : option (N * N * Q * string) :=
  match extract_ulong s with
  | Some (src, s1) =>
      match extract_ulong s1 with
      | Some (tgt, s2) =>
          match extract_double s2 with
          | Some (prob, s3) => Some (src, tgt, prob, s3)
          | None => None
          end
      | None => None
      end
  | None => None
  end.

(** [while (file >> src >> tgt >> prob) { ...add_edge(src, tgt, ...);
    edges++; }]: the [add_edge] calls made, in order.  Every turn of the
    loop takes characters from the stream, so the length of the file
    bounds the turns. *)
Fixpoint read_loop (fuel : nat) (s : string) : list (N * N * Q) :=
  match fuel with
  | O => []
  | S fuel' =>
      match extract_triple s with
      | Some (src, tgt, prob, rest) =>
          (src, tgt, prob) :: read_loop fuel' rest
      | None => []
      end
  end.

Definition read_edges (file : string) : list (N * N * Q) :=
  read_loop (String.length file) file.

(** The graph the calls build, each arc carrying the probability read. *)
Definition build_graph (es : list (N * N * Q)) : Graph :=
  fold_left (fun g '(src, tgt, prob) => add_edge g src tgt prob)
            es empty_graph.

(** *** Arguments *)

Definition digit_of (c : ascii) : option Z :=
  let n := nat_of_ascii c in
  if ((48 <=? n)%nat && (n <=? 57)%nat) then Some (Z.of_nat (n - 48))
  else None.

Fixpoint digits (s : string) (acc : Z) : Z :=
  match s with
  | String c s' =>
      match digit_of c with
      | Some d => digits s' (10 * acc + d)
      | None => acc
      end
  | EmptyString => acc
  end.

(** [atoi]: optional white space, optional sign, decimal digits; 0 when no
    digits follow.  (A value outside [int] is undefined in C; the model
    returns the mathematical value.) *)
Definition atoi (s : string) : Z :=
  match skip_spaces s with
  | String "-" s' => - digits s' 0
  | String "+" s' => digits s' 0
  | s' => digits s' 0
  end.

(** Initialising an [unsigned int] from an [int]. *)
Definition to_unsigned (z : Z) : N := Z.to_N (z mod 2 ^ 32).

(** *** What a run of the program comes to *)

(** The call [strategy.perform(budget, k, ...)], with the strategy, the
    [add_edge] calls that built the ground-truth graph, and the evaluators
    handed to the strategy's constructor, in argument order. *)
Record perform_call := {
  strategy : Strategy;
  edges_loaded : list (N * N * Q);
  evaluators : list Evaluator;
  budget : N;
  k : N
}.

Inductive outcome :=
| Performs (c : perform_call)
    (** control reaches [strategy.perform] *)
| Exits (code : Z) (cerr : string)
    (** [exit(code)] after writing [cerr] to [std::cerr] *)
| Throws_out_of_range
    (** [evals.at(i)] with [i >= evals.size()]; nothing catches it *)
| Benchmarks (nodes edges : N)
    (** [benchmark] has printed "<nodes> nodes, <edges> edges" and goes on
        to sample *)
| Spreads (edges : list (N * N * Q)) (k : N)
    (** [spread] reaches [evaluator_celf.select(..., k, samples)] *)
| Returns (code : Z)
    (** [main] returns *)
| Null_argument
    (** [argv[n]] read with [n >= argc] *).

Definition arg (argv : list string) (n : nat) (f : string -> outcome)
  : outcome :=
  match nth_error argv n with
  | Some s => f s
  | None => Null_argument
  end.

(** [*evals.at(i)] *)
Definition at_ (evals : list Evaluator) (i : N) (f : Evaluator -> outcome)
  : outcome :=
  match nth_error evals (N.to_nat i) with
  | Some e => f e
  | None => Throws_out_of_range
  end.

(** *** The modes *)

Definition real_evals : list Evaluator :=
  [CELFEvaluator; RandomEvaluator; DiscountDegreeEvaluator; TIMEvaluator;
   HighestDegreeEvaluator]%list.

Definition prior_evals : list Evaluator :=
  [CELFEvaluator; RandomEvaluator; DiscountDegreeEvaluator;
   TIMEvaluator]%list.

Definition explore_evals : list Evaluator :=
  [RandomEvaluator; DiscountDegreeEvaluator; CELFEvaluator;
   TIMEvaluator]%list.

Definition epsgreedy_evals : list Evaluator :=
  [CELFEvaluator; RandomEvaluator; DiscountDegreeEvaluator;
   TIMEvaluator]%list.

Definition zscore_evals : list Evaluator :=
  [CELFEvaluator; RandomEvaluator; DiscountDegreeEvaluator;
   TIMEvaluator]%list.

(** The [if] chain of [expgr]. *)
Definition expgr_evaluator (exploit : N) : option Evaluator :=
  if (exploit =? 0)%N then Some CELFEvaluator
  else if (exploit =? 1)%N then Some RandomEvaluator
  else if (exploit =? 2)%N then Some DiscountDegreeEvaluator
  else if (exploit =? 3)%N then Some TIMEvaluator
  else None.

Definition real (file : string) (argv : list string) : outcome :=
  arg argv 2 (fun _ =>
  let es := read_edges file in
  arg argv 3 (fun a3 => let exploit := to_unsigned (atoi a3) in
  arg argv 4 (fun a4 => let budget := to_unsigned (atoi a4) in
  arg argv 5 (fun a5 => let k := to_unsigned (atoi a5) in
  at_ real_evals exploit (fun e =>
  Performs {| strategy := OriginalGraphStrategy; edges_loaded := es;
              evaluators := [e]%list; budget := budget; k := k |}))))).

Definition prior (file : string) (argv : list string) : outcome :=
  arg argv 2 (fun _ => arg argv 3 (fun _ => arg argv 4 (fun _ =>
  let es := read_edges file in
  arg argv 5 (fun a5 => let exploit := to_unsigned (atoi a5) in
  arg argv 6 (fun a6 => let budget := to_unsigned (atoi a6) in
  arg argv 7 (fun a7 => let k := to_unsigned (atoi a7) in
  at_ prior_evals exploit (fun e =>
  Performs {| strategy := OriginalGraphStrategy; edges_loaded := es;
              evaluators := [e]%list; budget := budget; k := k |}))))))).

Definition explore (file : string) (argv : list string) : outcome :=
  arg argv 2 (fun _ => arg argv 3 (fun _ => arg argv 4 (fun _ =>
  let es := read_edges file in
  arg argv 5 (fun a5 => let explore := to_unsigned (atoi a5) in
  arg argv 6 (fun a6 => let budget := to_unsigned (atoi a6) in
  arg argv 7 (fun a7 => let k := to_unsigned (atoi a7) in
  at_ explore_evals explore (fun e1 =>
  at_ explore_evals explore (fun e2 =>
  Performs {| strategy := EpsilonGreedyStrategy; edges_loaded := es;
              evaluators := [e1; e2]%list;
              budget := budget; k := k |})))))))).

Definition epsgreedy (file : string) (argv : list string) : outcome :=
  arg argv 2 (fun _ => arg argv 3 (fun _ => arg argv 4 (fun _ =>
  let es := read_edges file in
  arg argv 5 (fun a5 => let exploit := to_unsigned (atoi a5) in
  arg argv 6 (fun a6 => let explore := to_unsigned (atoi a6) in
  arg argv 7 (fun a7 => let budget := to_unsigned (atoi a7) in
  arg argv 8 (fun a8 => let k := to_unsigned (atoi a8) in
  arg argv 9 (fun _ =>
  at_ epsgreedy_evals explore (fun e1 =>
  at_ epsgreedy_evals exploit (fun e2 =>
  Performs {| strategy := EpsilonGreedyStrategy; edges_loaded := es;
              evaluators := [e1; e2]%list;
              budget := budget; k := k |})))))))))).

Definition expgr (file : string) (argv : list string) : outcome :=
  arg argv 2 (fun _ => arg argv 3 (fun _ => arg argv 4 (fun _ =>
  arg argv 5 (fun a5 => let exploit := to_unsigned (atoi a5) in
  arg argv 6 (fun a6 => let budget := to_unsigned (atoi a6) in
  arg argv 7 (fun a7 => let k := to_unsigned (atoi a7) in
  let es := read_edges file in
  match expgr_evaluator exploit with
  | Some evaluator =>
      Performs {| strategy := ExponentiatedGradientStrategy;
                  edges_loaded := es; evaluators := [evaluator]%list;
                  budget := budget; k := k |}
  | None => Exits 1 "Error: `exploit` must be in range 0..3"
  end)))))).

Definition zscore (file : string) (argv : list string) : outcome :=
  arg argv 2 (fun _ => arg argv 3 (fun _ => arg argv 4 (fun _ =>
  let es := read_edges file in
  arg argv 5 (fun a5 => let exploit := to_unsigned (atoi a5) in
  arg argv 6 (fun a6 => let budget := to_unsigned (atoi a6) in
  arg argv 7 (fun a7 => let k := to_unsigned (atoi a7) in
  at_ zscore_evals exploit (fun e =>
  Performs {| strategy := ZScoresStrategy; edges_loaded := es;
              evaluators := [e]%list; budget := budget; k := k |}))))))).

Definition benchmark (file : string) (argv : list string) : outcome :=
  arg argv 2 (fun _ => arg argv 3 (fun _ => arg argv 4 (fun _ =>
  let es := read_edges file in
  let nodes := N.of_nat (List.length (get_nodes (build_graph es))) in
  Benchmarks nodes (N.of_nat (List.length es))))).

Definition spread (file : string) (argv : list string) : outcome :=
  arg argv 2 (fun _ => arg argv 3 (fun _ => arg argv 4 (fun _ =>
  arg argv 5 (fun a5 => let k := to_unsigned (atoi a5) in
  Spreads (read_edges file) k)))).

(** [main]; [file] is the content of the file [argv[2]] names. *)
Definition main (file : string) (argv : list string) : outcome :=
  arg argv 1 (fun first_arg =>
  if first_arg =? "--benchmark" then benchmark file argv
  else if first_arg =? "--spread" then spread file argv
  else if first_arg =? "--egreedy" then epsgreedy file argv
  else if first_arg =? "--explore" then explore file argv
  else if first_arg =? "--real" then real file argv
  else if first_arg =? "--prior" then prior file argv
  else if first_arg =? "--eg" then expgr file argv
  else if first_arg =? "--zsc" then zscore file argv
  else Returns 0).

(** *** What benchmark and spread print *)





End Main.

(** ** Vocabulary of the statements *)

(** The set a call of [select] returns. *)
Definition selected (m : result (uset * OhsakaEvaluator)) : result uset :=
  '(set, _) <- m ;; Ok set.

(** The candidates of the main loop: the nodes of the graph, in iteration
    order, that are not activated. *)
Definition non_activated (graph : Graph) (activated : uset) : list N :=
  filter (fun v => negb (mem v activated)) (get_nodes graph).

(** The averaged gains one scan of the main loop computes, candidate by
    candidate in iteration order, with the caches threaded as [candidates]
    threads them. *)
Fixpoint averages (fuel : nat) (R : N) (nodes : list N)
         (activated set : uset) (r : rounds)
  : result (list (N * option Q) * rounds) :=
  match nodes with
  | [] => Ok ([], r)
  | v :: nodes' =>
      if negb (mem v activated) then
        '(tot_val, r') <- sum_gains fuel (seq 0 (N.to_nat R)) v set 0 r ;;
        '(l, r'') <- averages fuel R nodes' activated set r' ;;
        Ok ((v, average tot_val R) :: l, r'')
      else averages fuel R nodes' activated set r
  end.

(** The running maximum after the scan has met the averages [l]. *)
Definition pick (l : list (N * option Q)) (b : best) : best :=
  fold_left (fun b va => better (fst va) (snd va) b) l b.

(** The targets of all arcs stored in [g]: the only nodes [bfs] can push. *)
Definition targets (g : Graph) : list N :=
  flat_map (fun kv => map target (snd kv)) (adj_list g).

(** The targets [bfs] has not visited yet. *)
Definition unseen (g : Graph) (seen : uset) : list N :=
  filter (fun x => negb (mem x seen)) (targets g).

(** What bounds the iterations [bfs] has left. *)
Definition bfs_measure (g : Graph) (s : bfs_vars) : nat :=
  (length (q s) + length (unseen g (seen s)))%nat.

(** What [bfs] started at [node] with [to = false] keeps true of its queue,
    its visited set and [col], which held [col0] at the call. *)
Definition bfs_inv (g : Graph) (node : N) (col0 : uset) (s : bfs_vars) : Prop :=
  In node (seen s) /\
  (forall x, In x (q s) -> reach g node x) /\
  (forall x, In x (col s) -> In x col0 \/ (x <> node /\ reach_plus g node x)).

(** ** Vocabulary of the statements about main.cpp *)

Module MainSpec.

Import String Main.
Local Open Scope string_scope.

(** The table of evaluator indices as the specification words it:
    "0=CELF, 1=Random, 2=DiscountDegree, 3=TIM, 4=HighestDegree". *)
Definition index_table (i : N) : option Evaluator :=
  match i with
  | 0%N => Some CELFEvaluator
  | 1%N => Some RandomEvaluator
  | 2%N => Some DiscountDegreeEvaluator
  | 3%N => Some TIMEvaluator
  | 4%N => Some HighestDegreeEvaluator
  | _ => None
  end.

(** The evaluators a run hands to its strategy. *)
Definition chosen (o : outcome) : list Evaluator :=
  match o with
  | Performs c => evaluators c
  | _ => []%list
  end.

(** A probability as an edge file writes it: an optional minus sign, an
    integer part, and the digits after the point ([Nil] when no point is
    written). *)
Record numeral := {
  minus : bool;
  int_part : N;
  frac_part : Decimal.uint
}.

Definition digits_text (u : Decimal.uint) : string :=
  DecimalString.NilEmpty.string_of_uint u.

Definition number_text (n : N) : string := digits_text (N.to_uint n).

Definition numeral_text (p : numeral) : string :=
  (if minus p then "-" else EmptyString)
  ++ number_text (int_part p)
  ++ (if no_digit (frac_part p) then EmptyString else "." ++ digits_text (frac_part p)).

(** The number a numeral denotes. *)
Definition numeral_value (p : numeral) : Q :=
  let v := mantissa (N.to_uint (int_part p)) (frac_part p) in
  if minus p then (- v)%Q else v.

Definition newline : string :=
  String (Ascii.ascii_of_nat 10) EmptyString.

(** An arc as a line of the file: "src tgt prob" and a newline. *)
Definition line (w : N * N * numeral) : string :=
  let '(src, tgt, p) := w in
  number_text src ++ " " ++ number_text tgt ++ " " ++ numeral_text p
  ++ newline.

(** The file that lists the arcs [ws], one per line. *)
Definition text (ws : list (N * N * numeral)) : string :=
  fold_right (fun w s => line w ++ s) EmptyString ws.

(** The arcs the lines stand for. *)
Definition edges (ws : list (N * N * numeral)) : list (N * N * Q) :=
  map (fun '(src, tgt, p) => (src, tgt, numeral_value p)) ws.

(** Both endpoints fit an [unsigned long] and the probability fits a
    [double]. *)
Definition fits (w : N * N * numeral) : Prop :=
  (fst (fst w) < 2 ^ 64)%N /\ (snd (fst w) < 2 ^ 64)%N /\
  Qle_bool huge (mantissa (N.to_uint (int_part (snd w))) (frac_part (snd w)))
  = false.

(** The file without a character, which is also what a file that cannot
    be opened reads as. *)
Definition empty_file : string := EmptyString.

(** Argument vectors of the examples. *)
Definition real_args (exploit budget k : string) : list string :=
  ["oim"; "--real"; "graph.txt"; exploit; budget; k]%list.

Definition explore_args (explore budget k : string) : list string :=
  ["oim"; "--explore"; "graph.txt"; "1"; "1"; explore; budget; k]%list.

Definition eg_args (exploit budget k : string) : list string :=
  ["oim"; "--eg"; "graph.txt"; "1"; "1"; exploit; budget; k]%list.

End MainSpec.

Import MainSpec.

(** ** Inputs of the examples *)

Definition get_ok {T : Type} (d : T) (m : result T) : T :=
  match m with Ok a => a | _ => d end.

(** A generator whose every draw is 0: an arc of positive probability is
    live, an arc of probability 0 is not. *)
Definition low_draws : mt19937 := {| draws := fun _ => 0%Q; drawn := 0 |}.

(** A generator whose first draw is 0 and whose later draws are 3/4. *)
Definition low_then_high : mt19937 :=
  {| draws := fun n => match n with O => 0%Q | _ => (3 # 4)%Q end;
     drawn := 0 |}.

(** The file "0 1 1": one arc of probability 1. *)
Definition one_arc : Graph := Main.build_graph [(0, 1, 1%Q)].

(** The graph [g] with its nodes iterated in the order [ns]. *)
Definition reorder (ns : list N) (g : Graph) : Graph :=
  {| node_set := ns; adj_list := adj_list g |}.

(** The file "0 1 0.5 / 1 0 0.5", and the same graph iterated in the
    opposite order. *)
Definition two_way : Graph :=
  Main.build_graph [(0, 1, (1 # 2)%Q); (1, 0, (1 # 2)%Q)].

Definition two_way_reversed : Graph := reorder [1; 0] two_way.

(** The file "0 1 1 / 0 2 1 / 1 2 1". *)
Definition shortcut : Graph :=
  Main.build_graph [(0, 1, 1%Q); (0, 2, 1%Q); (1, 2, 1%Q)].

(** The file "1 0 0 / 0 2 0": three nodes, inserted in the order 1, 0, 2,
    and no arc that can be live. *)
Definition dead_arcs : Graph := Main.build_graph [(1, 0, 0%Q); (0, 2, 0%Q)].

(** The same graph iterated in the opposite order. *)
Definition dead_arcs_reversed : Graph := reorder [2; 0; 1] dead_arcs.

(** The evaluator after [tarjan] on [one_arc]. *)
Definition one_arc_tarjan : OhsakaEvaluator :=
  Eval vm_compute in
    get_ok (new_evaluator 1 low_draws)
           (tarjan 50 one_arc (new_evaluator 1 low_draws)).

(** The evaluator after the sampling loop of [select] on [one_arc], with
    node 1 activated. *)
Definition one_arc_sampled_1 : OhsakaEvaluator :=
  Eval vm_compute in
    get_ok (new_evaluator 1 low_draws)
           (sample 50 one_arc [1] 0 (new_evaluator 1 low_draws)).

(** The evaluator after the sampling loop of [select] on [one_arc], with
    nothing activated, and the caches after the first and the second
    iteration of the main loop. *)
Definition one_arc_sampled : OhsakaEvaluator :=
  Eval vm_compute in
    get_ok (new_evaluator 1 low_draws)
           (samples 50 one_arc [] [0%nat] (new_evaluator 1 low_draws)).

Definition one_arc_round1 : rounds :=
  Eval vm_compute in
    snd (get_ok ([], no_rounds)
                (select_step 50 one_arc [] 1 [] (rs one_arc_sampled))).

Definition one_arc_round2 : rounds :=
  Eval vm_compute in
    snd (get_ok ([], no_rounds)
                (select_step 50 one_arc [] 1 [0] one_arc_round1)).

(** The evaluator after [tarjan] on [shortcut]. *)
Definition shortcut_tarjan : OhsakaEvaluator :=
  Eval vm_compute in
    get_ok (new_evaluator 1 low_draws)
           (tarjan 50 shortcut (new_evaluator 1 low_draws)).

(** The evaluator after the sampling loop of [select] on [dead_arcs], and
    the caches after the first iteration of the main loop. *)
Definition dead_arcs_sampled : OhsakaEvaluator :=
  Eval vm_compute in
    get_ok (new_evaluator 1 low_draws)
           (samples 50 dead_arcs [] [0%nat] (new_evaluator 1 low_draws)).

Definition dead_arcs_round1 : rounds :=
  Eval vm_compute in
    snd (get_ok ([], no_rounds)
                (select_step 50 dead_arcs [] 1 [] (rs dead_arcs_sampled))).

(** The evaluator a first call of [select] on [two_way] leaves behind, and
    the same for [two_way_reversed]. *)
Definition two_way_after_call : OhsakaEvaluator :=
  Eval vm_compute in
    snd (get_ok ([], new_evaluator 1 low_then_high)
                (select 50 two_way [] 1 (new_evaluator 1 low_then_high))).

Definition two_way_reversed_after_call : OhsakaEvaluator :=
  Eval vm_compute in
    snd (get_ok ([], new_evaluator 1 low_then_high)
                (select 50 two_way_reversed [] 1
                        (new_evaluator 1 low_then_high))).


(** The contracted graph [tarjan] builds on [shortcut]. *)
Definition shortcut_dag : Graph :=
  Eval vm_compute in nth 0 (graphs (rs shortcut_tarjan)) empty_graph.

(** [crossing_arcs_kept graph c dag]: every arc of [graph] whose endpoints
    [c] puts in different components has an arc between the two components
    in [dag]. *)
Definition crossing_arcs_kept (graph : Graph) (c : cc_map) (dag : Graph)
  : bool :=
  forallb
    (fun u =>
       forallb
         (fun e =>
            (get 0 u c =? get 0 (target e) c)
            || (has_neighbours dag (get 0 u c)
                && existsb (fun e' => target e' =? get 0 (target e) c)
                           (get_neighbours dag (get 0 u c))))
         (get_neighbours graph u))
    (get_nodes graph).

(** [components_apart ns c]: [c] puts the nodes [ns] in pairwise different
    components. *)
Fixpoint components_apart (ns : list N) (c : cc_map) : bool :=
  match ns with
  | [] => true
  | u :: ns' =>
      negb (existsb (fun v => get 0 u c =? get 0 v c) ns')
      && components_apart ns' c
  end.

(** What [tarjan] makes of [shortcut] iterated in the order [ns]: whether
    the three nodes get three components, and whether the crossing arcs are
    kept. *)
Definition shortcut_contracted (ns : list N) : result (bool * bool) :=
  e <- tarjan 50 (reorder ns shortcut) (new_evaluator 1 low_draws) ;;
  c <- vec_at (cc (rs e)) 0 ;;
  dag <- vec_at (graphs (rs e)) 0 ;;
  Ok (components_apart ns c, crossing_arcs_kept (reorder ns shortcut) c dag).

(** The contracted graph of the one sample of [one_arc_sampled]. *)
Definition one_arc_dag : Graph :=
  Eval vm_compute in nth 0 (graphs (rs one_arc_sampled)) empty_graph.

(** ** Vocabulary of the further properties *)

(** [closed_in g seen x]: every arc stored at [x] leads into [seen]. *)
Definition closed_in (g : Graph) (seen : uset) (x : N) : Prop :=
  forall y, arc g x y -> In y seen.

(** What [bfs] started at [node] keeps true of its queue and its visited
    set, whatever [to] is: the queue is visited, a visited node is queued
    or has all its arcs followed, and what is visited is reachable. *)
Definition bfs_frontier (g : Graph) (node : N) (s : bfs_vars) : Prop :=
  In node (seen s) /\
  (forall x, In x (q s) -> In x (seen s)) /\
  (forall x, In x (seen s) -> In x (q s) \/ closed_in g (seen s) x) /\
  (forall x, In x (seen s) -> reach g node x).

(** [same_samples r r']: the structures built when the graphs are sampled
    are the same in [r'] as in [r]. *)
Definition same_samples (r r' : rounds) : Prop :=
  cc r' = cc r /\ cc_list r' = cc_list r /\ graphs r' = graphs r /\
  A r' = A r /\ D r' = D r /\ h r' = h r.

(** [flags_kept i r r']: every flag set in [latest[i]] of [r] is set in
    [latest[i]] of [r']. *)
Definition flags_kept (i : nat) (r r' : rounds) : Prop :=
  forall l x, vec_at (latest r) i = Ok l -> get false x l = true ->
              exists l', vec_at (latest r') i = Ok l' /\ get false x l' = true.

(** [arc_present g x y]: an arc stored at [x] leads to [y], and [y] is
    still a node of [g]. *)
Definition arc_present (g : Graph) (x y : N) : Prop :=
  arc g x y /\ has_node g y = true.

(** Reachable along arcs into nodes that are still there. *)
Definition reach_present (g : Graph) : N -> N -> Prop :=
  clos_refl_trans N (arc_present g).

(** The sizes of the components [l], added up. *)
Definition component_sizes (ccl_i : cc_node_map) (l : list N) : N :=
  fold_right (fun u acc => N.of_nat (length (get [] u ccl_i)) + acc) 0 l.

(** What the [while] loop of [gain] keeps true when nothing is pruned:
    [X] is the nodes already taken from the queue followed by the queue,
    without repetition; [dv] has the sizes of the nodes taken; their arcs
    into present nodes lead into [X]; and [X] is reachable from [v]. *)
Definition gain_inv (g : Graph) (ccl_i : cc_node_map) (v : N) (d0 : N)
           (P Q : list N) (X : uset) (dv : N) : Prop :=
  X = P ++ Q /\ NoDup X /\ dv = d0 + component_sizes ccl_i P /\
  (forall p y, In p P -> arc_present g p y -> In y X) /\
  (forall x, In x X -> reach_present g v x) /\
  In v X.

(** The out-degree [select] computes for a node of a contracted graph. *)
Definition out_degree (g : Graph) (node : N) : N :=
  if has_neighbours g node then N.of_nat (length (get_neighbours g node))
  else 0.

(** The keys of a map. *)
Definition keys {V : Type} (m : umap V) : list N := map fst m.

(** The loop of [scc] over the arcs of [node], with the recursive call
    named: [scc (S fuel) node graph] runs it with [scc fuel _ graph] for
    [rec]. *)
Definition scc_edges (rec : N -> scc_vars -> result scc_vars) (node : N)
  : list EdgeType -> scc_vars -> result scc_vars :=
  fix edges (es : list EdgeType) (s : scc_vars) : result scc_vars :=
    match es with
    | [] => Ok s
    | edge :: es' =>
        let dice_dst := dist edge in
        let (dice, g') := draw (rng s) in
        let s := with_rng g' s in
        if Qlt_bool dice dice_dst then
          match find (target edge) (index (tvars s)) with
          | None =>
              s' <- rec (target edge)
                      (with_tvars (set_pred (target edge) node (tvars s)) s) ;;
              let t := tvars s' in
              edges es'
                (with_tvars
                   (set_lowlink node
                      (N.min (get 0 node (lowlink t))
                             (get 0 (target edge) (lowlink t))) t)
                   s')
          | Some _ =>
              let t := tvars s in
              edges es'
                (with_tvars
                   (set_lowlink node
                      (N.min (get 0 node (lowlink t))
                             (get 0 (target edge) (index t))) t)
                   s)
          end
        else edges es' s
    end.

(** [grows s s']: from [s] to [s'] the generator has only advanced, and
    [pred] and [index] have only gained keys. *)
Definition grows (s s' : scc_vars) : Prop :=
  draws (rng s') = draws (rng s) /\
  (drawn (rng s) <= drawn (rng s'))%nat /\
  incl (keys (pred (tvars s))) (keys (pred (tvars s'))) /\
  incl (keys (index (tvars s))) (keys (index (tvars s'))).

(** Every node with an index has a predecessor entry. *)
Definition indexed_have_pred (s : scc_vars) : Prop :=
  incl (keys (index (tvars s))) (keys (pred (tvars s))).

(** The eight vectors of the rounds all hold [n] entries. *)
Definition all_sized (n : nat) (r : rounds) : Prop :=
  length (cc r) = n /\ length (cc_list r) = n /\ length (graphs r) = n /\
  length (A r) = n /\ length (D r) = n /\ length (h r) = n /\
  length (latest r) = n /\ length (delta r) = n.

(** The number of arcs stored at the nodes [ks] of [g]. *)
Definition arcs_at (g : Graph) (ks : list N) : nat :=
  fold_right (fun v acc => (N.to_nat (out_degree g v) + acc)%nat) 0%nat ks.

(** [main_loop_frame r r']: from [r] to [r'] only [graphs], [latest] and
    [delta] have changed, and they hold as many entries as before. *)
Definition main_loop_frame (r r' : rounds) : Prop :=
  cc r' = cc r /\ cc_list r' = cc_list r /\
  A r' = A r /\ D r' = D r /\ h r' = h r /\
  length (graphs r') = length (graphs r) /\
  length (latest r') = length (latest r) /\
  length (delta r') = length (delta r).

(** ** Vocabulary of the further statements about main.cpp *)

Module MainArgs.

Import String Main.
Local Open Scope string_scope.

(** The number of arguments a mode reads unconditionally, [argv[0]]
    included: one more than the largest index [n] of an [argv[n]] that is
    not guarded by a test of [argc]. *)
Definition required_argc (mode : string) : nat :=
  if mode =? "--benchmark" then 5
  else if mode =? "--spread" then 6
  else if mode =? "--egreedy" then 10
  else if mode =? "--explore" then 8
  else if mode =? "--real" then 6
  else if mode =? "--prior" then 8
  else if mode =? "--eg" then 8
  else if mode =? "--zsc" then 8
  else 2.

(** The words [main] compares [argv[1]] with. *)
Definition mode_words : list string :=
  ["--benchmark"; "--spread"; "--egreedy"; "--explore"; "--real";
   "--prior"; "--eg"; "--zsc"]%list.

End MainArgs.

Import MainArgs.

(** ** Inputs of the further examples *)

(** The caches after [gain(0, 0, {})] on [one_arc_sampled]. *)
Definition one_arc_gained : rounds :=
  Eval vm_compute in
    snd (get_ok (0, no_rounds) (gain 50 0 0 [] (rs one_arc_sampled))).

(** [scc] about to close a component at node 1, with the nodes 2, 1 and 0
    on the stack, node 2 on top. *)
Definition stacked : scc_vars :=
  {| tvars := {| lowlink := []; index := []; pred := [];
                 visited := [0; 1; 2]; vis_stack := [2; 1; 0];
                 cur_index := 3 |};
     rng := low_draws; cur_cc := []; cur_cc_list := []; cur_num_cc := 0 |}.

(** An evaluator constructed with [R = 0]. *)
Definition no_samples : OhsakaEvaluator := new_evaluator 0 low_draws.

(** The loop of [Sampled.scc] over the arcs of [node], with the recursive
    call named. *)
Definition sampled_scc_edges
           (rec : N -> scc_vars -> Sampled.Sampler
                  -> result (scc_vars * Sampled.Sampler))
           (node : N)
  : list EdgeType -> scc_vars -> Sampled.Sampler
    -> result (scc_vars * Sampled.Sampler) :=
  fix edges (es : list EdgeType) (s : scc_vars) (sm : Sampled.Sampler)
    : result (scc_vars * Sampled.Sampler) :=
    match es with
    | [] => Ok (s, sm)
    | edge :: es' =>
        let (dice_dst, sm) := Sampled.sample_dist edge sm in
        let (dice, g') := draw (rng s) in
        let s := with_rng g' s in
        if Qlt_bool dice dice_dst then
          match find (target edge) (index (tvars s)) with
          | None =>
              '(s', sm') <-
                rec (target edge)
                    (with_tvars (set_pred (target edge) node (tvars s)) s)
                    sm ;;
              let t := tvars s' in
              edges es'
                (with_tvars
                   (set_lowlink node
                      (N.min (get 0 node (lowlink t))
                             (get 0 (target edge) (lowlink t))) t)
                   s')
                sm'
          | Some _ =>
              let t := tvars s in
              edges es'
                (with_tvars
                   (set_lowlink node
                      (N.min (get 0 node (lowlink t))
                             (get 0 (target edge) (index t))) t)
                   s)
                sm
          end
        else edges es' s sm
    end.

(** The first component of a result. *)
Definition without_sampler {T : Type} (m : result (T * Sampled.Sampler))
  : result T :=
  '(x, _) <- m ;; Ok x.

(** [advanced g sm g' sm']: from [g], [sm] to [g'], [sm'] the generator
    and the sampler have been asked equally often, and neither has been
    replaced. *)
Definition advanced (g : mt19937) (sm : Sampled.Sampler)
           (g' : mt19937) (sm' : Sampled.Sampler) : Prop :=
  draws g' = draws g /\
  Sampled.values sm' = Sampled.values sm /\
  (drawn g <= drawn g')%nat /\
  (Sampled.asked sm' + drawn g = Sampled.asked sm + drawn g')%nat.

(** [sm] is a sampler over point distributions. *)
Definition is_point (sm : Sampled.Sampler) : Prop :=
  Sampled.values sm = fun _ edge => dist edge.

(** The order of insertion, which [Ohsaka.tarjan] takes for the order of
    iteration. *)
Definition insertion_order (pred : umap N) : list (N * N) := pred.

(** Runs [main] on an argument vector whose mode is given. *)
Ltac run_main :=
  unfold Main.main, Main.benchmark, Main.spread, Main.epsgreedy,
    Main.explore, Main.real, Main.prior, Main.expgr, Main.zscore,
    Main.arg, Main.at_;
  cbn [nth_error String.eqb Ascii.eqb Bool.eqb].

(** * Proofs *)

(** ** Facts about the containers *)

Lemma mem_In (x : N) (s : uset) : mem x s = true <-> In x s.
Proof.
  unfold mem. rewrite existsb_exists. split.
  - intros [y [Hy E]]. apply N.eqb_eq in E. now subst.
  - intros H. exists x. split; [assumption | apply N.eqb_refl].
Qed.

Lemma mem_false (x : N) (s : uset) : mem x s = false <-> ~ In x s.
Proof.
  rewrite <- mem_In. destruct (mem x s); split; congruence.
Qed.

Lemma In_insert (x y : N) (s : uset) : In x (insert y s) <-> x = y \/ In x s.
Proof.
  unfold insert. destruct (mem y s) eqn:E.
  - apply mem_In in E. split; [now right | intros [-> | H]; assumption].
  - rewrite in_app_iff. simpl. intuition.
Qed.

Lemma In_erase (x y : N) (s : uset) : In x (erase y s) <-> In x s /\ x <> y.
Proof.
  unfold erase. rewrite filter_In, negb_true_iff, N.eqb_neq. intuition.
Qed.

Lemma NoDup_insert (y : N) (s : uset) : NoDup s -> NoDup (insert y s).
Proof.
  intros H. unfold insert. destruct (mem y s) eqn:E; [assumption |].
  apply mem_false in E. apply NoDup_app; auto.
  - repeat constructor. simpl. tauto.
  - intros a Ha [<- | []]. contradiction.
Qed.

Lemma length_insert (y : N) (s : uset) :
  (length (insert y s) <= S (length s))%nat.
Proof.
  unfold insert. destruct (mem y s); [lia |].
  rewrite length_app. simpl. lia.
Qed.

Lemma vec_at_set {T : Type} (v : list T) (i : nat) (x y : T) :
  vec_at v i = Ok y -> vec_at (vec_set v i x) i = Ok x.
Proof.
  unfold vec_at. revert i. induction v as [| a v IH]; intros [| i]; simpl;
    try discriminate; auto.
Qed.

Lemma vec_set_same {T : Type} (v : list T) (i : nat) (x : T) :
  vec_at v i = Ok x -> vec_set v i x = v.
Proof.
  unfold vec_at. revert i. induction v as [| a v IH]; intros [| i]; simpl;
    try discriminate.
  - now intros [= ->].
  - intros H. now rewrite IH.
Qed.

Lemma bind_Ok {T U : Type} (m : result T) (f : T -> result U) (u : U) :
  bind m f = Ok u -> exists a, m = Ok a /\ f a = Ok u.
Proof.
  destruct m; simpl; try discriminate. intros H. now exists a.
Qed.

(** ** Facts about the graph *)

Lemma has_node_remove (g : Graph) (u x : N) :
  has_node (remove_node g u) x = has_node g x && negb (x =? u).
Proof.
  unfold has_node, remove_node. simpl.
  apply eq_true_iff_eq.
  rewrite andb_true_iff, negb_true_iff, N.eqb_neq, !mem_In, In_erase.
  reflexivity.
Qed.

Lemma has_node_remove_all (desc : list N) (g : Graph) (x : N) :
  has_node (fold_left remove_node desc g) x = has_node g x && negb (mem x desc).
Proof.
  revert g. induction desc as [| u desc IH]; intros g; simpl.
  - now rewrite andb_true_r.
  - rewrite IH, has_node_remove. rewrite (N.eqb_sym x u).
    rewrite negb_orb. now rewrite andb_assoc, (N.eqb_sym u x).
Qed.

(** ** bfs with [to = false] *)

Section BfsCollect.

Variables (g : Graph) (node to_node : N) (col0 : uset).

Lemma reach_arc (u v : N) : reach g node u -> arc g u v -> reach_plus g node v.
Proof.
  intros Hu Ha. eapply clos_rt_t; [exact Hu | now apply t_step].
Qed.

Lemma reach_plus_reach (u : N) : reach_plus g node u -> reach g node u.
Proof. apply clos_t_clos_rt. Qed.

Lemma bfs_neighbours_collect (es : list EdgeType) (s : bfs_vars) :
  (forall e, In e es -> reach_plus g node (target e)) ->
  bfs_inv g node col0 s ->
  exists s', bfs_neighbours node false to_node es s = inl s' /\ bfs_inv g node col0 s'.
Proof.
  revert s. induction es as [| e es IH]; intros s Hes Hs;
    cbn [bfs_neighbours negb].
  - now exists s.
  - assert (Hes' : forall e', In e' es -> reach_plus g node (target e'))
      by (intros e' He'; apply Hes; now right).
    destruct (mem (target e) (seen s)) eqn:E; [now apply IH |].
    apply IH; [assumption |].
    destruct Hs as (Hn & Hq & Hc).
    assert (Ht : reach_plus g node (target e)) by (apply Hes; now left).
    apply mem_false in E.
    repeat split; simpl.
    + apply In_insert. now right.
    + intros x Hx. apply in_app_iff in Hx.
      destruct Hx as [Hx | [<- | []]]; [now apply Hq | now apply reach_plus_reach].
    + intros x Hx. apply In_insert in Hx. destruct Hx as [-> | Hx]; [| now apply Hc].
      right. split; [| assumption]. intros Heq. rewrite Heq in E. contradiction.
Qed.

Lemma bfs_loop_collect (fuel : nat) (s : bfs_vars) (c : uset) :
  bfs_inv g node col0 s ->
  bfs_loop fuel g node false to_node s = Ok c ->
  forall x, In x c -> In x col0 \/ (x <> node /\ reach_plus g node x).
Proof.
  revert s. induction fuel as [| fuel IH]; intros s Hs; cbn [bfs_loop];
    [discriminate |].
  destruct Hs as (Hn & Hq & Hc).
  destruct (q s) as [| cur_node q'] eqn:Eq.
  - intros [= <-]. exact Hc.
  - set (s1 := {| q := q'; seen := insert cur_node (seen s); col := col s |}).
    assert (Hs1 : bfs_inv g node col0 s1).
    { repeat split; simpl.
      - apply In_insert. now right.
      - intros x Hx. apply Hq. now right.
      - exact Hc. }
    destruct (has_neighbours g cur_node) eqn:Eh; [| now apply IH].
    destruct (bfs_neighbours_collect (get_neighbours g cur_node) s1)
      as (s2 & E2 & Hs2); [| assumption |].
    + intros e He. apply reach_arc with cur_node.
      * apply Hq. now left.
      * split; [assumption | now apply in_map].
    + rewrite E2. now apply IH.
Qed.

End BfsCollect.

Lemma bfs_collect (fuel : nat) (gs : list Graph) (i : nat) (g : Graph)
      (node to_node : N) (col0 col1 : uset) :
  vec_at gs i = Ok g ->
  bfs fuel gs node i col0 false to_node = Ok col1 ->
  forall x, In x col1 -> In x col0 \/ (x <> node /\ reach_plus g node x).
Proof.
  intros Hg. unfold bfs. rewrite Hg. simpl. apply bfs_loop_collect.
  repeat split; simpl.
  - now left.
  - intros x [<- | []]. apply rt_refl.
  - intros x Hx. now left.
Qed.

(** ** bfs returns *)

Lemma find_In {V : Type} (k : N) (m : umap V) (v : V) :
  find k m = Some v -> In (k, v) m.
Proof.
  induction m as [| [k' v'] m IH]; simpl; [discriminate |].
  destruct (k =? k') eqn:E.
  - apply N.eqb_eq in E. intros [= ->]. left. now subst.
  - intros H. right. now apply IH.
Qed.

Lemma neighbours_targets (g : Graph) (u : N) (e : EdgeType) :
  In e (get_neighbours g u) -> In (target e) (targets g).
Proof.
  unfold get_neighbours, get, targets.
  destruct (find u (adj_list g)) as [es |] eqn:E; [| intros []].
  intros He. apply in_flat_map. exists (u, es). split.
  - now apply find_In.
  - simpl. now apply in_map.
Qed.

Lemma unseen_insert_le (g : Graph) (x : N) (seen : uset) :
  (length (unseen g (insert x seen)) <= length (unseen g seen))%nat.
Proof.
  unfold unseen. induction (targets g) as [| y l IH]; simpl; [lia |].
  destruct (mem y (insert x seen)) eqn:E1, (mem y seen) eqn:E2; simpl; try lia.
  apply mem_false in E1. apply mem_In in E2.
  exfalso. apply E1, In_insert. now right.
Qed.

Lemma unseen_insert_lt (g : Graph) (x : N) (seen : uset) :
  In x (targets g) -> mem x seen = false ->
  (length (unseen g (insert x seen)) < length (unseen g seen))%nat.
Proof.
  unfold unseen. intros Hx Hs.
  induction (targets g) as [| y l IH]; simpl; [destruct Hx |].
  destruct Hx as [-> | Hx].
  - rewrite Hs. simpl.
    replace (mem x (insert x seen)) with true
      by (symmetry; apply mem_In, In_insert; now left).
    simpl. pose proof (unseen_insert_le g x seen) as Hle.
    clear IH. unfold unseen in Hle.
    assert (length (filter (fun x0 => negb (mem x0 (insert x seen))) l)
            <= length (filter (fun x0 => negb (mem x0 seen)) l))%nat; [| lia].
    clear. induction l as [| z l IH]; simpl; [lia |].
    destruct (mem z (insert x seen)) eqn:E1, (mem z seen) eqn:E2; simpl; try lia.
    apply mem_false in E1. apply mem_In in E2.
    exfalso. apply E1, In_insert. now right.
  - specialize (IH Hx).
    destruct (mem y (insert x seen)) eqn:E1, (mem y seen) eqn:E2; simpl; try lia.
    apply mem_false in E1. apply mem_In in E2.
    exfalso. apply E1, In_insert. now right.
Qed.

Section BfsReturns.

Variables (g : Graph) (node : N) (to : bool) (to_node : N).

Lemma bfs_neighbours_measure (es : list EdgeType) (s s' : bfs_vars) :
  (forall e, In e es -> In (target e) (targets g)) ->
  bfs_neighbours node to to_node es s = inl s' ->
  (bfs_measure g s' <= bfs_measure g s)%nat.
Proof.
  revert s. induction es as [| e es IH]; intros s Hes; cbn [bfs_neighbours].
  - intros [= <-]. lia.
  - assert (Hes' : forall e', In e' es -> In (target e') (targets g))
      by (intros e' He'; apply Hes; now right).
    destruct (mem (target e) (seen s)) eqn:E; [now apply IH |].
    assert (Hlt : (length (unseen g (insert (target e) (seen s)))
                   < length (unseen g (seen s)))%nat).
    { apply unseen_insert_lt; [apply Hes; now left | assumption]. }
    destruct (negb to).
    + intros H. apply IH in H; [| assumption].
      unfold bfs_measure in *. cbn [q seen] in H.
      rewrite length_app in H. simpl in H. lia.
    + destruct (target e =? to_node); [discriminate |].
      intros H. apply IH in H; [| assumption].
      unfold bfs_measure in *. cbn [q seen] in H.
      rewrite length_app in H. simpl in H. lia.
Qed.

Lemma bfs_loop_returns (fuel : nat) (s : bfs_vars) :
  (bfs_measure g s < fuel)%nat ->
  exists c, bfs_loop fuel g node to to_node s = Ok c.
Proof.
  revert s. induction fuel as [| fuel IH]; intros s Hm; [lia |].
  cbn [bfs_loop]. destruct (q s) as [| cur_node q'] eqn:Eq; [now eexists |].
  set (s1 := {| q := q'; seen := insert cur_node (seen s); col := col s |}).
  assert (H1 : (bfs_measure g s1 < fuel)%nat).
  { unfold bfs_measure in *. rewrite Eq in Hm. simpl in *.
    pose proof (unseen_insert_le g cur_node (seen s)). lia. }
  destruct (has_neighbours g cur_node); [| now apply IH].
  destruct (bfs_neighbours node to to_node (get_neighbours g cur_node) s1)
    as [s2 | c] eqn:E2; [| now eexists].
  apply IH. apply bfs_neighbours_measure in E2.
  - lia.
  - intros e. apply neighbours_targets.
Qed.

End BfsReturns.

(** [bfs] returns once the fuel exceeds the number of arcs by two. *)
Lemma bfs_returns (fuel : nat) (gs : list Graph) (i : nat) (g : Graph)
      (node to_node : N) (to : bool) (col0 : uset) :
  vec_at gs i = Ok g ->
  (S (length (targets g)) < fuel)%nat ->
  exists c, bfs fuel gs node i col0 to to_node = Ok c.
Proof.
  intros Hg Hf. unfold bfs. rewrite Hg. cbn [bind].
  apply bfs_loop_returns. unfold bfs_measure. cbn [q seen].
  assert (length (unseen g (insert node [])) <= length (targets g))%nat
    by apply filter_length_le.
  simpl in *. lia.
Qed.

Lemma reaches_removed_returns (fuel : nat) (gs : list Graph) (i : nat)
      (g : Graph) (v : N) (desc : list N) :
  vec_at gs i = Ok g ->
  (S (length (targets g)) < fuel)%nat ->
  exists b, reaches_removed fuel gs i v desc = Ok b.
Proof.
  intros Hg Hf. induction desc as [| u desc IH]; cbn [reaches_removed].
  - now eexists.
  - destruct (bfs_returns fuel gs i g v u true [] Hg Hf) as (c & ->).
    cbn [bind]. destruct (negb _); [now eexists | exact IH].
Qed.

Lemma invalidate_returns (fuel : nat) (gs : list Graph) (i : nat)
      (g : Graph) (desc : uset) (nodes : list N) (latest_i : umap bool) :
  vec_at gs i = Ok g ->
  (S (length (targets g)) < fuel)%nat ->
  exists l, invalidate fuel gs i desc nodes latest_i = Ok l.
Proof.
  intros Hg Hf. revert latest_i.
  induction nodes as [| v nodes IH]; intros latest_i; cbn [invalidate].
  - now eexists.
  - destruct (get false v latest_i); [| apply IH].
    destruct (reaches_removed_returns fuel gs i g v desc Hg Hf) as (b & ->).
    cbn [bind]. apply IH.
Qed.

Lemma update_dag_returns (fuel : nat) (i : nat) (node : N) (r : rounds)
      (cc_i : cc_map) (g : Graph) (latest_i : umap bool) :
  vec_at (cc r) i = Ok cc_i ->
  vec_at (graphs r) i = Ok g ->
  vec_at (latest r) i = Ok latest_i ->
  (S (length (targets g)) < fuel)%nat ->
  exists r', update_dag fuel i node r = Ok r'.
Proof.
  intros Hcc Hg Hl Hf. unfold update_dag. rewrite Hcc. cbn [bind].
  destruct (bfs_returns fuel (graphs r) i g (get 0 node cc_i) 0 false [] Hg Hf)
    as (desc & ->).
  cbn [bind]. rewrite Hg, Hl. cbn [bind].
  destruct (invalidate_returns fuel (graphs r) i g desc (get_nodes g) latest_i
              Hg Hf) as (l & ->).
  cbn [bind]. now eexists.
Qed.

(** ** update_dag *)

Lemma update_dag_graph (fuel : nat) (i : nat) (node : N) (r r' : rounds)
      (cc_i : cc_map) (g : Graph) :
  vec_at (cc r) i = Ok cc_i ->
  vec_at (graphs r) i = Ok g ->
  update_dag fuel i node r = Ok r' ->
  exists desc,
    bfs fuel (graphs r) (get 0 node cc_i) i [] false 0 = Ok desc /\
    vec_at (graphs r') i = Ok (fold_left remove_node desc g).
Proof.
  intros Hcc Hg. unfold update_dag. rewrite Hcc. cbn [bind].
  intros H. apply bind_Ok in H. destruct H as (desc & Hd & H).
  rewrite Hg in H. cbn [bind] in H.
  apply bind_Ok in H. destruct H as (latest_i & _ & H).
  apply bind_Ok in H. destruct H as (latest_i' & _ & H).
  injection H as <-. exists desc. split; [assumption |].
  cbn [graphs with_graphs with_latest]. now apply vec_at_set with g.
Qed.

(** C10.  With fuel above the number of arcs of [graphs[i]], [bfs] with
    [to = false] returns, and what it adds to [col] are nodes reached from
    the start node along at least one arc, never the start node.  So
    [update_dag(i, node)] returns, removes from [graphs[i]] exactly the
    nodes [bfs] collects from [t = cc[i][node]], and a [t] that is a node
    of [graphs[i]] before the call is one after it. *)
Theorem update_dag_keeps_selected (fuel : nat) (i : nat) (node : N)
        (r : rounds) (cc_i : cc_map) (g : Graph) (latest_i : umap bool) :
  vec_at (cc r) i = Ok cc_i ->
  vec_at (graphs r) i = Ok g ->
  vec_at (latest r) i = Ok latest_i ->
  (S (length (targets g)) < fuel)%nat ->
  (forall start to_node col0,
      exists col1,
        bfs fuel (graphs r) start i col0 false to_node = Ok col1 /\
        forall x, In x col1 ->
                  In x col0 \/ (x <> start /\ reach_plus g start x)) /\
  exists desc r' g',
    bfs fuel (graphs r) (get 0 node cc_i) i [] false 0 = Ok desc /\
    (forall x, In x desc ->
               x <> get 0 node cc_i /\ reach_plus g (get 0 node cc_i) x) /\
    update_dag fuel i node r = Ok r' /\
    vec_at (graphs r') i = Ok g' /\
    (forall x, has_node g' x = has_node g x && negb (mem x desc)) /\
    (has_node g (get 0 node cc_i) = true ->
     has_node g' (get 0 node cc_i) = true).
Proof.
  intros Hcc Hg Hl Hf. split.
  - intros start to_node col0.
    destruct (bfs_returns fuel (graphs r) i g start to_node false col0 Hg Hf)
      as (col1 & Hb).
    exists col1. split; [assumption |].
    exact (bfs_collect fuel (graphs r) i g start to_node col0 col1 Hg Hb).
  - destruct (update_dag_returns fuel i node r cc_i g latest_i Hcc Hg Hl Hf)
      as (r' & Hu).
    destruct (update_dag_graph fuel i node r r' cc_i g Hcc Hg Hu)
      as (desc & Hd & Hg').
    assert (Hdesc : forall x, In x desc ->
              x <> get 0 node cc_i /\ reach_plus g (get 0 node cc_i) x).
    { intros x Hx.
      destruct (bfs_collect fuel (graphs r) i g _ _ _ _ Hg Hd x Hx) as [[] | H].
      exact H. }
    exists desc, r', (fold_left remove_node desc g).
    repeat split; try assumption.
    + now apply Hdesc.
    + now apply Hdesc.
    + apply has_node_remove_all.
    + intros Ht. rewrite has_node_remove_all, Ht. simpl.
      apply negb_true_iff, mem_false. intros Hin.
      now destruct (Hdesc _ Hin).
Qed.

(** ** "Removing activated nodes" *)

Lemma remove_activated_id (activated : uset) (ccl : cc_node_map) :
  remove_activated activated ccl = ccl.
Proof.
  unfold remove_activated.
  induction activated as [| node activated IH]; simpl; [reflexivity |].
  assert (E : forall (l : cc_node_map) (c : cc_node_map),
             fold_left (fun ccl' entry =>
                          let cc_copy := erase_in_copy node entry in ccl') l c
             = c)
    by (induction l; simpl; auto).
  now rewrite E.
Qed.

(** C9. The step "Removing activated nodes" erases from copies only:
    whatever the activated set, it gives back every [cc_list[i]] as
    [tarjan] built it, so an activated node is still a member of its
    component's set afterwards (the set whose size [gain] adds up). *)
Theorem removing_activated_nodes_changes_nothing
        (fuel : nat) (graph : Graph) (activated : uset) (i : nat)
        (e e1 e2 : OhsakaEvaluator) :
  tarjan fuel graph e = Ok e1 ->
  sample fuel graph activated i e = Ok e2 ->
  (forall ccl, remove_activated activated ccl = ccl) /\
  cc_list (rs e2) = cc_list (rs e1) /\
  (forall node c ccl_i,
      In node activated ->
      vec_at (cc_list (rs e1)) i = Ok ccl_i ->
      In node (get [] c ccl_i) ->
      exists ccl_i', vec_at (cc_list (rs e2)) i = Ok ccl_i' /\
                     In node (get [] c ccl_i')).
Proof.
  intros Ht Hs.
  assert (Hcl : cc_list (rs e2) = cc_list (rs e1)).
  { unfold sample in Hs. rewrite Ht in Hs. cbn [bind] in Hs.
    repeat (apply bind_Ok in Hs; destruct Hs as (? & ? & Hs)).
    injection Hs as <-. cbn [rs cc_list].
    rewrite remove_activated_id. now apply vec_set_same. }
  split; [intros ccl; apply remove_activated_id |].
  split; [exact Hcl |].
  intros node c ccl_i _ Hv Hin. exists ccl_i. now rewrite Hcl.
Qed.

(** ** The seed set of select *)

Lemma better_fst (v : N) (a : option Q) (b : best) :
  fst (better v a b) = v \/ better v a b = b.
Proof. unfold better. destruct (float_ge a (snd b)); auto. Qed.

Lemma candidates_choice (fuel : nat) (R : N) (activated set : uset)
      (nodes : list N) (b b' : best) (r r' : rounds) :
  candidates fuel R nodes activated set b r = Ok (b', r') ->
  fst b' = fst b \/ (In (fst b') nodes /\ mem (fst b') activated = false).
Proof.
  revert b r. induction nodes as [| v nodes IH]; intros b r; cbn [candidates].
  - intros [= <- _]. now left.
  - destruct (mem v activated) eqn:E; cbn [negb].
    + intros H. apply IH in H. destruct H as [H | [H1 H2]]; [now left |].
      right. split; [now right | assumption].
    + intros H. apply bind_Ok in H. destruct H as ([tot r1] & _ & H).
      apply IH in H. destruct H as [H | [H1 H2]].
      * destruct (better_fst v (average tot R) b) as [Hb | Hb].
        -- right. rewrite H, Hb. split; [now left | assumption].
        -- left. now rewrite H, Hb.
      * right. split; [now right | assumption].
Qed.

Lemma select_step_inserts (fuel : nat) (graph : Graph) (activated : uset)
      (R : N) (set set' : uset) (r r' : rounds) :
  select_step fuel graph activated R set r = Ok (set', r') ->
  exists t, set' = insert t set /\
            (t = 0 \/ In t (non_activated graph activated)).
Proof.
  unfold select_step. intros H.
  apply bind_Ok in H. destruct H as ([b r1] & Hc & H).
  apply bind_Ok in H. destruct H as (r2 & _ & H).
  injection H as <- <-. exists (fst b). split; [reflexivity |].
  apply candidates_choice in Hc. destruct Hc as [Hc | [H1 H2]]; [now left |].
  right. unfold non_activated. apply filter_In. now rewrite H2.
Qed.

Lemma select_loop_result (fuel inner : nat) (graph : Graph) (activated : uset)
      (k R : N) (set S : uset) (r r' : rounds) :
  select_loop fuel inner graph activated k R set r = Ok (S, r') ->
  NoDup set ->
  incl set (0 :: non_activated graph activated) ->
  N.of_nat (length set) <= k ->
  NoDup S /\ incl S (0 :: non_activated graph activated) /\
  N.of_nat (length S) = k.
Proof.
  revert set r. induction fuel as [| fuel IH]; intros set r; cbn [select_loop];
    [discriminate |].
  destruct (N.of_nat (length set) <? k) eqn:E.
  - intros H Hnd Hincl _. apply bind_Ok in H. destruct H as ([set1 r1] & Hs & H).
    apply select_step_inserts in Hs. destruct Hs as (t & -> & Ht).
    apply IH in H; [assumption | now apply NoDup_insert | |].
    + intros x Hx. apply In_insert in Hx. destruct Hx as [-> | Hx]; [| now apply Hincl].
      destruct Ht as [-> | Ht]; [now left | now right].
    + apply N.ltb_lt in E. pose proof (length_insert t set). lia.
  - intros [= <- <-] Hnd Hincl Hle. apply N.ltb_ge in E.
    repeat split; try assumption. lia.
Qed.

Lemma select_result (fuel : nat) (graph : Graph) (activated : uset) (k : N)
      (e e' : OhsakaEvaluator) (S : uset) :
  select fuel graph activated k e = Ok (S, e') ->
  NoDup S /\ incl S (0 :: non_activated graph activated) /\
  N.of_nat (length S) = k.
Proof.
  unfold select. intros H.
  apply bind_Ok in H. destruct H as (e1 & _ & H).
  apply bind_Ok in H. destruct H as ([set r] & Hl & H).
  injection H as <- _.
  apply select_loop_result in Hl; [assumption | constructor | | simpl; lia].
  intros x [].
Qed.

(** With fewer than [k] distinct nodes among 0 and the candidates, no
    amount of fuel makes [select] return. *)
Lemma select_short_of_nodes (fuel : nat) (graph : Graph) (activated : uset)
      (k : N) (e : OhsakaEvaluator) :
  N.of_nat (length (nodup N.eq_dec (0 :: non_activated graph activated))) < k ->
  is_ok (select fuel graph activated k e) = false.
Proof.
  intros Hk. destruct (select fuel graph activated k e) as [[S e'] | |] eqn:E;
    try reflexivity.
  exfalso. apply select_result in E. destruct E as (Hnd & Hincl & Hlen).
  assert (length S <= length (nodup N.eq_dec (0%N :: non_activated graph activated)))%nat.
  { apply NoDup_incl_length; [assumption |].
    intros x Hx. apply nodup_In. now apply Hincl. }
  lia.
Qed.

(** ** Which candidate the scan keeps *)

Lemma candidates_averages (fuel : nat) (R : N) (activated set : uset)
      (nodes : list N) (b : best) (r : rounds) :
  candidates fuel R nodes activated set b r
  = ('(l, r') <- averages fuel R nodes activated set r ;; Ok (pick l b, r')).
Proof.
  revert b r. induction nodes as [| v nodes IH]; intros b r;
    cbn [candidates averages]; [reflexivity |].
  destruct (negb (mem v activated)); [| apply IH].
  destruct (sum_gains fuel (seq 0 (N.to_nat R)) v set 0 r) as [[tot r1] | |];
    cbn [bind]; try reflexivity.
  rewrite IH.
  destruct (averages fuel R nodes activated set r1) as [[l r2] | |];
    reflexivity.
Qed.

Lemma averages_candidates (fuel : nat) (R : N) (activated set : uset)
      (nodes : list N) (r r' : rounds) (l : list (N * option Q)) :
  R <> 0 ->
  averages fuel R nodes activated set r = Ok (l, r') ->
  map fst l = filter (fun v => negb (mem v activated)) nodes /\
  Forall (fun va => exists x, snd va = Some x /\ (0 <= x)%Q) l.
Proof.
  intros HR. revert r r' l. induction nodes as [| v nodes IH]; intros r r' l;
    cbn [averages filter].
  - intros [= <- _]. split; [reflexivity | constructor].
  - destruct (negb (mem v activated)); [| apply IH].
    intros H. apply bind_Ok in H. destruct H as ([tot r1] & _ & H).
    apply bind_Ok in H. destruct H as ([l' r2] & Ha & H).
    injection H as <- _. apply IH in Ha. destruct Ha as (Hm & Hf).
    split; [simpl; now rewrite Hm |].
    constructor; [| assumption].
    unfold average. apply N.eqb_neq in HR. rewrite HR.
    eexists. split; [reflexivity |].
    apply Qle_shift_div_l.
    + unfold Qlt. simpl. apply N.eqb_neq in HR. lia.
    + rewrite Qmult_0_l. unfold Qle. simpl. lia.
Qed.

(** The scan keeps the last of the largest averages. *)
Lemma pick_last_max (l : list (N * option Q)) (b : best) :
  (pick l b = b /\ forall v x, In (v, Some x) l -> (x < snd b)%Q) \/
  exists l1 t m l2,
    l = l1 ++ (t, Some m) :: l2 /\ pick l b = (t, m) /\ (snd b <= m)%Q /\
    (forall v x, In (v, Some x) l1 -> (x <= m)%Q) /\
    (forall v x, In (v, Some x) l2 -> (x < m)%Q).
Proof.
  revert b. induction l as [| [v a] l IH]; intros b.
  - left. split; [reflexivity | intros v x []].
  - unfold pick. cbn [fold_left fst snd]. fold (pick l (better v a b)).
    unfold better. destruct a as [x |]; cbn [float_ge].
    + destruct (Qle_bool (snd b) x) eqn:E.
      * apply Qle_bool_iff in E. right.
        destruct (IH (v, x)) as [[Hp Hl] | (l1 & t & m & l2 & -> & Hp & Hb & H1 & H2)].
        -- exists [], v, x, l. repeat split; try assumption.
           intros v' x' [].
        -- exists ((v, Some x) :: l1), t, m, l2. cbn [snd] in Hb.
           repeat split; try assumption.
           ++ now apply Qle_trans with x.
           ++ intros v' x' [[= -> ->] | Hin]; [assumption | now apply H1 with v'].
      * assert (Hlt : (x < snd b)%Q).
        { apply Qnot_le_lt. intros Hle. apply Qle_bool_iff in Hle. congruence. }
        destruct (IH b) as [[Hp Hl] | (l1 & t & m & l2 & -> & Hp & Hb & H1 & H2)].
        -- left. split; [assumption |].
           intros v' x' [[= -> ->] | Hin]; [assumption | now apply Hl with v'].
        -- right. exists ((v, Some x) :: l1), t, m, l2.
           repeat split; try assumption.
           intros v' x' [[= -> ->] | Hin]; [| now apply H1 with v'].
           apply Qlt_le_weak. now apply Qlt_le_trans with (snd b).
    + destruct (IH b) as [[Hp Hl] | (l1 & t & m & l2 & -> & Hp & Hb & H1 & H2)].
      * left. split; [assumption |].
        intros v' x' [[=] | Hin]. now apply Hl with v'.
      * right. exists ((v, None) :: l1), t, m, l2.
        repeat split; try assumption.
        intros v' x' [[=] | Hin]. now apply H1 with v'.
Qed.

(** C5, as the code has it.  In an iteration of the main loop with at least
    one candidate (and [R_ > 0]), the node inserted is a candidate whose
    averaged gain is the largest, and it is the last such candidate in the
    iteration order of [graph.get_nodes()]: every candidate before it has
    an average at most as large, every candidate after it a strictly
    smaller one. *)
Theorem select_step_keeps_last_maximum
        (fuel : nat) (graph : Graph) (activated : uset) (R : N)
        (set set' : uset) (r r' : rounds) :
  R <> 0 ->
  non_activated graph activated <> [] ->
  select_step fuel graph activated R set r = Ok (set', r') ->
  exists l r1 l1 t m l2,
    averages fuel R (get_nodes graph) activated set r = Ok (l, r1) /\
    map fst l = non_activated graph activated /\
    l = l1 ++ (t, Some m) :: l2 /\
    set' = insert t set /\
    (forall v x, In (v, Some x) l1 -> (x <= m)%Q) /\
    (forall v x, In (v, Some x) l2 -> (x < m)%Q).
Proof.
  intros HR Hne. unfold select_step. rewrite candidates_averages.
  intros H. apply bind_Ok in H. destruct H as ([b r1] & Hc & H).
  apply bind_Ok in Hc. destruct Hc as ([l r1'] & Ha & Hc).
  injection Hc as <- <-.
  apply bind_Ok in H. destruct H as (r2 & _ & H). injection H as <- <-.
  destruct (averages_candidates _ _ _ _ _ _ _ _ HR Ha) as (Hm & Hf).
  exists l, r1'.
  destruct (pick_last_max l (0, 0%Q))
    as [[Hp Hl] | (l1 & t & m & l2 & El & Hp & Hb & H1 & H2)].
  - exfalso. destruct l as [| [v a] l].
    + apply Hne. unfold non_activated. now rewrite <- Hm.
    + inversion Hf as [| ? ? (x & Hx & Hpos) _]; subst. cbn [snd] in Hx. subst a.
      specialize (Hl v x (or_introl eq_refl)). cbn [snd] in Hl.
      now apply Qlt_not_le in Hl.
  - exists l1, t, m, l2. rewrite Hp. cbn [fst]. repeat split; assumption.
Qed.

(** ** The evaluator on concrete inputs *)

(** C1.  On the graph of the file "0 1 1" with both nodes activated and
    [k = 1], no node is a candidate, [t] keeps its initial value 0, and
    [select] returns the set {0}: an activated node. *)
Theorem select_returns_activated_node :
  selected (select 50 one_arc [0; 1] 1 (new_evaluator 1 low_draws)) = Ok [0]
  /\ mem 0 [0; 1] = true.
Proof. split; vm_compute; reflexivity. Qed.

(** C2.  On the graph of the file "0 1 1" (two nodes, none activated) with
    [k = 3], every iteration of the main loop completes and inserts node 0
    again, the caches stop changing after the second iteration, and
    [select] returns for no amount of fuel. *)
Theorem select_runs_forever_when_short_of_nodes :
  samples 50 one_arc [] [0%nat] (new_evaluator 1 low_draws)
  = Ok one_arc_sampled /\
  select_step 50 one_arc [] 1 [] (rs one_arc_sampled)
  = Ok ([0], one_arc_round1) /\
  select_step 50 one_arc [] 1 [0] one_arc_round1 = Ok ([0], one_arc_round2) /\
  select_step 50 one_arc [] 1 [0] one_arc_round2 = Ok ([0], one_arc_round2) /\
  forall fuel,
    is_ok (select fuel one_arc [] 3 (new_evaluator 1 low_draws)) = false.
Proof.
  split; [vm_compute; reflexivity |].
  split; [vm_compute; reflexivity |].
  split; [vm_compute; reflexivity |].
  split; [vm_compute; reflexivity |].
  intros fuel. apply select_short_of_nodes. vm_compute. reflexivity.
Qed.

(** In whatever order the three nodes of [shortcut] are iterated, the
    graph [tarjan] builds is not the condensation: visited from node 0
    first, the three components are found and a crossing arc is missing;
    visited from node 1 or 2 first, a node reached again after its
    component was closed lowers the low-link of the node under visit (the
    test that the node reached is still on the stack is missing), nodes
    are left without a component and read as members of component 0. *)
Lemma shortcut_is_condensed_in_no_order :
  map shortcut_contracted
      [[0; 1; 2]; [0; 2; 1]; [1; 0; 2]; [1; 2; 0]; [2; 0; 1]; [2; 1; 0]]
  = [Ok (true, false); Ok (true, false); Ok (false, false);
     Ok (false, false); Ok (false, true); Ok (false, true)].
Proof. vm_compute. reflexivity. Qed.

(** C4.  On the graph of the file "0 1 1 / 0 2 1 / 1 2 1" with every arc
    live, [tarjan] puts the three nodes in three components (node 0 in
    component 2, node 2 in component 0) and builds a graph whose only arcs
    are 2 -> 1 and 1 -> 0, the arcs of the search tree.  The live arc
    0 -> 2 crosses from component 2 to component 0 and has no arc in the
    contracted graph. *)
Theorem tarjan_keeps_tree_arcs_only :
  tarjan 50 shortcut (new_evaluator 1 low_draws) = Ok shortcut_tarjan /\
  In {| target := 2; dist := 1 |} (get_neighbours shortcut 0) /\
  cc (rs shortcut_tarjan) = [[(2, 0); (1, 1); (0, 2)]] /\
  graphs (rs shortcut_tarjan) = [shortcut_dag] /\
  node_set shortcut_dag = [0; 1; 2] /\
  adj_list shortcut_dag = [(2, [{| target := 1; dist := 1 |}]);
                           (1, [{| target := 0; dist := 1 |}])] /\
  ~ arc shortcut_dag 2 0.
Proof.
  split; [vm_compute; reflexivity |].
  split; [vm_compute; auto |].
  split; [reflexivity |]. split; [reflexivity |].
  split; [reflexivity |]. split; [reflexivity |].
  intros [_ H]. vm_compute in H.
  destruct H as [H | []]. discriminate.
Qed.

(** C5, refuted.  On the graph of the file "1 0 0 / 0 2 0" no arc is live
    and the three candidates 1, 0, 2 all have the average gain 1; the node
    inserted is 2, the last in iteration order, not node 0.  Iterated in
    the opposite order 2, 0, 1 the node inserted is 1. *)
Lemma tie_not_broken_by_smallest_id :
  samples 50 dead_arcs [] [0%nat] (new_evaluator 1 low_draws)
  = Ok dead_arcs_sampled /\
  averages 50 1 (get_nodes dead_arcs) [] [] (rs dead_arcs_sampled)
  = Ok ([(1, Some 1%Q); (0, Some 1%Q); (2, Some 1%Q)], dead_arcs_round1) /\
  select_step 50 dead_arcs [] 1 [] (rs dead_arcs_sampled)
  = Ok ([2], dead_arcs_round1) /\
  selected (select 50 dead_arcs [] 1 (new_evaluator 1 low_draws)) = Ok [2] /\
  selected (select 50 dead_arcs_reversed [] 1 (new_evaluator 1 low_draws))
  = Ok [1].
Proof. repeat split; vm_compute; reflexivity. Qed.

(** One evaluator, seeded once, called twice; the graph of the file
    "0 1 0.5 / 1 0 0.5", nothing activated, [k = 1].  The first call draws
    0 and 3/4: the arc out of the node visited first is live, the other is
    not, and the call returns the node visited first.  The second call goes
    on with the same generator, draws 3/4 twice, finds no arc live and
    returns the node visited last.  This is so in either iteration order
    of the two nodes. *)
Lemma second_call_differs :
  select 50 two_way [] 1 (new_evaluator 1 low_then_high)
  = Ok ([0], two_way_after_call) /\
  selected (select 50 two_way [] 1 two_way_after_call) = Ok [1] /\
  select 50 two_way_reversed [] 1 (new_evaluator 1 low_then_high)
  = Ok ([1], two_way_reversed_after_call) /\
  selected (select 50 two_way_reversed [] 1 two_way_reversed_after_call)
  = Ok [0].
Proof. repeat split; vm_compute; reflexivity. Qed.

(** With node 1 activated, the gain of node 0 on [one_arc] is still 2: the
    component of node 1 is counted with its activated member. *)
Lemma gain_counts_activated_node :
  sample 50 one_arc [1] 0 (new_evaluator 1 low_draws) = Ok one_arc_sampled_1 /\
  averages 50 1 (get_nodes one_arc) [1] [] (rs one_arc_sampled_1)
  = Ok ([(0, Some 2%Q)],
        with_delta [[(0, 0); (1, 2)]]
          (with_latest [[(0, false); (1, true)]] (rs one_arc_sampled_1))).
Proof. split; vm_compute; reflexivity. Qed.

(** ** Instances *)

Lemma update_dag_keeps_selected_witness :
  vec_at (cc (rs one_arc_sampled)) 0 = Ok [(1, 0); (0, 1)] /\
  vec_at (graphs (rs one_arc_sampled)) 0 = Ok one_arc_dag /\
  vec_at (latest (rs one_arc_sampled)) 0 = Ok [(0, false); (1, false)] /\
  (S (length (targets one_arc_dag)) < 50)%nat /\
  exists desc r' g',
    bfs 50 (graphs (rs one_arc_sampled)) 1 0 [] false 0 = Ok desc /\
    (forall x, In x desc -> x <> 1 /\ reach_plus one_arc_dag 1 x) /\
    update_dag 50 0 0 (rs one_arc_sampled) = Ok r' /\
    vec_at (graphs r') 0 = Ok g' /\
    has_node g' 1 = true.
Proof.
  assert (H1 : vec_at (cc (rs one_arc_sampled)) 0 = Ok [(1, 0); (0, 1)])
    by reflexivity.
  assert (H2 : vec_at (graphs (rs one_arc_sampled)) 0 = Ok one_arc_dag)
    by reflexivity.
  assert (H3 : vec_at (latest (rs one_arc_sampled)) 0
               = Ok [(0, false); (1, false)]) by reflexivity.
  assert (H4 : (S (length (targets one_arc_dag)) < 50)%nat)
    by (vm_compute; lia).
  split; [exact H1 |]. split; [exact H2 |]. split; [exact H3 |].
  split; [exact H4 |].
  destruct (update_dag_keeps_selected 50 0 0 (rs one_arc_sampled) _ _ _
              H1 H2 H3 H4) as (_ & desc & r' & g' & Hb & Hd & Hu & Hg & _ & Hk).
  exists desc, r', g'. repeat split; try assumption.
  - now apply Hd.
  - now apply Hd.
  - apply Hk. reflexivity.
Defined.

Lemma removing_activated_nodes_changes_nothing_witness :
  tarjan 50 one_arc (new_evaluator 1 low_draws) = Ok one_arc_tarjan /\
  sample 50 one_arc [1] 0 (new_evaluator 1 low_draws) = Ok one_arc_sampled_1 /\
  cc_list (rs one_arc_sampled_1) = cc_list (rs one_arc_tarjan) /\
  exists ccl_i', vec_at (cc_list (rs one_arc_sampled_1)) 0 = Ok ccl_i' /\
                 In 1 (get [] 0 ccl_i').
Proof.
  assert (H1 : tarjan 50 one_arc (new_evaluator 1 low_draws)
               = Ok one_arc_tarjan) by (vm_compute; reflexivity).
  assert (H2 : sample 50 one_arc [1] 0 (new_evaluator 1 low_draws)
               = Ok one_arc_sampled_1) by (vm_compute; reflexivity).
  split; [exact H1 |]. split; [exact H2 |].
  destruct (removing_activated_nodes_changes_nothing
              50 one_arc [1] 0 _ _ _ H1 H2) as (_ & Hc & Hm).
  split; [exact Hc |].
  apply (Hm 1 0 [(0, [1]); (1, [0])]).
  - simpl. auto.
  - reflexivity.
  - simpl. auto.
Defined.

Lemma select_step_keeps_last_maximum_witness :
  (1 <> 0) /\
  non_activated dead_arcs [] <> [] /\
  select_step 50 dead_arcs [] 1 [] (rs dead_arcs_sampled)
  = Ok ([2], dead_arcs_round1) /\
  exists l r1 l1 t m l2,
    averages 50 1 (get_nodes dead_arcs) [] [] (rs dead_arcs_sampled)
    = Ok (l, r1) /\
    map fst l = non_activated dead_arcs [] /\
    l = l1 ++ (t, Some m) :: l2 /\
    [2] = insert t [] /\
    (forall v x, In (v, Some x) l1 -> (x <= m)%Q) /\
    (forall v x, In (v, Some x) l2 -> (x < m)%Q).
Proof.
  assert (H1 : 1 <> 0) by lia.
  assert (H2 : non_activated dead_arcs [] <> []) by (vm_compute; discriminate).
  assert (H3 : select_step 50 dead_arcs [] 1 [] (rs dead_arcs_sampled)
               = Ok ([2], dead_arcs_round1)) by (vm_compute; reflexivity).
  split; [exact H1 |]. split; [exact H2 |]. split; [exact H3 |].
  exact (select_step_keeps_last_maximum 50 dead_arcs [] 1 [] [2]
           (rs dead_arcs_sampled) dead_arcs_round1 H1 H2 H3).
Defined.

(** ** main.cpp *)

(** *** The graph loaders *)

Section Loader.

Import String Ascii Main MainSpec.
Local Open Scope string_scope.

Lemma take_digits_length (s : string) :
  (length (snd (take_digits s)) + Decimal.nb_digits (fst (take_digits s)))%nat
  = length s.
Proof.
  induction s as [| c s IH]; [reflexivity |].
  cbn [take_digits]. destruct (digit_char c) as [d |] eqn:E.
  - destruct (take_digits s) as [u rest]. cbn [fst snd length] in *.
    assert (Hd : Decimal.nb_digits (d u) = S (Decimal.nb_digits u)).
    { unfold digit_char in E.
      repeat match type of E with
             | match ?x with _ => _ end = _ => destruct x
             end; try discriminate; injection E as <-; reflexivity. }
    rewrite Hd. lia.
  - cbn. lia.
Qed.

Lemma take_digits_shorter (s : string) (u : Decimal.uint) (rest : string) :
  take_digits s = (u, rest) ->
  (length rest <= length s)%nat /\
  (no_digit u = false -> (length rest < length s)%nat).
Proof.
  intros E. pose proof (take_digits_length s) as H. rewrite E in H.
  cbn [fst snd] in H. split; [lia |].
  intros Hu. destruct u; cbn in Hu, H; try discriminate; lia.
Qed.

Lemma skip_spaces_shorter (s : string) :
  (length (skip_spaces s) <= length s)%nat.
Proof.
  induction s as [| c s IH]; cbn [skip_spaces length]; [lia |].
  destruct (is_space c); cbn [length]; lia.
Qed.

Lemma take_sign_shorter (s : string) (neg : bool) (rest : string) :
  take_sign s = (neg, rest) -> (length rest <= length s)%nat.
Proof.
  unfold take_sign. destruct s as [| c s]; [intros [= <- <-]; lia |].
  destruct (Ascii.eqb_spec c "-") as [-> | H1]; [intros [= <- <-]; cbn; lia |].
  destruct (Ascii.eqb_spec c "+") as [-> | H2]; [intros [= <- <-]; cbn; lia |].
  intros H.
  assert (E : (neg, rest) = (false, String c s)).
  { rewrite <- H. destruct c as [[] [] [] [] [] [] [] []]; try reflexivity;
      congruence. }
  injection E as -> ->. lia.
Qed.

Lemma extract_ulong_shorter (s : string) (n : N) (rest : string) :
  extract_ulong s = Some (n, rest) -> (length rest < length s)%nat.
Proof.
  unfold extract_ulong.
  destruct (take_sign (skip_spaces s)) as [neg s1] eqn:E1.
  destruct (take_digits s1) as [u r] eqn:E2.
  destruct (no_digit u) eqn:Eu; [discriminate |].
  destruct (N.of_uint u <? 2 ^ 64)%N; [| discriminate].
  intros [= _ <-].
  apply take_sign_shorter in E1. apply take_digits_shorter in E2.
  pose proof (skip_spaces_shorter s). destruct E2 as [_ E2].
  specialize (E2 Eu). lia.
Qed.

Lemma take_exponent_shorter (s : string) (ex : option (bool * Decimal.uint))
      (rest : string) :
  take_exponent s = (ex, rest) -> (length rest <= length s)%nat.
Proof.
  unfold take_exponent. destruct s as [| c s]; [intros [= <- <-]; lia |].
  destruct ((c =? "e")%char || (c =? "E")%char).
  - destruct (take_sign s) as [eneg s1] eqn:E1.
    destruct (take_digits s1) as [ed s2] eqn:E2. intros [= <- <-].
    apply take_sign_shorter in E1. apply take_digits_shorter in E2.
    cbn [length]. lia.
  - intros [= <- <-]. lia.
Qed.

Lemma extract_double_shorter (s : string) (x : Q) (rest : string) :
  extract_double s = Some (x, rest) -> (length rest < length s)%nat.
Proof.
  unfold extract_double.
  destruct (take_sign (skip_spaces s)) as [neg s1] eqn:E1.
  destruct (take_digits s1) as [ip s2] eqn:E2.
  pose proof (skip_spaces_shorter s) as H0.
  apply take_sign_shorter in E1. apply take_digits_shorter in E2.
  destruct E2 as [L2 N2].
  assert (Hf : forall fp s3,
             match s2 with
             | String "." s' => take_digits s'
             | _ => (Decimal.Nil, s2)
             end = (fp, s3) ->
             (length s3 <= length s2)%nat /\
             (no_digit fp = false -> (length s3 < length s2)%nat)).
  { intros fp s3 E. destruct s2 as [| c s2'].
    - injection E as <- <-. split; [lia | discriminate].
    - destruct (Ascii.eqb_spec c ".") as [-> | Hc].
      + apply take_digits_shorter in E. cbn [length]. destruct E as [E E'].
        split; [lia |]. intros Hn. specialize (E' Hn). lia.
      + assert (E' : (fp, s3) = (Decimal.Nil, String c s2')).
        { rewrite <- E. destruct c as [[] [] [] [] [] [] [] []];
            try reflexivity; congruence. }
        injection E' as -> ->. split; [lia | discriminate]. }
  destruct (match s2 with String "." s' => take_digits s' | _ => (Decimal.Nil, s2) end)
    as [fp s3] eqn:E3.
  destruct (Hf fp s3 eq_refl) as [L3 N3].
  destruct (no_digit ip && no_digit fp) eqn:En; [discriminate |].
  destruct (take_exponent s3) as [ex r] eqn:E4.
  apply take_exponent_shorter in E4.
  assert (Hlt : (length s3 < length s)%nat).
  { apply andb_false_iff in En. destruct En as [En | En].
    - specialize (N2 En). lia.
    - specialize (N3 En). lia. }
  intros H.
  assert (Hr : rest = r).
  { destruct ex as [[eneg ed] |].
    - destruct ed; try discriminate;
        destruct (Qle_bool huge _); try discriminate; now injection H.
    - destruct (Qle_bool huge _); try discriminate; now injection H. }
  subst r. lia.
Qed.

Lemma extract_triple_shorter (s : string) (e : N * N * Q) (rest : string) :
  extract_triple s = Some (e, rest) -> (length rest < length s)%nat.
Proof.
  unfold extract_triple.
  destruct (extract_ulong s) as [[src s1] |] eqn:E1; [| discriminate].
  destruct (extract_ulong s1) as [[tgt s2] |] eqn:E2; [| discriminate].
  destruct (extract_double s2) as [[prob s3] |] eqn:E3; [| discriminate].
  intros [= _ <-].
  apply extract_ulong_shorter in E1, E2. apply extract_double_shorter in E3.
  lia.
Qed.

Lemma read_loop_fuel (fuel1 fuel2 : nat) (s : string) :
  (length s <= fuel1)%nat -> (length s <= fuel2)%nat ->
  read_loop fuel1 s = read_loop fuel2 s.
Proof.
  revert fuel2 s. induction fuel1 as [| fuel1 IH]; intros fuel2 s H1 H2.
  - destruct s; [| cbn in H1; lia]. destruct fuel2; reflexivity.
  - destruct fuel2 as [| fuel2].
    + destruct s; [| cbn in H2; lia]. reflexivity.
    + cbn [read_loop].
      destruct (extract_triple s) as [[[[src tgt] prob] rest] |] eqn:E;
        [| reflexivity].
      apply extract_triple_shorter in E. f_equal. apply IH; lia.
Qed.

(** The loop of the loaders, turn by turn: the length of the file is fuel
    enough. *)
Lemma read_edges_step (file : string) :
  read_edges file
  = match extract_triple file with
    | Some (src, tgt, prob, rest) => (src, tgt, prob) :: read_edges rest
    | None => []%list
    end.
Proof.
  unfold read_edges. destruct file as [| c s]; [reflexivity |].
  cbn [length read_loop].
  destruct (extract_triple (String c s)) as [[[[src tgt] prob] rest] |] eqn:E;
    [| reflexivity].
  apply extract_triple_shorter in E. cbn [length] in E.
  f_equal. apply read_loop_fuel; lia.
Qed.

Lemma extract_ulong_space (c : ascii) (s : string) :
  is_space c = true -> extract_ulong (String c s) = extract_ulong s.
Proof. intros H. unfold extract_ulong. cbn [skip_spaces]. now rewrite H. Qed.

Lemma read_edges_space (c : ascii) (s : string) :
  is_space c = true -> read_edges (String c s) = read_edges s.
Proof.
  intros H. rewrite (read_edges_step (String c s)), (read_edges_step s).
  unfold extract_triple. now rewrite extract_ulong_space.
Qed.

(** *** Reading back what was written *)

Lemma take_digits_text (u : Decimal.uint) (c : ascii) (s : string) :
  digit_char c = None ->
  take_digits (digits_text u ++ String c s) = (u, String c s).
Proof.
  intros Hc. unfold digits_text.
  induction u; cbn [DecimalString.NilEmpty.string_of_uint append take_digits];
    try (cbn [digit_char]; rewrite IHu; reflexivity).
  now rewrite Hc.
Qed.

Lemma digits_text_head (u : Decimal.uint) (s : string) :
  no_digit u = false ->
  exists d f s', digits_text u ++ s = String d s' /\
                 digit_char d = Some f.
Proof.
  unfold digits_text.
  destruct u; [discriminate | ..]; intros _;
    cbn [DecimalString.NilEmpty.string_of_uint append];
    do 3 eexists; (split; [reflexivity | reflexivity]).
Qed.

Lemma digit_no_space_no_sign (d : ascii) (f : Decimal.uint -> Decimal.uint) (s : string) :
  digit_char d = Some f ->
  skip_spaces (String d s) = String d s /\
  take_sign (String d s) = (false, String d s).
Proof.
  destruct d as [[] [] [] [] [] [] [] []]; try discriminate;
    intros _; split; reflexivity.
Qed.

Lemma to_uint_digit (n : N) : no_digit (N.to_uint n) = false.
Proof.
  destruct n as [| p]; [reflexivity |]. cbn [N.to_uint].
  pose proof (DecimalPos.Unsigned.to_uint_nonnil p) as H.
  destruct (Pos.to_uint p); [congruence | reflexivity ..].
Qed.

Lemma extract_ulong_text (n : N) (c : ascii) (s : string) :
  (n < 2 ^ 64)%N -> digit_char c = None ->
  extract_ulong (number_text n ++ String c s) = Some (n, String c s).
Proof.
  intros Hn Hc. unfold extract_ulong, number_text.
  destruct (digits_text_head (N.to_uint n) (String c s) (to_uint_digit n))
    as (d & f & s' & E & Hd).
  destruct (digit_no_space_no_sign d f s' Hd) as [E1 E2].
  rewrite E, E1, E2, <- E, (take_digits_text _ _ _ Hc), to_uint_digit.
  rewrite DecimalN.Unsigned.of_to.
  apply N.ltb_lt in Hn. now rewrite Hn.
Qed.

Lemma append_assoc (a b c : string) : (a ++ b) ++ c = a ++ b ++ c.
Proof. induction a as [| x a IH]; cbn [append]; [reflexivity | now rewrite IH]. Qed.

Lemma extract_ulong_space_text (n : N) (c : ascii) (s : string) :
  (n < 2 ^ 64)%N -> digit_char c = None ->
  extract_ulong (String " " (number_text n ++ String c s))
  = Some (n, String c s).
Proof.
  intros Hn Hc. rewrite extract_ulong_space by reflexivity.
  now apply extract_ulong_text.
Qed.

Lemma extract_double_text (p : numeral) (s : string) :
  Qle_bool huge (mantissa (N.to_uint (int_part p)) (frac_part p)) = false ->
  extract_double (String " " (numeral_text p ++ newline ++ s))
  = Some (numeral_value p, newline ++ s).
Proof.
  intros Hfit. unfold extract_double. cbn [skip_spaces].
  change (is_space " ") with true. cbv iota.
  unfold numeral_text, numeral_value, number_text.
  rewrite !append_assoc.
  set (tail := (if no_digit (frac_part p) then EmptyString
                else "." ++ digits_text (frac_part p)) ++ newline ++ s).
  assert (Hsign :
            take_sign
              (skip_spaces
                 ((if minus p then "-" else EmptyString)
                  ++ digits_text (N.to_uint (int_part p)) ++ tail))
            = (minus p, digits_text (N.to_uint (int_part p)) ++ tail)).
  { destruct (minus p); [reflexivity |]. cbn [append].
    destruct (digits_text_head (N.to_uint (int_part p)) tail
                (to_uint_digit _)) as (d & f & s' & E & Hd).
    destruct (digit_no_space_no_sign d f s' Hd) as [E1 E2].
    now rewrite E, E1, E2. }
  rewrite Hsign.
  assert (Htail : exists c t, tail = String c t /\ digit_char c = None /\
                  match tail with
                  | String "." s' => take_digits s'
                  | _ => (Decimal.Nil, tail)
                  end = (frac_part p, newline ++ s)).
  { subst tail. destruct (frac_part p) eqn:Ef; cbn [no_digit append];
      try (eexists _, _; split; [reflexivity |]; split; [reflexivity |];
           rewrite <- Ef; apply take_digits_text; reflexivity).
    eexists _, _. split; [reflexivity |]. split; reflexivity. }
  destruct Htail as (c & t & Et & Hc & Hfrac).
  clearbody tail. subst tail.
  rewrite (take_digits_text _ _ _ Hc).
  cbv beta iota in Hfrac |- *. rewrite Hfrac.
  rewrite to_uint_digit. cbn [andb].
  change (take_exponent (newline ++ s)) with (@None (bool * Decimal.uint), newline ++ s).
  cbn [scale]. rewrite Hfit. reflexivity.
Qed.

Lemma extract_triple_line (w : N * N * numeral) (s : string) :
  fits w ->
  extract_triple (line w ++ s)
  = Some (fst (fst w), snd (fst w), numeral_value (snd w), newline ++ s).
Proof.
  destruct w as [[src tgt] p]. intros (Hs & Ht & Hp). cbn [fst snd] in *.
  unfold extract_triple, line. rewrite !append_assoc.
  cbn [append].
  rewrite (extract_ulong_text src " " _ Hs eq_refl).
  rewrite (extract_ulong_space_text tgt " " _ Ht eq_refl).
  change (String " " (numeral_text p ++ newline ++ s))
    with (String " " (numeral_text p ++ newline ++ s)).
  now rewrite (extract_double_text p s Hp).
Qed.

Lemma read_edges_text (ws : list (N * N * numeral)) (rest : string) :
  Forall fits ws ->
  read_edges (text ws ++ rest) = (edges ws ++ read_edges rest)%list.
Proof.
  induction 1 as [| w ws Hw _ IH]; [reflexivity |].
  cbn [text fold_right edges map]. fold (text ws). fold (edges ws).
  rewrite append_assoc, read_edges_step, (extract_triple_line _ _ Hw).
  destruct w as [[src tgt] p]. cbn [fst snd List.app].
  change (newline ++ ?x) with (String (ascii_of_nat 10) x).
  rewrite read_edges_space by reflexivity. now rewrite IH.
Qed.

Lemma read_edges_stops (rest : string) :
  extract_triple rest = None -> read_edges rest = []%list.
Proof. intros H. now rewrite read_edges_step, H. Qed.

End Loader.

Section MainFacts.

Import String Main MainSpec.
Local Open Scope string_scope.

Lemma main_reads_edges_only (file file' : string) (argv : list string) :
  read_edges file = read_edges file' -> main file argv = main file' argv.
Proof.
  intros E. unfold main, benchmark, spread, epsgreedy, explore, real, prior,
    expgr, zscore. now rewrite E.
Qed.

Lemma exit_ignores_file (file file' : string) (argv : list string)
      (code : Z) (cerr : string) :
  main file argv = Exits code cerr -> main file' argv = Exits code cerr.
Proof.
  unfold main, benchmark, spread, epsgreedy, explore, real, prior, expgr,
    zscore, arg, at_.
  repeat match goal with
         | |- context [match ?x with _ => _ end] => destruct x
         end; try discriminate; auto.
Qed.

(** C7, as the code has it.  The loaders are the bare loop
    [while (file >> src >> tgt >> prob)]: a file written line by line is
    loaded arc by arc whatever the probabilities are, and the loader goes
    on with what follows; it stops at the first triple that does not
    extract, or at the end of the file, and the program then goes on as it
    does on the file cut there.  This is so for every file, and if a run
    ends in [exit] it does so whatever the file holds. *)
Theorem loading_is_never_fatal
        (ws : list (N * N * numeral)) (rest : string) (argv : list string) :
  Forall fits ws ->
  read_edges (text ws ++ rest) = (edges ws ++ read_edges rest)%list /\
  (extract_triple rest = None ->
   read_edges (text ws ++ rest) = edges ws /\
   main (text ws ++ rest) argv = main (text ws) argv) /\
  (forall file,
      read_edges file
      = match extract_triple file with
        | Some (src, tgt, prob, file') => (src, tgt, prob) :: read_edges file'
        | None => []%list
        end) /\
  (forall file code cerr,
      main file argv = Exits code cerr ->
      forall file', main file' argv = Exits code cerr).
Proof.
  intros Hws.
  split; [now apply read_edges_text |].
  split; [| split; [exact read_edges_step |]].
  - intros Hrest.
    assert (E : read_edges (text ws ++ rest) = edges ws).
    { rewrite read_edges_text by assumption.
      rewrite read_edges_stops by assumption. apply app_nil_r. }
    split; [exact E |].
    apply main_reads_edges_only. rewrite E.
    assert (E0 : text ws = text ws ++ EmptyString).
    { clear. induction (text ws) as [| c s IH]; cbn [append];
        [reflexivity | now rewrite <- IH]. }
    rewrite E0, read_edges_text by assumption.
    change (read_edges EmptyString) with (@nil (N * N * Q)). now rewrite app_nil_r.
  - intros file code cerr H file'. now apply exit_ignores_file with file.
Qed.

End MainFacts.

Section MainModes.

Import String Main MainSpec.
Local Open Scope string_scope.

Lemma index_table_small (i : N) (e : Evaluator) :
  index_table i = Some e ->
  i = 0%N \/ i = 1%N \/ i = 2%N \/ i = 3%N \/ i = 4%N.
Proof.
  destruct i as [| [[[] | [] |] | [[] | [] |] |]]; cbn; intros H;
    try discriminate; auto 6.
Qed.

(** The tables of the modes, as the code has them (C3).  In the modes
    real, prior, egreedy, eg and zsc an index in range selects by the table
    0=CELF, 1=Random, 2=DiscountDegree, 3=TIM, with 4=HighestDegree in real
    only; the mode explore has a table of its own: 0=Random,
    1=DiscountDegree, 2=CELF, 3=TIM. *)
Theorem evaluator_tables
        (file : string) (prog g al be b kk eps idx idx' : string)
        (opt : list string) :
  (forall e, index_table (to_unsigned (atoi idx)) = Some e ->
     chosen (main file (prog :: "--real" :: g :: idx :: b :: kk :: opt))
     = [e]%list) /\
  (forall e, (to_unsigned (atoi idx) < 4)%N ->
     index_table (to_unsigned (atoi idx)) = Some e ->
     chosen (main file (prog :: "--prior" :: g :: al :: be :: idx :: b :: kk
                             :: opt)) = [e]%list /\
     chosen (main file (prog :: "--eg" :: g :: al :: be :: idx :: b :: kk
                             :: opt)) = [e]%list /\
     chosen (main file (prog :: "--zsc" :: g :: al :: be :: idx :: b :: kk
                             :: opt)) = [e]%list) /\
  (forall e1 e2, (to_unsigned (atoi idx) < 4)%N ->
     (to_unsigned (atoi idx') < 4)%N ->
     index_table (to_unsigned (atoi idx)) = Some e1 ->
     index_table (to_unsigned (atoi idx')) = Some e2 ->
     chosen (main file (prog :: "--egreedy" :: g :: al :: be :: idx :: idx'
                             :: b :: kk :: eps :: opt)) = [e2; e1]%list) /\
  ((to_unsigned (atoi idx) < 4)%N ->
   chosen (main file (prog :: "--explore" :: g :: al :: be :: idx :: b :: kk
                           :: opt))
   = let e := match to_unsigned (atoi idx) with
              | 0%N => RandomEvaluator
              | 1%N => DiscountDegreeEvaluator
              | 2%N => CELFEvaluator
              | _ => TIMEvaluator
              end in [e; e]%list).
Proof.
  split; [| split; [| split]].
  - intros e H. run_main. revert H.
    generalize (to_unsigned (atoi idx)) as i. intros i H.
    destruct (index_table_small i e H) as [-> | [-> | [-> | [-> | ->]]]];
      injection H as <-; reflexivity.
  - intros e Hi H. run_main. revert Hi H.
    generalize (to_unsigned (atoi idx)) as i. intros i Hi H.
    destruct (index_table_small i e H) as [-> | [-> | [-> | [-> | ->]]]];
      try lia; injection H as <-; repeat split; reflexivity.
  - intros e1 e2 Hi Hj H1 H2. run_main. revert Hi Hj H1 H2.
    generalize (to_unsigned (atoi idx)) as i.
    generalize (to_unsigned (atoi idx')) as j. intros j i Hi Hj H1 H2.
    destruct (index_table_small i e1 H1) as [-> | [-> | [-> | [-> | ->]]]];
      try lia; injection H1 as <-;
      destruct (index_table_small j e2 H2) as [-> | [-> | [-> | [-> | ->]]]];
      try lia; injection H2 as <-; reflexivity.
  - intros Hi. run_main. revert Hi.
    generalize (to_unsigned (atoi idx)) as i. intros i Hi.
    assert (H : i = 0%N \/ i = 1%N \/ i = 2%N \/ i = 3%N) by lia.
    destruct H as [-> | [-> | [-> | ->]]]; reflexivity.
Qed.

(** C3.  In the mode explore the indices 0, 1 and 2 select the Random,
    the DiscountDegree and the CELF evaluator, where the table says CELF,
    Random and DiscountDegree; only index 3 agrees with it.  The mode
    egreedy, which takes an explore index too, selects CELF for index 0,
    as the table says. *)
Lemma explore_index_0_is_random :
  chosen (main empty_file (explore_args "0" "1" "1"))
  = [RandomEvaluator; RandomEvaluator]%list
  /\ index_table 0 = Some CELFEvaluator
  /\ chosen (main empty_file (explore_args "1" "1" "1"))
     = [DiscountDegreeEvaluator; DiscountDegreeEvaluator]%list
  /\ index_table 1 = Some RandomEvaluator
  /\ chosen (main empty_file (explore_args "2" "1" "1"))
     = [CELFEvaluator; CELFEvaluator]%list
  /\ index_table 2 = Some DiscountDegreeEvaluator
  /\ chosen (main empty_file (explore_args "3" "1" "1"))
     = [TIMEvaluator; TIMEvaluator]%list
  /\ index_table 3 = Some TIMEvaluator
  /\ chosen (main empty_file
               ["oim"; "--egreedy"; "graph.txt"; "1"; "1"; "3"; "0"; "1"; "1";
                "0.1"]%list)
     = [CELFEvaluator; TIMEvaluator]%list.
Proof. repeat split; reflexivity. Qed.

(** C8, as the code has it.  The mode eg checks its evaluator index: outside
    0..3 the program writes "Error: `exploit` must be in range 0..3" and
    exits with code 1.  No mode checks the budget or k: with an evaluator
    index in range, each mode reaches [strategy.perform] with whatever
    [atoi] made of the two arguments, converted to [unsigned int]. *)
Theorem only_eg_validates_and_only_the_index
        (file : string) (prog g al be b kk eps idx idx' : string)
        (opt : list string) :
  ((3 < to_unsigned (atoi idx))%N ->
   main file (prog :: "--eg" :: g :: al :: be :: idx :: b :: kk :: opt)
   = Exits 1 "Error: `exploit` must be in range 0..3") /\
  (forall e, nth_error real_evals (N.to_nat (to_unsigned (atoi idx))) = Some e ->
     main file (prog :: "--real" :: g :: idx :: b :: kk :: opt)
     = Performs {| strategy := OriginalGraphStrategy;
                   edges_loaded := read_edges file;
                   evaluators := [e]%list;
                   budget := to_unsigned (atoi b);
                   k := to_unsigned (atoi kk) |}) /\
  (forall e, nth_error prior_evals (N.to_nat (to_unsigned (atoi idx))) = Some e ->
     main file (prog :: "--prior" :: g :: al :: be :: idx :: b :: kk :: opt)
     = Performs {| strategy := OriginalGraphStrategy;
                   edges_loaded := read_edges file;
                   evaluators := [e]%list;
                   budget := to_unsigned (atoi b);
                   k := to_unsigned (atoi kk) |}) /\
  (forall e, nth_error explore_evals (N.to_nat (to_unsigned (atoi idx))) = Some e ->
     main file (prog :: "--explore" :: g :: al :: be :: idx :: b :: kk :: opt)
     = Performs {| strategy := EpsilonGreedyStrategy;
                   edges_loaded := read_edges file;
                   evaluators := [e; e]%list;
                   budget := to_unsigned (atoi b);
                   k := to_unsigned (atoi kk) |}) /\
  (forall e1 e2,
     nth_error epsgreedy_evals (N.to_nat (to_unsigned (atoi idx))) = Some e1 ->
     nth_error epsgreedy_evals (N.to_nat (to_unsigned (atoi idx'))) = Some e2 ->
     main file (prog :: "--egreedy" :: g :: al :: be :: idx :: idx' :: b :: kk
                     :: eps :: opt)
     = Performs {| strategy := EpsilonGreedyStrategy;
                   edges_loaded := read_edges file;
                   evaluators := [e2; e1]%list;
                   budget := to_unsigned (atoi b);
                   k := to_unsigned (atoi kk) |}) /\
  (forall e, expgr_evaluator (to_unsigned (atoi idx)) = Some e ->
     main file (prog :: "--eg" :: g :: al :: be :: idx :: b :: kk :: opt)
     = Performs {| strategy := ExponentiatedGradientStrategy;
                   edges_loaded := read_edges file;
                   evaluators := [e]%list;
                   budget := to_unsigned (atoi b);
                   k := to_unsigned (atoi kk) |}) /\
  (forall e, nth_error zscore_evals (N.to_nat (to_unsigned (atoi idx))) = Some e ->
     main file (prog :: "--zsc" :: g :: al :: be :: idx :: b :: kk :: opt)
     = Performs {| strategy := ZScoresStrategy;
                   edges_loaded := read_edges file;
                   evaluators := [e]%list;
                   budget := to_unsigned (atoi b);
                   k := to_unsigned (atoi kk) |}).
Proof.
  repeat split.
  - intros H. run_main. unfold expgr_evaluator.
    destruct (N.eqb_spec (to_unsigned (atoi idx)) 0); [lia |].
    destruct (N.eqb_spec (to_unsigned (atoi idx)) 1); [lia |].
    destruct (N.eqb_spec (to_unsigned (atoi idx)) 2); [lia |].
    destruct (N.eqb_spec (to_unsigned (atoi idx)) 3); [lia |].
    reflexivity.
  - intros e H. run_main. now rewrite H.
  - intros e H. run_main. now rewrite H.
  - intros e H. run_main. now rewrite H.
  - intros e1 e2 H1 H2. run_main. now rewrite H2, H1.
  - intros e H. run_main. now rewrite H.
  - intros e H. run_main. now rewrite H.
Qed.

(** C8, refuted.  In the mode real a budget of 0 and a [k] of 0 reach
    [strategy.perform]; so do "-1" and "-1", as 4294967295; and the index 7,
    which is out of range, ends the run by the exception of [evals.at], not
    by an exit with code 1. *)
Lemma invalid_configuration_is_not_rejected :
  main empty_file (real_args "0" "0" "0")
  = Performs {| strategy := OriginalGraphStrategy; edges_loaded := []%list;
                evaluators := [CELFEvaluator]%list;
                budget := 0; k := 0 |} /\
  main empty_file (real_args "0" "-1" "-1")
  = Performs {| strategy := OriginalGraphStrategy; edges_loaded := []%list;
                evaluators := [CELFEvaluator]%list;
                budget := 4294967295; k := 4294967295 |} /\
  main empty_file (real_args "7" "1" "1") = Throws_out_of_range.
Proof. repeat split; vm_compute; reflexivity. Qed.

(** C7, refuted.  A file whose third field is a word, a file whose
    probability is 1.5, a file whose probability is -0.5 and the empty
    file: on each the mode real reaches [strategy.perform], with no arc,
    with the arc of probability 1.5, with the arc of probability -0.5, and
    with no arc; the mode benchmark reports "0 nodes, 0 edges" on the
    first and goes on. *)
Lemma malformed_files_are_loaded :
  main "0 1 abc" (real_args "0" "1" "1")
  = Performs {| strategy := OriginalGraphStrategy; edges_loaded := []%list;
                evaluators := [CELFEvaluator]%list;
                budget := 1; k := 1 |} /\
  main "0 1 1.5" (real_args "0" "1" "1")
  = Performs {| strategy := OriginalGraphStrategy;
                edges_loaded := [(0%N, 1%N, (15 # 10)%Q)]%list;
                evaluators := [CELFEvaluator]%list;
                budget := 1; k := 1 |} /\
  main "0 1 -0.5" (real_args "0" "1" "1")
  = Performs {| strategy := OriginalGraphStrategy;
                edges_loaded := [(0%N, 1%N, (- (5 # 10))%Q)]%list;
                evaluators := [CELFEvaluator]%list;
                budget := 1; k := 1 |} /\
  main empty_file (real_args "0" "1" "1")
  = Performs {| strategy := OriginalGraphStrategy; edges_loaded := []%list;
                evaluators := [CELFEvaluator]%list;
                budget := 1; k := 1 |} /\
  main "0 1 abc" ["oim"; "--benchmark"; "graph.txt"; "1"; "1"]%list
  = Benchmarks 0 0.
Proof. repeat split; vm_compute; reflexivity. Qed.

End MainModes.

Section MainInstances.

Import String Main MainSpec.
Local Open Scope string_scope.

Lemma loading_is_never_fatal_witness :
  Forall fits
         [(0%N, 1%N,
           {| minus := false; int_part := 1;
              frac_part := Decimal.D5 Decimal.Nil |})]%list /\
  extract_triple "5 abc 7" = None /\
  text [(0%N, 1%N,
         {| minus := false; int_part := 1;
            frac_part := Decimal.D5 Decimal.Nil |})]%list ++ "5 abc 7"
  = "0 1 1.5" ++ newline ++ "5 abc 7" /\
  read_edges ("0 1 1.5" ++ newline ++ "5 abc 7")
  = [(0%N, 1%N, (15 # 10)%Q)]%list /\
  main ("0 1 1.5" ++ newline ++ "5 abc 7") (real_args "0" "1" "1")
  = main ("0 1 1.5" ++ newline) (real_args "0" "1" "1").
Proof.
  assert (H1 : Forall fits
                 [(0%N, 1%N,
                   {| minus := false; int_part := 1;
                      frac_part := Decimal.D5 Decimal.Nil |})]%list).
  { constructor; [| constructor]. repeat split; vm_compute; reflexivity. }
  assert (H2 : extract_triple "5 abc 7" = None) by (vm_compute; reflexivity).
  split; [exact H1 |]. split; [exact H2 |]. split; [reflexivity |].
  destruct (loading_is_never_fatal
              [(0%N, 1%N,
                {| minus := false; int_part := 1;
                   frac_part := Decimal.D5 Decimal.Nil |})]%list
              "5 abc 7" (real_args "0" "1" "1") H1) as (_ & Hcut & _).
  destruct (Hcut H2) as [Hr Hm].
  split; [exact Hr | exact Hm].
Defined.

Lemma evaluator_tables_witness :
  index_table (to_unsigned (atoi "4")) = Some HighestDegreeEvaluator /\
  (to_unsigned (atoi "2") < 4)%N /\
  chosen (main empty_file (real_args "4" "1" "1")) = [HighestDegreeEvaluator]%list /\
  chosen (main empty_file (explore_args "2" "1" "1"))
  = [CELFEvaluator; CELFEvaluator]%list.
Proof.
  assert (H1 : index_table (to_unsigned (atoi "4"))
               = Some HighestDegreeEvaluator) by reflexivity.
  assert (H2 : (to_unsigned (atoi "2") < 4)%N) by reflexivity.
  split; [exact H1 |]. split; [exact H2 |]. split.
  - exact (proj1 (evaluator_tables empty_file "oim" "graph.txt" "1" "1" "1" "1" "0.1"
                    "4" "0" []) _ H1).
  - exact (proj2 (proj2 (proj2
             (evaluator_tables empty_file "oim" "graph.txt" "1" "1" "1" "1" "0.1"
                "2" "0" []))) H2).
Defined.

Lemma only_eg_validates_and_only_the_index_witness :
  (3 < to_unsigned (atoi "7"))%N /\
  nth_error real_evals (N.to_nat (to_unsigned (atoi "0"))) = Some CELFEvaluator /\
  main empty_file (eg_args "7" "1" "1")
  = Exits 1 "Error: `exploit` must be in range 0..3" /\
  main empty_file (real_args "0" "0" "-1")
  = Performs {| strategy := OriginalGraphStrategy; edges_loaded := []%list;
                evaluators := [CELFEvaluator]%list;
                budget := 0; k := 4294967295 |}.
Proof.
  assert (H1 : (3 < to_unsigned (atoi "7"))%N) by reflexivity.
  assert (H2 : nth_error real_evals (N.to_nat (to_unsigned (atoi "0")))
               = Some CELFEvaluator) by reflexivity.
  split; [exact H1 |]. split; [exact H2 |]. split.
  - exact (proj1 (only_eg_validates_and_only_the_index
                    empty_file "oim" "graph.txt" "1" "1" "1" "1" "0.1" "7" "0" []) H1).
  - exact (proj1 (proj2 (only_eg_validates_and_only_the_index
                    empty_file "oim" "graph.txt" "1" "1" "0" "-1" "0.1" "0" "0" []))
             _ H2).
Defined.

End MainInstances.

(** * Further properties of the code *)

(** ** bfs, exactly *)

Lemma reach_cases (g : Graph) (a b : N) :
  reach g a b -> a = b \/ reach_plus g a b.
Proof.
  intros H. apply clos_rt_rtn1 in H. induction H as [| y z Hyz _ IH].
  - now left.
  - right. destruct IH as [-> | IH]; [now apply t_step |].
    eapply t_trans; [exact IH | now apply t_step].
Qed.

Lemma closed_reach (g : Graph) (seen : uset) (a b : N) :
  (forall x, In x seen -> closed_in g seen x) ->
  In a seen -> reach g a b -> In b seen.
Proof.
  intros Hc Ha H. apply clos_rt_rtn1 in H. induction H as [| y z Hyz _ IH].
  - assumption.
  - now apply (Hc y IH).
Qed.

Section BfsExact.

Variables (node : N) (to : bool) (to_node : N).

Lemma bfs_neighbours_seen_mono (es : list EdgeType) (s s' : bfs_vars) :
  bfs_neighbours node to to_node es s = inl s' -> incl (seen s) (seen s').
Proof.
  revert s. induction es as [| e es IH]; intros s.
  - intros [= <-]. apply incl_refl.
  - cbn [bfs_neighbours]. intros H.
    destruct (mem (target e) (seen s)); [now apply IH |].
    destruct (negb to); [| destruct (target e =? to_node); [discriminate |]];
      apply IH in H; cbn [seen] in H;
      intros x Hx; apply H, In_insert; now right.
Qed.

Lemma bfs_neighbours_q_mono (es : list EdgeType) (s s' : bfs_vars) :
  bfs_neighbours node to to_node es s = inl s' -> incl (q s) (q s').
Proof.
  revert s. induction es as [| e es IH]; intros s.
  - intros [= <-]. apply incl_refl.
  - cbn [bfs_neighbours]. intros H.
    destruct (mem (target e) (seen s)); [now apply IH |].
    destruct (negb to); [| destruct (target e =? to_node); [discriminate |]];
      apply IH in H; cbn [q] in H;
      intros x Hx; apply H, in_app_iff; now left.
Qed.

Lemma bfs_neighbours_targets_seen (es : list EdgeType) (s s' : bfs_vars) :
  bfs_neighbours node to to_node es s = inl s' ->
  forall e, In e es -> In (target e) (seen s').
Proof.
  revert s. induction es as [| e es IH]; intros s.
  - intros _ e [].
  - cbn [bfs_neighbours]. intros H e' [<- | He'].
    + destruct (mem (target e) (seen s)) eqn:E.
      * apply mem_In in E. now apply (bfs_neighbours_seen_mono _ _ _ H).
      * destruct (negb to); [| destruct (target e =? to_node); [discriminate |]];
          apply (bfs_neighbours_seen_mono _ _ _ H); cbn [seen];
          apply In_insert; now left.
    + destruct (mem (target e) (seen s)); [now apply (IH _ H) |].
      destruct (negb to); [| destruct (target e =? to_node); [discriminate |]];
        now apply (IH _ H).
Qed.

Lemma bfs_neighbours_seen_new (es : list EdgeType) (s s' : bfs_vars) :
  bfs_neighbours node to to_node es s = inl s' ->
  forall x, In x (seen s') ->
            In x (seen s) \/ (In x (q s') /\ In x (map target es)).
Proof.
  revert s. induction es as [| e es IH]; intros s.
  - intros [= <-] x Hx. now left.
  - cbn [bfs_neighbours map]. intros H x Hx.
    destruct (mem (target e) (seen s)).
    + destruct (IH _ H x Hx) as [? | [? ?]]; [now left |].
      right. split; [assumption | now right].
    + assert (Hq : forall c,
                 bfs_neighbours node to to_node es
                   {| q := q s ++ [target e];
                      seen := insert (target e) (seen s); col := c |} = inl s' ->
                 In x (seen s) \/ In x (q s') /\ (target e = x \/ In x (map target es))).
      { intros c H0. destruct (IH _ H0 x Hx) as [Hi | [? ?]].
        - cbn [seen] in Hi. apply In_insert in Hi.
          destruct Hi as [-> | Hi]; [| now left].
          right. split; [| now left].
          apply (bfs_neighbours_q_mono _ _ _ H0). cbn [q].
          apply in_app_iff. right. now left.
        - right. split; [assumption | now right]. }
      destruct (negb to); [| destruct (target e =? to_node); [discriminate |]];
        now apply (Hq _ H).
Qed.

Lemma bfs_neighbours_q_new (es : list EdgeType) (s s' : bfs_vars) :
  bfs_neighbours node to to_node es s = inl s' ->
  forall x, In x (q s') -> In x (q s) \/ In x (seen s').
Proof.
  revert s. induction es as [| e es IH]; intros s.
  - intros [= <-] x Hx. now left.
  - cbn [bfs_neighbours]. intros H x Hx.
    destruct (mem (target e) (seen s)); [now apply (IH _ H) |].
    assert (Hq : forall c,
               bfs_neighbours node to to_node es
                 {| q := q s ++ [target e];
                    seen := insert (target e) (seen s); col := c |} = inl s' ->
               In x (q s) \/ In x (seen s')).
    { intros c H0. destruct (IH _ H0 x Hx) as [Hi | ?]; [| now right].
      cbn [q] in Hi. apply in_app_iff in Hi.
      destruct Hi as [? | [<- | []]]; [now left |].
      right. apply (bfs_neighbours_seen_mono _ _ _ H0). cbn [seen].
      apply In_insert. now left. }
    destruct (negb to); [| destruct (target e =? to_node); [discriminate |]];
      now apply (Hq _ H).
Qed.

(** The loop over the neighbours: when it ends by [return]. *)
Lemma bfs_neighbours_inr (es : list EdgeType) (s : bfs_vars) (c : uset) :
  bfs_neighbours node to to_node es s = inr c ->
  to = true /\ In to_node (map target es) /\ ~ In to_node (seen s) /\
  c = insert node (col s).
Proof.
  revert s. induction es as [| e es IH]; intros s; [discriminate |].
  cbn [bfs_neighbours map].
  destruct (mem (target e) (seen s)) eqn:E.
  - intros H. apply IH in H. destruct H as (H1 & H2 & H3 & H4).
    repeat split; try assumption. now right.
  - apply mem_false in E. destruct to; cbn [negb].
    + destruct (target e =? to_node) eqn:Et.
      * apply N.eqb_eq in Et. intros [= <-].
        repeat split; [now left | now rewrite <- Et].
      * intros H. apply IH in H. cbn [seen col] in H.
        destruct H as (H1 & H2 & H3 & H4).
        repeat split; try assumption; [now right |].
        intros Hin. apply H3, In_insert. now right.
    + intros H. apply IH in H. now destruct H as ([=] & _).
Qed.

End BfsExact.

Lemma bfs_neighbours_col_false (node to_node : N) (es : list EdgeType)
      (s s' : bfs_vars) :
  bfs_neighbours node false to_node es s = inl s' ->
  forall x, In x (col s') <->
            In x (col s) \/ (In x (seen s') /\ ~ In x (seen s)).
Proof.
  revert s. induction es as [| e es IH]; intros s.
  - intros [= <-] x. tauto.
  - cbn [bfs_neighbours negb]. intros H x.
    destruct (mem (target e) (seen s)) eqn:E; [now apply IH |].
    apply mem_false in E.
    pose proof (bfs_neighbours_seen_mono _ _ _ _ _ _ H) as Hm. cbn [seen] in Hm.
    assert (Ht : In (target e) (seen s')) by (apply Hm, In_insert; now left).
    rewrite (IH _ H x). cbn [col seen]. rewrite !In_insert.
    destruct (N.eq_dec x (target e)) as [-> | Hne]; tauto.
Qed.

Lemma bfs_neighbours_col_true (node to_node : N) (es : list EdgeType)
      (s s' : bfs_vars) :
  bfs_neighbours node true to_node es s = inl s' ->
  col s' = col s /\ (In to_node (seen s') -> In to_node (seen s)).
Proof.
  revert s. induction es as [| e es IH]; intros s.
  - intros [= <-]. tauto.
  - cbn [bfs_neighbours negb]. intros H.
    destruct (mem (target e) (seen s)) eqn:E; [now apply IH |].
    destruct (target e =? to_node) eqn:Et; [discriminate |].
    apply N.eqb_neq in Et. apply IH in H. cbn [col seen] in H.
    destruct H as [H1 H2]. split; [assumption |].
    intros Hin. apply H2, In_insert in Hin. destruct Hin; congruence.
Qed.


Lemma insert_known (x : N) (s : uset) : In x s -> insert x s = s.
Proof. intros H. unfold insert. apply mem_In in H. now rewrite H. Qed.

Lemma arc_target (g : Graph) (u y : N) :
  arc g u y <->
  has_neighbours g u = true /\
  exists e, In e (get_neighbours g u) /\ target e = y.
Proof.
  unfold arc. rewrite in_map_iff. split.
  - intros [H (e & He & Hin)]. split; [assumption |]. now exists e.
  - intros [H (e & Hin & He)]. split; [assumption |]. now exists e.
Qed.

(** One iteration of the [while] loop of [bfs] on a node without arcs. *)
Lemma bfs_frontier_pop (g : Graph) (node cur_node : N) (q' : list N)
      (s : bfs_vars) :
  bfs_frontier g node s ->
  q s = cur_node :: q' ->
  has_neighbours g cur_node = false ->
  bfs_frontier g node {| q := q'; seen := insert cur_node (seen s);
                         col := col s |}.
Proof.
  intros (H1 & H2 & H3 & H4) Eq Hn.
  assert (Hc : In cur_node (seen s)) by (apply H2; rewrite Eq; now left).
  rewrite (insert_known _ _ Hc). unfold bfs_frontier. cbn [q seen].
  repeat split; try assumption.
  - intros x Hx. apply H2. rewrite Eq. now right.
  - intros x Hx. destruct (H3 x Hx) as [Hq | Hcl]; [| now right].
    rewrite Eq in Hq. destruct Hq as [<- | Hq]; [| now left].
    right. intros y [Hy _]. congruence.
Qed.

(** One iteration of the [while] loop of [bfs] on a node with arcs, when the
    loop over them ends without [return]. *)
Lemma bfs_frontier_neighbours (g : Graph) (node to_node cur_node : N)
      (to : bool) (q' : list N) (s s2 : bfs_vars) :
  bfs_frontier g node s ->
  q s = cur_node :: q' ->
  has_neighbours g cur_node = true ->
  bfs_neighbours node to to_node (get_neighbours g cur_node)
    {| q := q'; seen := insert cur_node (seen s); col := col s |} = inl s2 ->
  bfs_frontier g node s2 /\ incl (seen s) (seen s2).
Proof.
  intros (H1 & H2 & H3 & H4) Eq Hn Hb.
  assert (Hc : In cur_node (seen s)) by (apply H2; rewrite Eq; now left).
  rewrite (insert_known _ _ Hc) in Hb.
  pose proof (bfs_neighbours_seen_mono _ _ _ _ _ _ Hb) as Hm.
  pose proof (bfs_neighbours_q_mono _ _ _ _ _ _ Hb) as Hqm.
  pose proof (bfs_neighbours_targets_seen _ _ _ _ _ _ Hb) as Ht.
  pose proof (bfs_neighbours_seen_new _ _ _ _ _ _ Hb) as Hsn.
  pose proof (bfs_neighbours_q_new _ _ _ _ _ _ Hb) as Hqn.
  cbn [q seen] in *.
  split; [| assumption]. unfold bfs_frontier. repeat split.
  - now apply Hm.
  - intros x Hx. destruct (Hqn x Hx) as [Hq | ?]; [| assumption].
    apply Hm, H2. rewrite Eq. now right.
  - intros x Hx. destruct (Hsn x Hx) as [Hs | [Hq _]]; [| now left].
    destruct (H3 x Hs) as [Hq | Hcl].
    + rewrite Eq in Hq. destruct Hq as [<- | Hq]; [| left; now apply Hqm].
      right. intros y Hy. apply arc_target in Hy.
      destruct Hy as (_ & e & He & <-). now apply Ht.
    + right. intros y Hy. now apply Hm, Hcl.
  - intros x Hx. destruct (Hsn x Hx) as [Hs | [_ Hin]]; [now apply H4 |].
    apply in_map_iff in Hin. destruct Hin as (e & <- & He).
    apply clos_t_clos_rt. apply reach_arc with cur_node; [now apply H4 |].
    apply arc_target. split; [assumption |]. now exists e.
Qed.

(** With an empty queue, the visited set is what is reachable. *)
Lemma bfs_frontier_done (g : Graph) (node : N) (s : bfs_vars) :
  bfs_frontier g node s -> q s = [] ->
  forall x, In x (seen s) <-> reach g node x.
Proof.
  intros (H1 & H2 & H3 & H4) Eq x. split; [apply H4 |].
  apply closed_reach; [| assumption].
  intros y Hy. destruct (H3 y Hy) as [Hq | ?]; [| assumption].
  rewrite Eq in Hq. destruct Hq.
Qed.

Lemma bfs_loop_false_exact (g : Graph) (node to_node : N) (col0 : uset)
      (fuel : nat) (s : bfs_vars) (c : uset) :
  bfs_frontier g node s ->
  (forall x, In x (col s) <-> In x col0 \/ (In x (seen s) /\ x <> node)) ->
  bfs_loop fuel g node false to_node s = Ok c ->
  forall x, In x c <-> In x col0 \/ (reach g node x /\ x <> node).
Proof.
  revert s. induction fuel as [| fuel IH]; intros s Hf Hc; cbn [bfs_loop];
    [discriminate |].
  destruct (q s) as [| cur_node q'] eqn:Eq.
  - intros [= <-] x. rewrite Hc, (bfs_frontier_done g node s Hf Eq). tauto.
  - destruct (has_neighbours g cur_node) eqn:Hn.
    + destruct (bfs_neighbours node false to_node (get_neighbours g cur_node) _)
        as [s2 | c'] eqn:Hb.
      * destruct (bfs_frontier_neighbours _ _ _ _ _ _ _ _ Hf Eq Hn Hb)
          as [Hf2 Hm].
        apply IH; [assumption |].
        intros x. rewrite (bfs_neighbours_col_false _ _ _ _ _ Hb x).
        cbn [col seen]. rewrite Hc.
        assert (Hcur : In cur_node (seen s))
          by (destruct Hf as (_ & H2 & _); apply H2; rewrite Eq; now left).
        rewrite (insert_known _ _ Hcur).
        assert (Hnode : In node (seen s)) by (destruct Hf as [H1 _]; exact H1).
        destruct (in_dec N.eq_dec x (seen s)) as [Hi | Hi].
        -- pose proof (Hm x Hi). tauto.
        -- assert (In x (seen s2) -> x <> node) by (intros ? ->; tauto). tauto.
      * apply bfs_neighbours_inr in Hb. now destruct Hb as ([=] & _).
    + apply IH; [now apply bfs_frontier_pop |].
      intros x. cbn [col seen].
      assert (Hcur : In cur_node (seen s))
        by (destruct Hf as (_ & H2 & _); apply H2; rewrite Eq; now left).
      now rewrite (insert_known _ _ Hcur).
Qed.

Lemma bfs_loop_true_exact (g : Graph) (node to_node : N) (col0 : uset)
      (fuel : nat) (s : bfs_vars) (c : uset) :
  bfs_frontier g node s ->
  col s = col0 ->
  (In to_node (seen s) -> to_node = node) ->
  bfs_loop fuel g node true to_node s = Ok c ->
  (reach_plus g node to_node /\ to_node <> node /\ c = insert node col0) \/
  (~ (reach_plus g node to_node /\ to_node <> node) /\ c = col0).
Proof.
  revert s. induction fuel as [| fuel IH]; intros s Hf Hc Ht; cbn [bfs_loop];
    [discriminate |].
  destruct (q s) as [| cur_node q'] eqn:Eq.
  - intros [= <-]. right. split; [| assumption].
    intros [Hr Hne]. apply Hne, Ht.
    apply (bfs_frontier_done g node s Hf Eq). now apply clos_t_clos_rt.
  - assert (Hcur : In cur_node (seen s))
      by (destruct Hf as (_ & H2 & _); apply H2; rewrite Eq; now left).
    destruct (has_neighbours g cur_node) eqn:Hn.
    + destruct (bfs_neighbours node true to_node (get_neighbours g cur_node) _)
        as [s2 | c'] eqn:Hb.
      * destruct (bfs_frontier_neighbours _ _ _ _ _ _ _ _ Hf Eq Hn Hb)
          as [Hf2 Hm].
        apply bfs_neighbours_col_true in Hb. cbn [col seen] in Hb.
        rewrite (insert_known _ _ Hcur) in Hb. destruct Hb as [Hb1 Hb2].
        apply IH; [assumption | congruence | tauto].
      * intros [= <-]. apply bfs_neighbours_inr in Hb. cbn [col seen] in Hb.
        rewrite (insert_known _ _ Hcur) in Hb.
        destruct Hb as (_ & Hin & Hns & ->). left.
        apply in_map_iff in Hin. destruct Hin as (e & He & Hin).
        repeat split.
        -- apply reach_arc with cur_node;
             [destruct Hf as (_ & _ & _ & H4); now apply H4 |].
           apply arc_target. split; [assumption |]. now exists e.
        -- intros ->. apply Hns. destruct Hf as [H1 _]. exact H1.
        -- now rewrite Hc.
    + apply IH; [now apply bfs_frontier_pop | assumption |].
      cbn [seen]. now rewrite (insert_known _ _ Hcur).
Qed.

Lemma bfs_frontier_start (g : Graph) (node : N) (col0 : uset) :
  bfs_frontier g node {| q := [node]; seen := insert node []; col := col0 |}.
Proof.
  unfold bfs_frontier. cbn. repeat split.
  - now left.
  - intros x [<- | []]. now left.
  - intros x [<- | []]. left. now left.
  - intros x [<- | []]. apply rt_refl.
Qed.

(** ** Maps and vectors *)

Lemma find_assign_same {V : Type} (k : N) (v : V) (m : umap V) :
  find k (assign k v m) = Some v.
Proof.
  induction m as [| [k' v'] m IH]; cbn [assign find].
  - now rewrite N.eqb_refl.
  - destruct (k =? k') eqn:E; cbn [find]; rewrite E; [reflexivity | exact IH].
Qed.

Lemma find_assign_other {V : Type} (k k' : N) (v : V) (m : umap V) :
  k <> k' -> find k (assign k' v m) = find k m.
Proof.
  intros Hne. induction m as [| [k0 v0] m IH]; cbn [assign find].
  - apply N.eqb_neq in Hne. now rewrite Hne.
  - destruct (k' =? k0) eqn:E; cbn [find].
    + apply N.eqb_eq in E. subst k0. apply N.eqb_neq in Hne. now rewrite Hne.
    + destruct (k =? k0); [reflexivity | exact IH].
Qed.

Lemma get_assign_same {V : Type} (d : V) (k : N) (v : V) (m : umap V) :
  get d k (assign k v m) = v.
Proof. unfold get. now rewrite find_assign_same. Qed.

Lemma get_assign_other {V : Type} (d : V) (k k' : N) (v : V) (m : umap V) :
  k <> k' -> get d k (assign k' v m) = get d k m.
Proof. intros H. unfold get. now rewrite find_assign_other. Qed.

Lemma vec_at_set_other {T : Type} (v : list T) (i j : nat) (x : T) :
  i <> j -> vec_at (vec_set v i x) j = vec_at v j.
Proof.
  unfold vec_at. revert i j. induction v as [| a v IH]; intros [| i] [| j] H;
    cbn; try reflexivity; try congruence.
  apply IH. congruence.
Qed.

Lemma length_vec_set {T : Type} (v : list T) (i : nat) (x : T) :
  length (vec_set v i x) = length v.
Proof.
  revert i. induction v as [| a v IH]; intros [| i]; cbn; auto.
Qed.

(** ** bfs, as select and update_dag use it *)

Lemma reach_plus_strict (g : Graph) (a b : N) :
  reach g a b /\ b <> a <-> reach_plus g a b /\ b <> a.
Proof.
  split; intros [H Hne]; (split; [| assumption]).
  - destruct (reach_cases g a b H) as [-> | ?]; [congruence | assumption].
  - now apply clos_t_clos_rt.
Qed.

Lemma bfs_true_exact (fuel : nat) (gs : list Graph) (i : nat) (g : Graph)
      (node to_node : N) (col0 : uset) :
  vec_at gs i = Ok g ->
  (S (length (targets g)) < fuel)%nat ->
  exists col1,
    bfs fuel gs node i col0 true to_node = Ok col1 /\
    ((reach_plus g node to_node /\ to_node <> node /\
      col1 = insert node col0) \/
     (~ (reach_plus g node to_node /\ to_node <> node) /\ col1 = col0)).
Proof.
  intros Hg Hf.
  destruct (bfs_returns fuel gs i g node to_node true col0 Hg Hf)
    as (col1 & Hb).
  exists col1. split; [assumption |].
  unfold bfs in Hb. rewrite Hg in Hb. cbn [bind] in Hb.
  apply (bfs_loop_true_exact g node to_node col0 fuel _ col1
           (bfs_frontier_start g node col0)); [reflexivity | | assumption].
  cbn. intuition congruence.
Qed.

Lemma bfs_false_exact (fuel : nat) (gs : list Graph) (i : nat) (g : Graph)
      (node to_node : N) (col0 : uset) :
  vec_at gs i = Ok g ->
  (S (length (targets g)) < fuel)%nat ->
  exists col1,
    bfs fuel gs node i col0 false to_node = Ok col1 /\
    forall x, In x col1 <-> In x col0 \/ (reach_plus g node x /\ x <> node).
Proof.
  intros Hg Hf.
  destruct (bfs_returns fuel gs i g node to_node false col0 Hg Hf)
    as (col1 & Hb).
  exists col1. split; [assumption |].
  unfold bfs in Hb. rewrite Hg in Hb. cbn [bind] in Hb.
  intros x. rewrite <- reach_plus_strict.
  apply (bfs_loop_false_exact g node to_node col0 fuel _ col1
           (bfs_frontier_start g node col0)); [| assumption].
  intros y. cbn. intuition congruence.
Qed.

(** X1.  With fuel above the number of arcs of [graphs[i]], [bfs] with
    [to = false] returns, and [col] then holds what it held before and,
    besides, exactly the nodes other than the start node that are reached
    from it along the arcs of [graphs[i]], removed nodes included. *)
Theorem bfs_collects_exactly_the_descendants
        (fuel : nat) (gs : list Graph) (i : nat) (g : Graph)
        (node to_node : N) (col0 : uset) :
  vec_at gs i = Ok g ->
  (S (length (targets g)) < fuel)%nat ->
  exists col1,
    bfs fuel gs node i col0 false to_node = Ok col1 /\
    forall x, In x col1 <-> In x col0 \/ (reach_plus g node x /\ x <> node).
Proof. apply bfs_false_exact. Qed.

(** X2.  With fuel above the number of arcs of [graphs[i]], [bfs] with
    [to = true] returns; it inserts the start node into [col] when
    [to_node] is another node and is reached from the start node along the
    arcs of [graphs[i]], and leaves [col] as it is otherwise -- also when
    [to_node] is the start node itself, on a cycle or not. *)
Theorem bfs_tests_reachability
        (fuel : nat) (gs : list Graph) (i : nat) (g : Graph)
        (node to_node : N) (col0 : uset) :
  vec_at gs i = Ok g ->
  (S (length (targets g)) < fuel)%nat ->
  exists col1,
    bfs fuel gs node i col0 true to_node = Ok col1 /\
    ((reach_plus g node to_node /\ to_node <> node /\
      col1 = insert node col0) \/
     (~ (reach_plus g node to_node /\ to_node <> node) /\ col1 = col0)).
Proof. apply bfs_true_exact. Qed.

(** X3.  The loop of [select] that fills [A[i]] returns, with fuel above the
    number of arcs of [graphs[i]], and adds to [A[i]] exactly the nodes it
    iterates over that are not the hub, are not in [D[i]], and from which
    the hub is reached along the arcs of [graphs[i]]. *)
Theorem ancestors_are_the_nodes_reaching_the_hub
        (fuel : nat) (gs : list Graph) (i : nat) (g : Graph) (h_i : N)
        (D_i : uset) (nodes : list N) (A_i : uset) :
  vec_at gs i = Ok g ->
  (S (length (targets g)) < fuel)%nat ->
  exists A_i',
    ancestors fuel gs i h_i D_i nodes A_i = Ok A_i' /\
    forall x, In x A_i' <->
              In x A_i \/
              (In x nodes /\ x <> h_i /\ ~ In x D_i /\ reach_plus g x h_i).
Proof.
  intros Hg Hf. revert A_i.
  induction nodes as [| node nodes IH]; intros A_i; cbn [ancestors].
  - exists A_i. split; [reflexivity |]. intros x. cbn. tauto.
  - destruct (N.eqb_spec node h_i) as [-> | Hne]; cbn [negb andb].
    + destruct (IH A_i) as (A' & -> & HA). exists A'. split; [reflexivity |].
      intros x. rewrite HA. cbn [In]. intuition congruence.
    + destruct (mem node D_i) eqn:E; cbn [negb].
      * apply mem_In in E. destruct (IH A_i) as (A' & -> & HA).
        exists A'. split; [reflexivity |].
        intros x. rewrite HA. cbn [In]. intuition (subst; tauto).
      * apply mem_false in E.
        destruct (bfs_true_exact fuel gs i g node h_i A_i Hg Hf)
          as (A1 & -> & HA1). cbn [bind].
        destruct (IH A1) as (A' & -> & HA). exists A'.
        split; [reflexivity |]. intros x. rewrite HA. cbn [In].
        destruct HA1 as [(Hr & Hn & ->) | (Hnr & ->)].
        -- rewrite In_insert.
           assert (Hn' : node <> h_i) by congruence.
           intuition (subst; tauto).
        -- assert (Hnr' : ~ reach_plus g node h_i)
             by (intros ?; apply Hnr; split; congruence).
           intuition (subst; tauto).
Qed.

(** ** update_dag: which cached gains it drops *)

Lemma reaches_removed_exact (fuel : nat) (gs : list Graph) (i : nat)
      (g : Graph) (v : N) (desc : list N) :
  vec_at gs i = Ok g ->
  (S (length (targets g)) < fuel)%nat ->
  exists b,
    reaches_removed fuel gs i v desc = Ok b /\
    (b = true <-> exists u, In u desc /\ u <> v /\ reach_plus g v u).
Proof.
  intros Hg Hf. induction desc as [| u desc IH]; cbn [reaches_removed].
  - exists false. split; [reflexivity |].
    split; [discriminate | intros (u & [] & _)].
  - destruct (bfs_true_exact fuel gs i g v u [] Hg Hf) as (c & -> & Hc).
    cbn [bind]. destruct Hc as [(Hr & Hn & ->) | (Hnr & ->)].
    + cbn. exists true. split; [reflexivity |].
      split; [| reflexivity]. intros _. exists u.
      split; [now left | split; assumption].
    + cbn. destruct IH as (b & -> & Hb). exists b. split; [reflexivity |].
      rewrite Hb. split.
      * intros (u' & Hin & H). exists u'. split; [now right | assumption].
      * intros (u' & [<- | Hin] & Hne & Hr); [tauto |]. now exists u'.
Qed.

Lemma invalidate_exact (fuel : nat) (gs : list Graph) (i : nat) (g : Graph)
      (desc : uset) (nodes : list N) (latest_i : umap bool) :
  vec_at gs i = Ok g ->
  (S (length (targets g)) < fuel)%nat ->
  exists latest_i',
    invalidate fuel gs i desc nodes latest_i = Ok latest_i' /\
    forall x,
      get false x latest_i' = true <->
      get false x latest_i = true /\
      ~ (In x nodes /\ exists u, In u desc /\ u <> x /\ reach_plus g x u).
Proof.
  intros Hg Hf. revert latest_i.
  induction nodes as [| v nodes IH]; intros latest_i; cbn [invalidate].
  - exists latest_i. split; [reflexivity |]. intros x. cbn. tauto.
  - destruct (get false v latest_i) eqn:Ev.
    + destruct (reaches_removed_exact fuel gs i g v desc Hg Hf)
        as (b & -> & Hb). cbn [bind].
      destruct (IH (if b then assign v false latest_i else latest_i))
        as (l' & -> & Hl). exists l'. split; [reflexivity |].
      intros x. rewrite Hl. cbn [In]. destruct b.
      * assert (Hex : exists u, In u desc /\ u <> v /\ reach_plus g v u)
          by now apply Hb.
        destruct (N.eq_dec x v) as [-> | Hne].
        -- rewrite get_assign_same. intuition discriminate.
        -- rewrite get_assign_other by assumption. intuition congruence.
      * assert (Hex : ~ exists u, In u desc /\ u <> v /\ reach_plus g v u)
          by (intros H; apply Hb in H; discriminate).
        intuition (subst; tauto).
    + destruct (IH latest_i) as (l' & -> & Hl). exists l'.
      split; [reflexivity |]. intros x. rewrite Hl. cbn [In].
      intuition (subst; congruence).
Qed.

Lemma update_dag_exact (fuel : nat) (i : nat) (node : N) (r : rounds)
      (cc_i : cc_map) (g : Graph) (latest_i : umap bool) :
  vec_at (cc r) i = Ok cc_i ->
  vec_at (graphs r) i = Ok g ->
  vec_at (latest r) i = Ok latest_i ->
  (S (length (targets g)) < fuel)%nat ->
  exists desc latest_i',
    (forall u, In u desc <->
               reach_plus g (get 0 node cc_i) u /\ u <> get 0 node cc_i) /\
    (forall x,
        get false x latest_i' = true <->
        get false x latest_i = true /\
        ~ (In x (get_nodes g) /\
           exists u, In u desc /\ u <> x /\ reach_plus g x u)) /\
    update_dag fuel i node r
    = Ok {| cc := cc r; cc_list := cc_list r;
            graphs := vec_set (graphs r) i (fold_left remove_node desc g);
            A := A r; D := D r; h := h r;
            latest := vec_set (latest r) i latest_i';
            delta := delta r |}.
Proof.
  intros Hcc Hg Hl Hf. unfold update_dag. rewrite Hcc. cbn [bind].
  destruct (bfs_false_exact fuel (graphs r) i g (get 0 node cc_i) 0 [] Hg Hf)
    as (desc & -> & Hd). cbn [bind]. rewrite Hg, Hl. cbn [bind].
  destruct (invalidate_exact fuel (graphs r) i g desc (get_nodes g) latest_i
              Hg Hf) as (l' & -> & Hl'). cbn [bind].
  exists desc, l'. split; [| split; [exact Hl' | reflexivity]].
  intros u. rewrite Hd. cbn [In]. tauto.
Qed.

(** X4.  With fuel above the number of arcs of [graphs[i]],
    [update_dag(i, node)] returns.  It clears [latest[i][x]] for exactly the
    nodes [x] of [graphs[i]] whose flag is set and that reach, along at
    least one arc, a node other than [x] among the strict descendants of
    [t = cc[i][node]]; it sets no flag, and it assigns to none of [cc],
    [cc_list], [A], [D], [h] and [delta] (the key a read [m[k]] inserts
    when it is missing is left out, as in [get]). *)
Theorem update_dag_drops_the_gains_that_reach_removed_nodes
        (fuel : nat) (i : nat) (node : N) (r : rounds)
        (cc_i : cc_map) (g : Graph) (latest_i : umap bool) :
  vec_at (cc r) i = Ok cc_i ->
  vec_at (graphs r) i = Ok g ->
  vec_at (latest r) i = Ok latest_i ->
  (S (length (targets g)) < fuel)%nat ->
  exists r' latest_i',
    update_dag fuel i node r = Ok r' /\
    vec_at (latest r') i = Ok latest_i' /\
    (forall x,
        get false x latest_i' = true <->
        get false x latest_i = true /\
        ~ (has_node g x = true /\
           exists u, reach_plus g (get 0 node cc_i) u /\
                     u <> get 0 node cc_i /\ u <> x /\ reach_plus g x u)) /\
    cc r' = cc r /\ cc_list r' = cc_list r /\ A r' = A r /\ D r' = D r /\
    h r' = h r /\ delta r' = delta r.
Proof.
  intros Hcc Hg Hl Hf.
  destruct (update_dag_exact fuel i node r cc_i g latest_i Hcc Hg Hl Hf)
    as (desc & l' & Hd & Hl' & Hu).
  eexists. exists l'. split; [exact Hu |]. cbn.
  split; [now apply vec_at_set with latest_i |].
  split; [| repeat split].
  intros x. rewrite Hl'. unfold has_node, get_nodes. rewrite mem_In.
  split; intros [H1 H2]; (split; [assumption |]); intros [Hin (u & Hu')];
    apply H2; (split; [assumption |]); exists u.
  - rewrite Hd. tauto.
  - rewrite Hd in Hu'. tauto.
Qed.

(** ** gain: what it writes, and its cache *)

Lemma gain_frame (fuel : nat) (i : nat) (node : N) (set : uset)
      (r r' : rounds) (d : N) :
  gain fuel i node set r = Ok (d, r') ->
  same_samples r r' /\ flags_kept i r r'.
Proof.
  revert node r r' d. induction fuel as [| fuel IH]; intros node r r' d;
    cbn [gain]; [discriminate |].
  intros H.
  apply bind_Ok in H. destruct H as (cc_i & Hcc & H).
  apply bind_Ok in H. destruct H as (g & Hg & H).
  assert (Hrefl : same_samples r r /\ flags_kept i r r).
  { split; [repeat split |]. intros l x Hl Hx. now exists l. }
  destruct (has_node g (get 0 node cc_i)); cbn [negb] in H;
    [| injection H as <- <-; exact Hrefl].
  apply bind_Ok in H. destruct H as (latest_i & Hl & H).
  apply bind_Ok in H. destruct H as (delta_i & Hd & H).
  destruct (get false (get 0 node cc_i) latest_i) eqn:Ev;
    [injection H as <- <-; exact Hrefl |].
  cbn [A D cc_list with_latest] in H.
  apply bind_Ok in H. destruct H as (A_i & HA & H).
  apply bind_Ok in H. destruct H as (D_i & HD & H).
  apply bind_Ok in H. destruct H as (ccl_i & Hccl & H).
  apply bind_Ok in H. destruct H as ([d0 r2] & Hrec & H).
  apply bind_Ok in H. destruct H as (dv & Hloop & H).
  apply bind_Ok in H. destruct H as (delta_i2 & Hd2 & H).
  injection H as <- <-.
  set (r1 := with_latest
               (vec_set (latest r) i (assign (get 0 node cc_i) true latest_i))
               r) in *.
  assert (H12 : same_samples r1 r2 /\ flags_kept i r1 r2).
  { destruct (mem (get 0 node cc_i) A_i && (length set =? 0)%nat).
    - apply bind_Ok in Hrec. destruct Hrec as (h_i & Hh & Hrec).
      destruct (get [] h_i ccl_i) as [| first rest]; [discriminate |].
      now apply IH in Hrec.
    - injection Hrec as <- <-. split; [repeat split |].
      intros l x Hl' Hx. now exists l. }
  destruct H12 as [(S1 & S2 & S3 & S4 & S5 & S6) F12].
  split.
  - unfold same_samples. cbn. subst r1. cbn in *. repeat split; assumption.
  - intros l x Hl' Hx. cbn [latest with_delta].
    apply (F12 (assign (get 0 node cc_i) true latest_i) x).
    + subst r1. cbn [latest with_latest]. now apply vec_at_set with latest_i.
    + rewrite Hl in Hl'. injection Hl' as <-.
      destruct (N.eq_dec x (get 0 node cc_i)) as [-> | Hne].
      * apply get_assign_same.
      * now rewrite get_assign_other.
Qed.

Lemma gain_cached (fuel : nat) (i : nat) (node : N) (set : uset)
      (r r' : rounds) (d : N) :
  gain fuel i node set r = Ok (d, r') ->
  forall fuel' set', (0 < fuel')%nat -> gain fuel' i node set' r' = Ok (d, r').
Proof.
  intros H fuel' set' Hf. destruct fuel' as [| fuel']; [lia |]. clear Hf.
  destruct fuel as [| fuel]; [discriminate |].
  pose proof (gain_frame _ _ _ _ _ _ _ H) as [(S1 & S2 & S3 & S4 & S5 & S6) F].
  cbn [gain] in H |- *. rewrite S1, S3.
  apply bind_Ok in H. destruct H as (cc_i & Hcc & H). rewrite Hcc. cbn [bind].
  apply bind_Ok in H. destruct H as (g & Hg & H). rewrite Hg. cbn [bind].
  destruct (has_node g (get 0 node cc_i)); cbn [negb] in *;
    [| injection H as <- <-; reflexivity].
  apply bind_Ok in H. destruct H as (latest_i & Hl & H).
  apply bind_Ok in H. destruct H as (delta_i & Hd & H).
  destruct (get false (get 0 node cc_i) latest_i) eqn:Ev.
  - injection H as <- <-. rewrite Hl, Hd. cbn [bind]. now rewrite Ev.
  - cbn [A D cc_list with_latest] in H.
    apply bind_Ok in H. destruct H as (A_i & HA & H).
    apply bind_Ok in H. destruct H as (D_i & HD & H).
    apply bind_Ok in H. destruct H as (ccl_i & Hccl & H).
    apply bind_Ok in H. destruct H as ([d0 r2] & Hrec & H).
    apply bind_Ok in H. destruct H as (dv & Hloop & H).
    apply bind_Ok in H. destruct H as (delta_i2 & Hd2 & H).
    injection H as <- <-.
    assert (Hfl : exists l', vec_at (latest r2) i = Ok l' /\
                             get false (get 0 node cc_i) l' = true).
    { destruct (mem (get 0 node cc_i) A_i && (length set =? 0)%nat).
      - apply bind_Ok in Hrec. destruct Hrec as (h_i & Hh & Hrec).
        destruct (get [] h_i ccl_i) as [| first rest]; [discriminate |].
        apply gain_frame in Hrec. destruct Hrec as [_ F12].
        apply (F12 (assign (get 0 node cc_i) true latest_i)).
        + cbn [latest with_latest]. now apply vec_at_set with latest_i.
        + apply get_assign_same.
      - injection Hrec as _ <-. eexists. split.
        + cbn [latest with_latest]. now apply vec_at_set with latest_i.
        + apply get_assign_same. }
    destruct Hfl as (l' & Hl' & Hv).
    cbn [latest delta with_delta]. rewrite Hl'. cbn [bind].
    rewrite (vec_at_set _ _ _ _ Hd2). cbn [bind].
    now rewrite Hv, get_assign_same.
Qed.

(** X5.  [gain] assigns to [latest] and [delta] only (the key a read
    [m[k]] inserts when it is missing is left out, as in [get]), and sets
    flags without clearing any.  A second call for the same node, with any
    seed set and any positive fuel, returns the same value and changes
    nothing: the value is served from the cache until [update_dag] clears
    the flag. *)
Theorem gain_is_cached
        (fuel : nat) (i : nat) (node : N) (set : uset)
        (r r' : rounds) (d : N) :
  gain fuel i node set r = Ok (d, r') ->
  same_samples r r' /\ flags_kept i r r' /\
  forall fuel' set', (0 < fuel')%nat -> gain fuel' i node set' r' = Ok (d, r').
Proof.
  intros H. destruct (gain_frame _ _ _ _ _ _ _ H) as [H1 H2].
  split; [assumption |]. split; [assumption |].
  now apply gain_cached with fuel set r.
Qed.

(** ** gain: what it adds up *)

Lemma component_sizes_app (ccl_i : cc_node_map) (l1 l2 : list N) :
  component_sizes ccl_i (l1 ++ l2)
  = component_sizes ccl_i l1 + component_sizes ccl_i l2.
Proof.
  induction l1 as [| u l1 IH]; [reflexivity |].
  cbn [app]. unfold component_sizes in *. cbn [fold_right]. rewrite IH.
  apply N.add_assoc.
Qed.

(** The loop of [gain] over the neighbours of a node: it appends to the
    queue and to [X] the same new nodes. *)
Lemma gain_neighbours_new (g : Graph) (es : list EdgeType)
      (Q : list N) (X : uset) :
  (forall e, In e es -> In (target e) (targets g)) ->
  exists new,
    gain_neighbours g es (Q, X) = (Q ++ new, X ++ new) /\
    (NoDup X -> NoDup (X ++ new)) /\
    (forall y, In y new ->
               In y (map target es) /\ has_node g y = true) /\
    (forall e, In e es -> has_node g (target e) = true ->
               In (target e) (X ++ new)) /\
    (length (Q ++ new) + length (unseen g (X ++ new))
     <= length Q + length (unseen g X))%nat.
Proof.
  intros Hes. revert Q X.
  induction es as [| e es IH]; intros Q X; cbn [gain_neighbours].
  - exists []. rewrite !app_nil_r.
    split; [reflexivity |]. split; [auto |].
    split; [intros y [] |]. split; [intros e [] | lia].
  - assert (Hes' : forall e', In e' es -> In (target e') (targets g))
      by (intros e' He'; apply Hes; now right).
    specialize (IH Hes').
    destruct (mem (target e) X) eqn:Em; cbn [negb andb].
    + apply mem_In in Em. destruct (IH Q X) as (new & -> & H1 & H2 & H3 & H4).
      exists new.
      split; [reflexivity |]. split; [assumption |].
      split; [| split; [| assumption]].
      * intros y Hy. destruct (H2 y Hy). split; [now right | assumption].
      * intros e' [<- | He'] Hn; [apply in_app_iff; now left | now apply H3].
    + destruct (has_node g (target e)) eqn:Eh.
      * assert (Ei : insert (target e) X = X ++ [target e])
          by (unfold insert; now rewrite Em).
        apply mem_false in Em.
        destruct (IH (Q ++ [target e]) (insert (target e) X))
          as (new & -> & H1 & H2 & H3 & H4).
        exists (target e :: new). rewrite Ei in *.
        rewrite <- !app_assoc in *. cbn [app] in *.
        split; [reflexivity |].
        split; [| split; [| split]].
        -- intros Hnd. apply H1.
           replace (X ++ target e :: new) with ((X ++ [target e]) ++ new)
             in * by now rewrite <- app_assoc.
           apply NoDup_app; [assumption | repeat constructor; intros [] |].
           intros a Ha [<- | []]. contradiction.
        -- intros y [<- | Hy]; [split; [now left | assumption] |].
           destruct (H2 y Hy). split; [now right | assumption].
        -- intros e' [<- | He'] Hn; [| now apply H3].
           apply in_app_iff. right. now left.
        -- assert (Hlt : (length (unseen g (X ++ [target e]))
                          < length (unseen g X))%nat).
           { rewrite <- Ei. apply unseen_insert_lt.
             - apply Hes. now left.
             - now apply mem_false. }
           rewrite !length_app in *. cbn [length] in *. lia.
      * destruct (IH Q X) as (new & -> & H1 & H2 & H3 & H4).
        exists new.
        split; [reflexivity |]. split; [assumption |].
        split; [| split; [| assumption]].
        -- intros y Hy. destruct (H2 y Hy). split; [now right | assumption].
        -- intros e' [<- | He'] Hn; [congruence | now apply H3].
Qed.

Lemma closed_reach_present (g : Graph) (X : uset) (a b : N) :
  (forall p y, In p X -> arc_present g p y -> In y X) ->
  In a X -> reach_present g a b -> In b X.
Proof.
  intros Hc Ha H. apply clos_rt_rtn1 in H. induction H as [| y z Hyz _ IH].
  - assumption.
  - now apply (Hc y z).
Qed.

Lemma gain_loop_exact (g : Graph) (A_i D_i : uset) (ccl_i : cc_node_map)
      (v : N) (set : uset) (d0 : N) :
  mem v A_i && (length set =? 0)%nat = false ->
  forall (fuel : nat) (P Q : list N) (X : uset) (dv : N),
    gain_inv g ccl_i v d0 P Q X dv ->
    (length Q + length (unseen g X) < fuel)%nat ->
    exists visited,
      gain_loop fuel g A_i D_i ccl_i v set Q X dv
      = Ok (d0 + component_sizes ccl_i visited) /\
      NoDup visited /\
      forall x, In x visited <-> reach_present g v x.
Proof.
  intros Hun. induction fuel as [| fuel IH]; intros P Q X dv Hinv Hm; [lia |].
  destruct Hinv as (HX & Hnd & Hdv & Hcl & Hre & Hv).
  cbn [gain_loop]. destruct Q as [| u Q'].
  - rewrite app_nil_r in HX. subst X. exists P.
    split; [now rewrite Hdv |]. split; [assumption |].
    intros x. split; [apply Hre |]. now apply closed_reach_present.
  - assert (Hcond : mem v A_i && mem u D_i && (length set =? 0)%nat = false).
    { destruct (mem v A_i), (length set =? 0)%nat, (mem u D_i);
        cbn in *; congruence. }
    rewrite Hcond.
    assert (Hu : In u X) by (rewrite HX; apply in_app_iff; right; now left).
    destruct (has_neighbours g u) eqn:Hn.
    + destruct (gain_neighbours_new g (get_neighbours g u) Q' X
                  (neighbours_targets g u))
        as (new & -> & H1 & H2 & H3 & H4).
      apply (IH (P ++ [u])); [| cbn [length] in Hm; lia].
      unfold gain_inv. split; [| split; [| split; [| split; [| split]]]].
      * rewrite HX, <- !app_assoc. reflexivity.
      * now apply H1.
      * rewrite component_sizes_app, Hdv. unfold component_sizes at 3.
        cbn [fold_right]. lia.
      * intros p y Hp Hy. apply in_app_iff in Hp.
        destruct Hp as [Hp | [<- | []]].
        -- apply in_app_iff. left. now apply (Hcl p y).
        -- destruct Hy as [Ha Hh]. apply arc_target in Ha.
           destruct Ha as (_ & e & He & <-). now apply H3.
      * intros x Hx. apply in_app_iff in Hx. destruct Hx as [Hx | Hx];
          [now apply Hre |].
        destruct (H2 x Hx) as [Hin Hh]. apply in_map_iff in Hin.
        destruct Hin as (e & <- & He).
        apply rt_trans with u; [now apply Hre |]. apply rt_step.
        split; [| assumption]. apply arc_target.
        split; [assumption |]. now exists e.
      * apply in_app_iff. now left.
    + apply (IH (P ++ [u])); [| cbn [length] in Hm; lia].
      unfold gain_inv. split; [| split; [| split; [| split; [| split]]]];
        try assumption.
      * rewrite HX, <- app_assoc. reflexivity.
      * rewrite component_sizes_app, Hdv. unfold component_sizes at 3.
        cbn [fold_right]. lia.
      * intros p y Hp Hy. apply in_app_iff in Hp.
        destruct Hp as [Hp | [<- | []]]; [now apply (Hcl p y) |].
        destruct Hy as [[Ha _] _]. congruence.
Qed.

(** X6.  Outside the pruning case (the seed set is not empty, or the
    component [v] of the node is not in [A[i]]), a gain that is not served
    from the cache is the sum of the sizes of the components reached from
    [v] along arcs of [graphs[i]] into nodes that are still in the graph,
    [v] included, each counted once; [gain] returns it with fuel above the
    number of arcs by three. *)
Theorem gain_adds_up_the_reachable_components
        (fuel : nat) (i : nat) (node : N) (set : uset) (r : rounds)
        (cc_i : cc_map) (g : Graph) (latest_i : umap bool)
        (delta_i : umap N) (A_i D_i : uset) (ccl_i : cc_node_map) :
  vec_at (cc r) i = Ok cc_i ->
  vec_at (graphs r) i = Ok g ->
  vec_at (latest r) i = Ok latest_i ->
  vec_at (delta r) i = Ok delta_i ->
  vec_at (A r) i = Ok A_i ->
  vec_at (D r) i = Ok D_i ->
  vec_at (cc_list r) i = Ok ccl_i ->
  has_node g (get 0 node cc_i) = true ->
  get false (get 0 node cc_i) latest_i = false ->
  mem (get 0 node cc_i) A_i && (length set =? 0)%nat = false ->
  (S (S (S (length (targets g)))) < fuel)%nat ->
  exists visited r',
    gain fuel i node set r = Ok (component_sizes ccl_i visited, r') /\
    NoDup visited /\
    (forall x, In x visited <-> reach_present g (get 0 node cc_i) x) /\
    exists latest_i' delta_i',
      vec_at (latest r') i = Ok latest_i' /\
      get false (get 0 node cc_i) latest_i' = true /\
      vec_at (delta r') i = Ok delta_i' /\
      get 0 (get 0 node cc_i) delta_i' = component_sizes ccl_i visited.
Proof.
  intros Hcc Hg Hl Hd HA HD Hccl Hh Hv Hun Hf.
  destruct fuel as [| fuel]; [lia |]. cbn [gain].
  rewrite Hcc. cbn [bind]. rewrite Hg. cbn [bind]. rewrite Hh. cbn [negb].
  rewrite Hl, Hd. cbn [bind]. rewrite Hv.
  cbn [A D cc_list with_latest]. rewrite HA, HD, Hccl. cbn [bind].
  rewrite Hun. cbn [bind].
  destruct (gain_loop_exact g A_i D_i ccl_i (get 0 node cc_i) set 0 Hun fuel
              [] [get 0 node cc_i] (insert (get 0 node cc_i) []) 0)
    as (visited & Hloop & Hnd & Hvis).
  - unfold gain_inv. cbn.
    split; [reflexivity |].
    split; [repeat constructor; intros [] |].
    split; [reflexivity |].
    split; [intros p y [] |].
    split; [| now left].
    intros x [<- | []]. apply rt_refl.
  - cbn [length].
    assert (length (unseen g (insert (get 0%N node cc_i) []))
            <= length (targets g))%nat by apply filter_length_le.
    lia.
  - rewrite Hloop. cbn [bind delta with_latest]. rewrite Hd. cbn [bind].
    rewrite N.add_0_l.
    exists visited. eexists. split; [reflexivity |].
    split; [assumption |]. split; [assumption |].
    exists (assign (get 0 node cc_i) true latest_i),
      (assign (get 0 node cc_i) (component_sizes ccl_i visited) delta_i).
    cbn [latest delta with_latest with_delta].
    split; [now apply vec_at_set with latest_i |].
    split; [apply get_assign_same |].
    split; [now apply vec_at_set with delta_i | apply get_assign_same].
Qed.

(** ** select: the set it returns *)

Lemma select_step_inserts_candidate (fuel : nat) (graph : Graph)
      (activated : uset) (R : N) (set set' : uset) (r r' : rounds) :
  R <> 0 ->
  non_activated graph activated <> [] ->
  select_step fuel graph activated R set r = Ok (set', r') ->
  exists t, set' = insert t set /\ In t (non_activated graph activated).
Proof.
  intros HR Hne. unfold select_step. rewrite candidates_averages.
  intros H. apply bind_Ok in H. destruct H as ([b r1] & Hc & H).
  apply bind_Ok in Hc. destruct Hc as ([l r1'] & Ha & Hc).
  injection Hc as <- <-.
  apply bind_Ok in H. destruct H as (r2 & _ & H). injection H as <- <-.
  destruct (averages_candidates _ _ _ _ _ _ _ _ HR Ha) as (Hm & Hf).
  exists (fst (pick l (0, 0%Q))). split; [reflexivity |].
  unfold non_activated in *. rewrite <- Hm.
  destruct (pick_last_max l (0, 0%Q))
    as [[Hp Hl] | (l1 & t & m & l2 & El & Hp & _)].
  - exfalso. destruct l as [| [v a] l].
    + apply Hne. now rewrite <- Hm.
    + inversion Hf as [| ? ? (x & Hx & Hpos) _]; subst. cbn [snd] in Hx.
      subst a. specialize (Hl v x (or_introl eq_refl)). cbn [snd] in Hl.
      now apply Qlt_not_le in Hl.
  - rewrite Hp, El. cbn [fst]. rewrite map_app. apply in_app_iff.
    right. now left.
Qed.

Lemma select_loop_candidates (fuel inner : nat) (graph : Graph)
      (activated : uset) (k R : N) (set sel : uset) (r r' : rounds) :
  R <> 0 ->
  non_activated graph activated <> [] ->
  select_loop fuel inner graph activated k R set r = Ok (sel, r') ->
  incl set (non_activated graph activated) ->
  incl sel (non_activated graph activated).
Proof.
  intros HR Hne. revert set r.
  induction fuel as [| fuel IH]; intros set r; cbn [select_loop];
    [discriminate |].
  destruct (N.of_nat (length set) <? k).
  - intros H Hincl. apply bind_Ok in H. destruct H as ([set1 r1] & Hs & H).
    apply select_step_inserts_candidate in Hs; [| assumption | assumption].
    destruct Hs as (t & -> & Ht). apply IH in H; [assumption |].
    intros x Hx. apply In_insert in Hx. destruct Hx as [-> | Hx];
      [assumption | now apply Hincl].
  - intros [= <- <-] Hincl. assumption.
Qed.

Lemma samples_R (fuel : nat) (graph : Graph) (activated : uset)
      (ids : list nat) (e e' : OhsakaEvaluator) :
  samples fuel graph activated ids e = Ok e' -> R_ e' = R_ e.
Proof.
  revert e. induction ids as [| i ids IH]; intros e; cbn [samples].
  - now intros [= <-].
  - intros H. apply bind_Ok in H. destruct H as (e1 & Hs & H).
    apply IH in H. rewrite H. unfold sample in Hs.
    apply bind_Ok in Hs. destruct Hs as (e2 & Ht & Hs).
    repeat (apply bind_Ok in Hs; destruct Hs as (? & ? & Hs)).
    injection Hs as <-. cbn [R_]. unfold tarjan in Ht.
    apply bind_Ok in Ht. destruct Ht as (s & _ & Ht). now injection Ht as <-.
Qed.

(** X7.  A set that [select] returns has exactly [k] elements, all
    different, each of them node 0 or a node of the graph that is not
    activated.  When [R_] is not 0 and the graph has a node that is not
    activated, every element is such a node: the set is then disjoint from
    the activated set. *)
Theorem select_returns_k_distinct_candidates
        (fuel : nat) (graph : Graph) (activated : uset) (k : N)
        (e e' : OhsakaEvaluator) (sel : uset) :
  select fuel graph activated k e = Ok (sel, e') ->
  NoDup sel /\ N.of_nat (length sel) = k /\
  (forall x, In x sel ->
             x = 0 \/ (In x (get_nodes graph) /\ ~ In x activated)) /\
  (R_ e <> 0 -> non_activated graph activated <> [] ->
   forall x, In x sel -> In x (get_nodes graph) /\ ~ In x activated).
Proof.
  intros H.
  assert (Hna : forall x, In x (non_activated graph activated) ->
                          In x (get_nodes graph) /\ ~ In x activated).
  { intros x Hx. unfold non_activated in Hx. apply filter_In in Hx.
    destruct Hx as [Hx Hm]. split; [assumption |].
    apply negb_true_iff in Hm. now apply mem_false. }
  destruct (select_result _ _ _ _ _ _ _ H) as (Hnd & Hincl & Hlen).
  split; [assumption |]. split; [assumption |]. split.
  - intros x Hx. destruct (Hincl x Hx) as [<- | Hc]; [now left |].
    right. now apply Hna.
  - intros HR Hne x Hx. apply Hna.
    unfold select in H. apply bind_Ok in H. destruct H as (e1 & Hs & H).
    apply bind_Ok in H. destruct H as ([set r] & Hl & H).
    injection H as <- _. apply samples_R in Hs. cbn [R_] in Hs.
    apply select_loop_candidates in Hl;
      [now apply Hl | congruence | assumption | intros y []].
Qed.

(** ** select with R_ = 0 *)

Lemma candidates_without_samples (fuel : nat) (nodes : list N)
      (activated set : uset) (b : best) (r : rounds) :
  candidates fuel 0 nodes activated set b r = Ok (b, r).
Proof.
  induction nodes as [| v nodes IH]; cbn [candidates]; [reflexivity |].
  destruct (negb (mem v activated)); [| exact IH].
  cbn. unfold better. cbn. destruct b. exact IH.
Qed.

Lemma select_step_without_samples (fuel : nat) (graph : Graph)
      (activated set : uset) (r : rounds) :
  select_step fuel graph activated 0 set r = Ok (insert 0 set, r).
Proof.
  unfold select_step. rewrite candidates_without_samples. reflexivity.
Qed.

Lemma select_loop_stuck_at_0 (fuel inner : nat) (graph : Graph)
      (activated : uset) (k : N) (r : rounds) :
  2 <= k ->
  select_loop fuel inner graph activated k 0 [0] r = OutOfFuel.
Proof.
  intros Hk. induction fuel as [| fuel IH]; cbn [select_loop];
    [reflexivity |].
  replace (N.of_nat (length [0]) <? k) with true
    by (symmetry; apply N.ltb_lt; cbn; lia).
  rewrite select_step_without_samples. cbn [bind]. exact IH.
Qed.

(** X8.  An evaluator constructed with [R = 0] samples nothing, every
    averaged gain is NaN and no candidate is ever taken: whatever the
    graph and the activated set, [select] returns the empty set for
    [k = 0], the set {0} for [k = 1], and does not return for [k >= 2]. *)
Theorem select_without_samples
        (graph : Graph) (activated : uset) (e : OhsakaEvaluator) :
  R_ e = 0 ->
  (forall fuel, (1 <= fuel)%nat ->
                selected (select fuel graph activated 0 e) = Ok []) /\
  (forall fuel, (2 <= fuel)%nat ->
                selected (select fuel graph activated 1 e) = Ok [0]) /\
  (forall fuel k, 2 <= k ->
                  select fuel graph activated k e = OutOfFuel).
Proof.
  intros HR. unfold select. cbn [R_]. rewrite HR. cbn [N.to_nat seq samples bind R_ rs].
  split; [| split].
  - intros [| fuel] Hf; [lia |]. reflexivity.
  - intros [| [| fuel]] Hf; try lia. cbn [select_loop].
    replace (N.of_nat (length (@nil N)) <? 1) with true by reflexivity.
    rewrite select_step_without_samples. cbn [bind]. reflexivity.
  - intros fuel k Hk. destruct fuel as [| fuel]; [reflexivity |].
    cbn [select_loop].
    replace (N.of_nat (length (@nil N)) <? k) with true
      by (symmetry; apply N.ltb_lt; cbn; lia).
    rewrite select_step_without_samples. cbn [bind].
    replace (insert 0 []) with [0] by reflexivity.
    now rewrite select_loop_stuck_at_0.
Qed.

(** ** The hub *)

Lemma highest_degree_last_max (g : Graph) (nodes : list N)
      (max_node max_val : N) :
  (highest_degree g nodes max_node max_val = max_node /\
   forall n, In n nodes -> out_degree g n < max_val) \/
  exists l1 l2,
    nodes = l1 ++ highest_degree g nodes max_node max_val :: l2 /\
    max_val <= out_degree g (highest_degree g nodes max_node max_val) /\
    (forall n, In n l1 ->
       out_degree g n <= out_degree g (highest_degree g nodes max_node max_val)) /\
    (forall n, In n l2 ->
       out_degree g n < out_degree g (highest_degree g nodes max_node max_val)).
Proof.
  revert max_node max_val. induction nodes as [| node nodes IH];
    intros max_node max_val; cbn [highest_degree].
  - left. split; [reflexivity | intros n []].
  - fold (out_degree g node).
    destruct (N.leb_spec max_val (out_degree g node)) as [Hle | Hlt].
    + right. destruct (IH node (out_degree g node))
        as [[-> Hall] | (l1 & l2 & El & Hm & H1 & H2)].
      * exists [], nodes. split; [reflexivity |]. split; [assumption |].
        split; [intros n [] | assumption].
      * exists (node :: l1), l2. split; [cbn [app]; now f_equal |].
        split; [lia |]. split; [| assumption].
        intros n [<- | Hn]; [assumption | now apply H1].
    + destruct (IH max_node max_val)
        as [[-> Hall] | (l1 & l2 & El & Hm & H1 & H2)].
      * left. split; [reflexivity |].
        intros n [<- | Hn]; [assumption | now apply Hall].
      * right. exists (node :: l1), l2. split; [cbn [app]; now f_equal |].
        split; [assumption |]. split; [| assumption].
        intros n [<- | Hn]; [lia | now apply H1].
Qed.

(** X9.  The hub [h[i]] that [select] picks in a contracted graph with at
    least one node is a node of largest out-degree, and the last such node
    in the iteration order of the graph: no node has a larger out-degree,
    and every node after it has a smaller one.  In a graph without nodes
    the hub is 0. *)
Theorem hub_is_the_last_node_of_largest_degree (g : Graph) :
  (get_nodes g = [] -> highest_degree g (get_nodes g) 0 0 = 0) /\
  (get_nodes g <> [] ->
   exists l1 l2,
     get_nodes g = l1 ++ highest_degree g (get_nodes g) 0 0 :: l2 /\
     (forall n, In n (get_nodes g) ->
        out_degree g n <= out_degree g (highest_degree g (get_nodes g) 0 0)) /\
     (forall n, In n l2 ->
        out_degree g n < out_degree g (highest_degree g (get_nodes g) 0 0))).
Proof.
  split.
  - intros ->. reflexivity.
  - intros Hne.
    destruct (highest_degree_last_max g (get_nodes g) 0 0)
      as [[_ Hall] | (l1 & l2 & El & _ & H1 & H2)].
    + exfalso. destruct (get_nodes g) as [| n l]; [congruence |].
      specialize (Hall n (or_introl eq_refl)). lia.
    + exists l1, l2. split; [assumption |]. split; [| assumption].
      intros n Hn. rewrite El in Hn. apply in_app_iff in Hn.
      destruct Hn as [Hn | [<- | Hn]].
      * now apply H1.
      * lia.
      * apply N.lt_le_incl. now apply H2.
Qed.

(** ** The do-while of scc *)

Lemma In_keys_assign {V : Type} (k k' : N) (v : V) (m : umap V) :
  In k (keys (assign k' v m)) <-> k = k' \/ In k (keys m).
Proof.
  unfold keys. induction m as [| [k0 v0] m IH]; cbn [assign map In fst].
  - intuition.
  - destruct (k' =? k0) eqn:E; cbn [map In fst].
    + apply N.eqb_eq in E. subst k0. intuition.
    + rewrite IH. intuition.
Qed.

Lemma find_keys {V : Type} (k : N) (m : umap V) :
  In k (keys m) <-> find k m <> None.
Proof.
  unfold keys. induction m as [| [k0 v0] m IH]; cbn [find map In fst].
  - intuition.
  - destruct (N.eqb_spec k k0) as [-> | Hne].
    + split; [discriminate | now left].
    + rewrite <- IH. intuition congruence.
Qed.

Lemma pop_component_undefined (node : N) (stack : list N) (s : scc_vars) :
  ~ In node stack -> pop_component node stack s = Undefined.
Proof.
  revert s. induction stack as [| c stack IH]; intros s Hs;
    cbn [pop_component]; [reflexivity |].
  destruct (N.eqb_spec c node) as [-> | Hne]; [exfalso; apply Hs; now left |].
  apply IH. intros H. apply Hs. now right.
Qed.

Lemma pop_component_spec (node : N) (above below : list N) (s : scc_vars) :
  ~ In node above ->
  exists s',
    pop_component node (above ++ node :: below) s = Ok s' /\
    vis_stack (tvars s') = below /\
    cur_num_cc s' = cur_num_cc s /\
    (forall x, In x (above ++ [node]) ->
       get 0 x (cur_cc s') = cur_num_cc s /\
       In x (get [] (cur_num_cc s) (cur_cc_list s'))) /\
    (forall x, In x (visited (tvars s')) <->
               In x (visited (tvars s)) /\ ~ In x (above ++ [node])) /\
    (forall x, In x (get [] (cur_num_cc s) (cur_cc_list s)) ->
               In x (get [] (cur_num_cc s) (cur_cc_list s'))) /\
    (forall x, ~ In x (above ++ [node]) ->
       find x (cur_cc s') = find x (cur_cc s)).
Proof.
  revert s. induction above as [| a above IH]; intros s Hn;
    cbn [app pop_component].
  - rewrite N.eqb_refl. eexists. split; [reflexivity |]. cbn.
    split; [reflexivity |]. split; [reflexivity |].
    split; [| split; [| split]].
    + intros x [<- | []]. split; [apply get_assign_same |].
      rewrite get_assign_same. apply In_insert. now left.
    + intros x. rewrite In_erase. intuition congruence.
    + intros x Hx. rewrite get_assign_same. apply In_insert. now right.
    + intros x Hx. apply find_assign_other. intros Heq. apply Hx.
      left. congruence.
  - assert (Hne : a <> node) by (intros ->; apply Hn; now left).
    apply N.eqb_neq in Hne. rewrite Hne. apply N.eqb_neq in Hne.
    match goal with
    | |- context [pop_component node _ ?s1] =>
        destruct (IH s1 (fun H => Hn (or_intror H)))
          as (s' & Hp & Hst & Hnum & Hin & Hvis & Hmem & Hout)
    end.
    exists s'. split; [exact Hp |].
    cbn [cur_num_cc cur_cc cur_cc_list tvars visited] in *.
    split; [assumption |]. split; [assumption |].
    split; [| split; [| split]].
    + intros x Hx.
      destruct (in_dec N.eq_dec x (above ++ [node])) as [Ha | Ha];
        [now apply Hin |].
      destruct Hx as [<- | Hx]; [| contradiction].
      split.
      * unfold get. rewrite (Hout a Ha), find_assign_same. reflexivity.
      * apply Hmem. rewrite get_assign_same. apply In_insert. now left.
    + intros x. rewrite Hvis, In_erase. cbn [In]. intuition congruence.
    + intros x Hx. apply Hmem. rewrite get_assign_same.
      apply In_insert. now right.
    + intros x Hx. rewrite Hout by (intros H; apply Hx; now right).
      apply find_assign_other. intros ->. apply Hx. now left.
Qed.

(** X10.  The do-while of [scc] on a stack that holds [node]: it pops the
    nodes above [node] and [node] itself, and nothing below; every node
    popped gets the component number [cur_num_cc], joins the member set of
    that component and leaves [visited]; the component of every other node
    and the earlier members of the set stay as they were.  On a stack that
    does not hold [node] the loop runs off the end of the stack. *)
Theorem pop_component_pops_down_to_node
        (node : N) (above below : list N) (s : scc_vars) :
  ~ In node above ->
  (exists s',
    pop_component node (above ++ node :: below) s = Ok s' /\
    vis_stack (tvars s') = below /\
    cur_num_cc s' = cur_num_cc s /\
    (forall x, In x (above ++ [node]) ->
       get 0 x (cur_cc s') = cur_num_cc s /\
       In x (get [] (cur_num_cc s) (cur_cc_list s'))) /\
    (forall x, In x (visited (tvars s')) <->
               In x (visited (tvars s)) /\ ~ In x (above ++ [node])) /\
    (forall x, In x (get [] (cur_num_cc s) (cur_cc_list s)) ->
               In x (get [] (cur_num_cc s) (cur_cc_list s'))) /\
    (forall x, ~ In x (above ++ [node]) ->
       find x (cur_cc s') = find x (cur_cc s))) /\
  pop_component node above s = Undefined.
Proof.
  intros Hn. split; [now apply pop_component_spec |].
  now apply pop_component_undefined.
Qed.

(** ** The contracted graph *)

Lemma arc_add_node (g : Graph) (n a b : N) :
  arc (add_node g n) a b <-> arc g a b.
Proof. reflexivity. Qed.

Lemma has_node_add_node (g : Graph) (n x : N) :
  has_node (add_node g n) x = true <-> x = n \/ has_node g x = true.
Proof.
  unfold has_node, add_node. cbn [node_set]. now rewrite !mem_In, In_insert.
Qed.

Lemma arc_neighbours (g : Graph) (a b : N) :
  arc g a b <-> In b (map target (get_neighbours g a)).
Proof.
  unfold arc, has_neighbours, get_neighbours, get.
  destruct (find a (adj_list g)); cbn; intuition.
Qed.

Lemma arc_add_edge (g : Graph) (u v : N) (d : Q) (a b : N) :
  arc (add_edge g u v d) a b <-> arc g a b \/ (a = u /\ b = v).
Proof.
  rewrite !arc_neighbours. unfold get_neighbours, add_edge. cbn [adj_list].
  destruct (N.eq_dec a u) as [-> | Hne].
  - rewrite get_assign_same, map_app, in_app_iff. cbn. intuition.
  - rewrite get_assign_other by assumption. intuition congruence.
Qed.

Lemma has_node_add_edge (g : Graph) (u v : N) (d : Q) (x : N) :
  has_node (add_edge g u v d) x = true <->
  x = u \/ x = v \/ has_node g x = true.
Proof.
  unfold has_node, add_edge. cbn [node_set]. rewrite !mem_In, !In_insert.
  tauto.
Qed.

Lemma create_dag_from (cur_cc : cc_map) (pred : umap N) (g0 : Graph) :
  let dag :=
    fold_left
      (fun dag (val : N * N) =>
         let dag := add_node dag (fst val) in
         if negb (get 0 (snd val) cur_cc =? get 0 (fst val) cur_cc) then
           add_edge dag (get 0 (snd val) cur_cc) (get 0 (fst val) cur_cc) 1%Q
         else dag)
      pred g0 in
  (forall a b,
      arc dag a b <->
      arc g0 a b \/
      exists v p, In (v, p) pred /\ a = get 0 p cur_cc /\
                  b = get 0 v cur_cc /\ a <> b) /\
  (forall x,
      has_node dag x = true <->
      has_node g0 x = true \/
      exists v p, In (v, p) pred /\
                  (x = v \/
                   (get 0 p cur_cc <> get 0 v cur_cc /\
                    (x = get 0 p cur_cc \/ x = get 0 v cur_cc)))).
Proof.
  revert g0. induction pred as [| [v p] pred IH]; intros g0; cbn [fold_left].
  - split; intros; split; try tauto.
    + intros [? | (? & ? & [] & _)]; assumption.
    + intros [? | (? & ? & [] & _)]; assumption.
  - cbn [fst snd].
    destruct (N.eqb_spec (get 0 p cur_cc) (get 0 v cur_cc)) as [E | E];
      cbn [negb];
      match goal with
      | |- context [fold_left _ pred ?g1] => destruct (IH g1) as [Ha Hn]
      end; cbn zeta in Ha, Hn |- *; split.
    + intros a b. rewrite Ha, arc_add_node. split.
      * intros [H0 | (v' & p' & Hin & H)]; [now left |].
        right. exists v', p'. split; [now right | assumption].
      * intros [H0 | (v' & p' & Hin & H1 & H2 & H3)]; [now left |].
        destruct Hin as [[= <- <-] | Hin]; [congruence |].
        right. now exists v', p'.
    + intros x. rewrite Hn, has_node_add_node. split.
      * intros [[-> | H0] | (v' & p' & Hin & H)].
        -- right. exists v, p. split; [now left | now left].
        -- now left.
        -- right. exists v', p'. split; [now right | assumption].
      * intros [H0 | (v' & p' & Hin & Hx)].
        -- left. now right.
        -- destruct Hin as [[= <- <-] | Hin].
           ++ destruct Hx as [-> | [Hx _]]; [left; now left | congruence].
           ++ right. now exists v', p'.
    + intros a b. rewrite Ha, arc_add_edge, arc_add_node. split.
      * intros [[H0 | [-> ->]] | (v' & p' & Hin & H)].
        -- now left.
        -- right. exists v, p. split; [now left | auto].
        -- right. exists v', p'. split; [now right | assumption].
      * intros [H0 | (v' & p' & Hin & H1 & H2 & H3)].
        -- left. now left.
        -- destruct Hin as [[= <- <-] | Hin].
           ++ left. right. now split.
           ++ right. now exists v', p'.
    + intros x. rewrite Hn, has_node_add_edge, has_node_add_node. split.
      * intros [[-> | [-> | [-> | H0]]] | (v' & p' & Hin & H)].
        -- right. exists v, p. split; [now left | right; auto].
        -- right. exists v, p. split; [now left | right; auto].
        -- right. exists v, p. split; [now left | now left].
        -- now left.
        -- right. exists v', p'. split; [now right | assumption].
      * intros [H0 | (v' & p' & Hin & Hx)].
        -- left. auto.
        -- destruct Hin as [[= <- <-] | Hin].
           ++ left. destruct Hx as [-> | [_ [-> | ->]]]; auto.
           ++ right. now exists v', p'.
Qed.

(** X11.  The graph [tarjan] builds from [pred] and the component map: it
    has an arc from [a] to [b] exactly when some node and its predecessor
    in the search lie in the components [b] and [a] and these differ (so
    no arc is a loop); its nodes are the keys of [pred], which are node
    ids of the input graph, together with the component numbers at the
    ends of its arcs. *)
Theorem create_dag_arcs_and_nodes (cur_cc : cc_map) (pred : umap N) :
  (forall a b,
      arc (create_dag cur_cc pred) a b <->
      exists v p, In (v, p) pred /\ a = get 0 p cur_cc /\
                  b = get 0 v cur_cc /\ a <> b) /\
  (forall x,
      has_node (create_dag cur_cc pred) x = true <->
      In x (keys pred) \/
      exists y, arc (create_dag cur_cc pred) x y \/
                arc (create_dag cur_cc pred) y x).
Proof.
  destruct (create_dag_from cur_cc pred empty_graph) as [Ha Hn].
  cbn zeta in Ha, Hn. fold (create_dag cur_cc pred) in Ha, Hn.
  assert (Ha' : forall a b,
             arc (create_dag cur_cc pred) a b <->
             exists v p, In (v, p) pred /\ a = get 0 p cur_cc /\
                         b = get 0 v cur_cc /\ a <> b).
  { intros a b. rewrite Ha. split; [| now right].
    intros [[H _] | H]; [discriminate | assumption]. }
  split; [exact Ha' |].
  intros x. rewrite Hn. split.
  - intros [H | (v & p & Hin & [-> | [Hne [-> | ->]]])]; [discriminate | | |].
    + left. unfold keys. apply in_map_iff. now exists (v, p).
    + right. exists (get 0 v cur_cc). left. apply Ha'. now exists v, p.
    + right. exists (get 0 p cur_cc). right. apply Ha'. now exists v, p.
  - intros [H | (y & [H | H])]; right.
    + unfold keys in H. apply in_map_iff in H. destruct H as ([v p] & <- & Hin).
      exists v, p. split; [assumption | now left].
    + apply Ha' in H. destruct H as (v & p & Hin & -> & -> & Hne).
      exists v, p. split; [assumption |]. right. auto.
    + apply Ha' in H. destruct H as (v & p & Hin & -> & -> & Hne).
      exists v, p. split; [assumption |]. right. auto.
Qed.

(** ** tarjan and scc: what they keep *)

Lemma scc_unfold (fuel : nat) (node : N) (graph : Graph) (s : scc_vars) :
  scc (S fuel) node graph s
  = (let s0 := with_tvars (enter node (tvars s)) s in
     s1 <- (if has_neighbours graph node
            then scc_edges (fun t s => scc fuel t graph s) node
                           (get_neighbours graph node) s0
            else Ok s0) ;;
     let t := tvars s1 in
     if get 0 node (lowlink t) =? get 0 node (index t) then
       s2 <- pop_component node (vis_stack t) s1 ;;
       Ok {| tvars := tvars s2; rng := rng s2; cur_cc := cur_cc s2;
             cur_cc_list := cur_cc_list s2;
             cur_num_cc := cur_num_cc s2 + 1 |}
     else Ok s1).
Proof. reflexivity. Qed.

Lemma grows_refl (s : scc_vars) : grows s s.
Proof. repeat split; auto using incl_refl. Qed.

Lemma grows_trans (s1 s2 s3 : scc_vars) :
  grows s1 s2 -> grows s2 s3 -> grows s1 s3.
Proof.
  intros (A1 & A2 & A3 & A4) (B1 & B2 & B3 & B4). repeat split.
  - congruence.
  - lia.
  - eapply incl_tran; eassumption.
  - eapply incl_tran; eassumption.
Qed.

Lemma pop_component_keeps (node : N) (stack : list N) (s s' : scc_vars) :
  pop_component node stack s = Ok s' ->
  rng s' = rng s /\ pred (tvars s') = pred (tvars s) /\
  index (tvars s') = index (tvars s).
Proof.
  revert s. induction stack as [| c stack IH]; intros s; cbn [pop_component];
    [discriminate |].
  destruct (c =? node).
  - intros [= <-]. cbn. auto.
  - intros H. apply IH in H. cbn in H. exact H.
Qed.

Lemma scc_edges_grows (rec : N -> scc_vars -> result scc_vars) (node : N) :
  (forall t s s', rec t s = Ok s' ->
     grows s s' /\
     (indexed_have_pred s -> In t (keys (pred (tvars s))) ->
      indexed_have_pred s')) ->
  forall es s s',
    scc_edges rec node es s = Ok s' ->
    grows s s' /\ (indexed_have_pred s -> indexed_have_pred s').
Proof.
  intros Hrec. induction es as [| edge es IH]; intros s s'; cbn [scc_edges].
  - intros [= <-]. split; [apply grows_refl | auto].
  - unfold draw. cbn [with_rng tvars rng].
    assert (Hd : forall s1 : scc_vars,
               grows s1 s' /\ (indexed_have_pred s1 -> indexed_have_pred s') ->
               tvars s1 = tvars s ->
               draws (rng s1) = draws (rng s) ->
               drawn (rng s1) = S (drawn (rng s)) ->
               grows s s' /\ (indexed_have_pred s -> indexed_have_pred s')).
    { intros s1 [(G1 & G2 & G3 & G4) Hi] Et Ed En.
      unfold grows, indexed_have_pred in *. rewrite Et in *.
      repeat split; try assumption; try congruence. lia. }
    destruct (Qlt_bool _ _).
    + destruct (find (target edge) (index (tvars s))) eqn:Ef.
      * intros H. apply IH in H. destruct H as [(G1 & G2 & G3 & G4) Hi].
        unfold grows, indexed_have_pred in *. cbn in *.
        repeat split; try assumption; try lia. 
      * intros H. apply bind_Ok in H. destruct H as (s1 & Hr & H).
        apply Hrec in Hr. destruct Hr as [(R1 & R2 & R3 & R4) Hri].
        apply IH in H. destruct H as [(G1 & G2 & G3 & G4) Hi].
        unfold grows, indexed_have_pred in *. cbn in *.
        assert (Hp : incl (keys (pred (tvars s)))
                          (keys (assign (target edge) node (pred (tvars s))))).
        { intros x Hx. apply In_keys_assign. now right. }
        repeat split.
        -- congruence.
        -- lia.
        -- eapply incl_tran; [exact Hp |]. eapply incl_tran; eassumption.
        -- eapply incl_tran; eassumption.
        -- intros Hs. apply Hi, Hri.
           ++ eapply incl_tran; eassumption.
           ++ apply In_keys_assign. now left.
    + intros H. apply IH in H. apply (Hd _ H); reflexivity.
Qed.

Lemma scc_grows (fuel : nat) (graph : Graph) :
  forall node s s',
    scc fuel node graph s = Ok s' ->
    grows s s' /\ In node (keys (index (tvars s'))) /\
    (indexed_have_pred s -> In node (keys (pred (tvars s))) ->
     indexed_have_pred s').
Proof.
  induction fuel as [| fuel IH]; intros node s s'; [discriminate |].
  rewrite scc_unfold. cbn zeta. intros H.
  apply bind_Ok in H. destruct H as (s1 & H1 & H).
  set (s0 := with_tvars (enter node (tvars s)) s) in *.
  assert (G0 : grows s s0 /\ In node (keys (index (tvars s0))) /\
               (indexed_have_pred s -> In node (keys (pred (tvars s))) ->
                indexed_have_pred s0)).
  { unfold grows, indexed_have_pred. subst s0. cbn.
    split; [| split].
    - repeat split; auto using incl_refl.
      intros x Hx. apply In_keys_assign. now right.
    - apply In_keys_assign. now left.
    - intros Hi Hn x Hx. apply In_keys_assign in Hx.
      destruct Hx as [-> | Hx]; [assumption | now apply Hi]. }
  destruct G0 as (G0 & N0 & I0).
  assert (G1 : grows s0 s1 /\ (indexed_have_pred s0 -> indexed_have_pred s1)).
  { destruct (has_neighbours graph node).
    - apply (scc_edges_grows (fun t s => scc fuel t graph s) node) in H1;
        [assumption |].
      intros t sa sb Hr. apply IH in Hr. tauto.
    - injection H1 as <-. split; [apply grows_refl | auto]. }
  destruct G1 as (G1 & I1).
  assert (G : grows s s1) by (eapply grows_trans; eassumption).
  assert (Hfin : forall s2 : scc_vars,
             rng s2 = rng s1 -> pred (tvars s2) = pred (tvars s1) ->
             index (tvars s2) = index (tvars s1) ->
             grows s s2 /\ In node (keys (index (tvars s2))) /\
             (indexed_have_pred s -> In node (keys (pred (tvars s))) ->
              indexed_have_pred s2)).
  { intros s2 E1 E2 E3. destruct G as (A1 & A2 & A3 & A4).
    destruct G1 as (B1 & B2 & B3 & B4).
    unfold grows, indexed_have_pred in *. rewrite E1, E2, E3.
    repeat split; try assumption.
    - now apply B4.
    - intros Hi Hn. apply I1. now apply I0. }
  destruct (get 0 node (lowlink (tvars s1)) =? get 0 node (index (tvars s1))).
  - apply bind_Ok in H. destruct H as (s2 & Hp & H). injection H as <-.
    apply pop_component_keeps in Hp. destruct Hp as (E1 & E2 & E3).
    apply Hfin; cbn; assumption.
  - injection H as <-. apply Hfin; reflexivity.
Qed.

Lemma tarjan_roots_grows (fuel : nat) (graph : Graph) (nodes : list N)
      (s s' : scc_vars) :
  tarjan_roots fuel graph nodes s = Ok s' ->
  grows s s' /\
  (forall v, In v nodes -> In v (keys (index (tvars s')))) /\
  (indexed_have_pred s -> indexed_have_pred s').
Proof.
  revert s. induction nodes as [| node nodes IH]; intros s; cbn [tarjan_roots].
  - intros [= <-]. split; [apply grows_refl |]. split; [intros v [] | auto].
  - destruct (find node (index (tvars s))) eqn:Ef.
    + intros H. apply IH in H. destruct H as (G & Hall & Hi).
      split; [assumption |]. split; [| assumption].
      intros v [<- | Hv]; [| now apply Hall].
      destruct G as (_ & _ & _ & G4). apply G4, find_keys. congruence.
    + intros H. apply bind_Ok in H. destruct H as (s1 & Hs & H).
      apply scc_grows in Hs. destruct Hs as (G1 & N1 & I1).
      apply IH in H. destruct H as (G & Hall & Hi).
      assert (G0 : grows s (with_tvars (set_pred node node (tvars s)) s)).
      { unfold grows. cbn. repeat split; auto using incl_refl.
        intros x Hx. apply In_keys_assign. now right. }
      split; [eapply grows_trans; [exact G0 |];
              eapply grows_trans; eassumption |].
      split.
      * intros v [<- | Hv]; [| now apply Hall].
        destruct G as (_ & _ & _ & G4). now apply G4.
      * intros Hs. apply Hi, I1.
        -- unfold indexed_have_pred in *. cbn. intros x Hx.
           apply In_keys_assign. right. now apply Hs.
        -- cbn. apply In_keys_assign. now left.
Qed.

Lemma tarjan_spec (fuel : nat) (graph : Graph) (e e' : OhsakaEvaluator) :
  tarjan fuel graph e = Ok e' ->
  exists c cl dag,
    rs e' = push_sample c cl dag (rs e) /\
    (forall v, In v (get_nodes graph) -> has_node dag v = true) /\
    (forall a b, arc dag a b -> a <> b) /\
    vis_stack (tv e') = [] /\ R_ e' = R_ e /\
    draws (gen e') = draws (gen e) /\
    (drawn (gen e) <= drawn (gen e'))%nat.
Proof.
  unfold tarjan. intros H. apply bind_Ok in H. destruct H as (s & Hr & H).
  injection H as <-. cbn [rs tv R_ gen vis_stack].
  apply tarjan_roots_grows in Hr. destruct Hr as ((G1 & G2 & _ & _) & Hall & Hi).
  cbn [rng tvars] in G1, G2.
  exists (cur_cc s), (cur_cc_list s), (create_dag (cur_cc s) (pred (tvars s))).
  split; [reflexivity |].
  destruct (create_dag_from (cur_cc s) (pred (tvars s)) empty_graph)
    as [Ha Hn]. cbn zeta in Ha, Hn.
  fold (create_dag (cur_cc s) (pred (tvars s))) in Ha, Hn.
  split; [| split; [| repeat split; assumption]].
  - intros v Hv. apply Hn. right.
    assert (Hk : In v (keys (pred (tvars s)))).
    { apply Hi; [intros x [] | now apply Hall]. }
    unfold keys in Hk. apply in_map_iff in Hk.
    destruct Hk as ([v' p] & <- & Hin). exists v', p.
    split; [assumption | now left].
  - intros a b Hab. apply Ha in Hab.
    destruct Hab as [[Hab _] | (v & p & _ & -> & -> & Hne)];
      [discriminate | assumption].
Qed.

(** X12.  A call of [tarjan] that returns has appended one component map,
    one member map and one graph to the three vectors, left the stack
    empty, and only advanced the generator.  Every node id of the input
    graph is a node of the graph appended (whether or not it is a
    component number), and no arc of that graph is a loop. *)
Theorem tarjan_appends_one_sample
        (fuel : nat) (graph : Graph) (e e' : OhsakaEvaluator) :
  tarjan fuel graph e = Ok e' ->
  exists c cl dag,
    rs e' = push_sample c cl dag (rs e) /\
    (forall v, In v (get_nodes graph) -> has_node dag v = true) /\
    (forall a b, arc dag a b -> a <> b) /\
    vis_stack (tv e') = [] /\ R_ e' = R_ e /\
    draws (gen e') = draws (gen e) /\
    (drawn (gen e) <= drawn (gen e'))%nat.
Proof. apply tarjan_spec. Qed.

(** ** tarjan: the numbers it draws *)

Lemma keys_assign_new {V : Type} (k : N) (v : V) (m : umap V) :
  find k m = None -> keys (assign k v m) = keys m ++ [k].
Proof.
  unfold keys. induction m as [| [k0 v0] m IH]; cbn [find assign map fst app].
  - reflexivity.
  - destruct (k =? k0); [discriminate |]. intros H. cbn [map fst].
    now rewrite IH.
Qed.

Lemma arcs_at_app (g : Graph) (l1 l2 : list N) :
  arcs_at g (l1 ++ l2) = (arcs_at g l1 + arcs_at g l2)%nat.
Proof.
  unfold arcs_at. induction l1 as [| a l1 IH]; cbn [app fold_right].
  - reflexivity.
  - rewrite IH. lia.
Qed.

Lemma scc_edges_draws (g : Graph)
      (rec : N -> scc_vars -> result scc_vars) (node : N) :
  (forall t s s', find t (index (tvars s)) = None -> rec t s = Ok s' ->
     (drawn (rng s') + arcs_at g (keys (index (tvars s))))%nat
     = (drawn (rng s) + arcs_at g (keys (index (tvars s'))))%nat) ->
  forall es s s',
    scc_edges rec node es s = Ok s' ->
    (drawn (rng s') + arcs_at g (keys (index (tvars s))))%nat
    = (drawn (rng s) + length es + arcs_at g (keys (index (tvars s'))))%nat.
Proof.
  intros Hrec. induction es as [| edge es IH]; intros s s'; cbn [scc_edges].
  - intros [= <-]. cbn [length]. lia.
  - unfold draw. cbn [with_rng tvars rng length].
    destruct (Qlt_bool _ _).
    + destruct (find (target edge) (index (tvars s))) eqn:Ef.
      * intros H. apply IH in H. cbn [rng tvars with_tvars with_rng set_lowlink set_pred index drawn draws] in H. lia.
      * intros H. apply bind_Ok in H. destruct H as (s1 & Hr & H).
        apply Hrec in Hr; [| exact Ef]. apply IH in H. cbn [rng tvars with_tvars with_rng set_lowlink set_pred index drawn draws] in H, Hr. lia.
    + intros H. apply IH in H. cbn [rng tvars with_tvars with_rng set_lowlink set_pred index drawn draws] in H. lia.
Qed.

Lemma scc_draws (fuel : nat) (graph : Graph) :
  forall node s s',
    find node (index (tvars s)) = None ->
    scc fuel node graph s = Ok s' ->
    (drawn (rng s') + arcs_at graph (keys (index (tvars s))))%nat
    = (drawn (rng s) + arcs_at graph (keys (index (tvars s'))))%nat.
Proof.
  induction fuel as [| fuel IH]; intros node s s' Hnew; [discriminate |].
  rewrite scc_unfold. cbn zeta. intros H.
  apply bind_Ok in H. destruct H as (s1 & H1 & H).
  assert (E1 : (drawn (rng s1) + arcs_at graph (keys (index (tvars s))))%nat
               = (drawn (rng s) + arcs_at graph (keys (index (tvars s1))))%nat).
  { assert (E0 : arcs_at graph
                   (keys (index (tvars (with_tvars (enter node (tvars s)) s))))
                 = (arcs_at graph (keys (index (tvars s)))
                    + N.to_nat (out_degree graph node))%nat).
    { cbn [tvars with_tvars enter index].
      rewrite (keys_assign_new _ _ _ Hnew), arcs_at_app. cbn [arcs_at fold_right].
      lia. }
    unfold out_degree in E0.
    destruct (has_neighbours graph node).
    - apply (scc_edges_draws graph) in H1.
      + cbn [rng with_tvars] in H1. rewrite Nat2N.id in E0. lia.
      + intros t sa sb Ht Hr. now apply (IH t).
    - injection H1 as <-. cbn [rng with_tvars]. rewrite E0. cbn [N.to_nat]. lia. }
  destruct (get 0 node (lowlink (tvars s1)) =? get 0 node (index (tvars s1))).
  - apply bind_Ok in H. destruct H as (s2 & Hp & H). injection H as <-.
    apply pop_component_keeps in Hp. destruct Hp as (P1 & P2 & P3).
    cbn [rng tvars]. rewrite P1, P3. exact E1.
  - injection H as <-. exact E1.
Qed.

Lemma tarjan_roots_draws (fuel : nat) (graph : Graph) (nodes : list N)
      (s s' : scc_vars) :
  tarjan_roots fuel graph nodes s = Ok s' ->
  (drawn (rng s') + arcs_at graph (keys (index (tvars s))))%nat
  = (drawn (rng s) + arcs_at graph (keys (index (tvars s'))))%nat.
Proof.
  revert s. induction nodes as [| node nodes IH]; intros s; cbn [tarjan_roots].
  - intros [= <-]. reflexivity.
  - destruct (find node (index (tvars s))) eqn:Ef.
    + apply IH.
    + intros H. apply bind_Ok in H. destruct H as (s1 & Hs & H).
      apply scc_draws in Hs; [| exact Ef]. apply IH in H.
      cbn [rng tvars with_tvars set_pred index] in Hs. lia.
Qed.

Lemma NoDup_keys_assign {V : Type} (k : N) (v : V) (m : umap V) :
  NoDup (keys m) -> NoDup (keys (assign k v m)).
Proof.
  unfold keys. induction m as [| [k0 v0] m IH]; cbn [assign map fst].
  - intros _. constructor; [intros [] | constructor].
  - intros Hnd. inversion Hnd as [| ? ? Hnot Hnd']; subst.
    destruct (N.eqb_spec k k0) as [-> | Hne]; cbn [map fst].
    + constructor; assumption.
    + constructor; [| now apply IH].
      intros Hin. apply (In_keys_assign k0 k v m) in Hin.
      destruct Hin as [-> | Hin]; [congruence | now apply Hnot].
Qed.

Section SccIndex.

Variable graph : Graph.
Variable P : umap N -> Prop.
Hypothesis P_assign :
  forall k c m,
    In k (get_nodes graph) \/ In k (targets graph) ->
    P m -> P (assign k c m).

Lemma scc_edges_index (rec : N -> scc_vars -> result scc_vars) (node : N) :
  (forall t s s', In t (targets graph) -> rec t s = Ok s' ->
     P (index (tvars s)) -> P (index (tvars s'))) ->
  forall es s s',
    (forall e, In e es -> In (target e) (targets graph)) ->
    scc_edges rec node es s = Ok s' ->
    P (index (tvars s)) -> P (index (tvars s')).
Proof.
  intros Hrec. induction es as [| edge es IH]; intros s s' Hes;
    cbn [scc_edges].
  - now intros [= <-].
  - assert (Hes' : forall e, In e es -> In (target e) (targets graph))
      by (intros e He; apply Hes; now right).
    unfold draw. cbn [with_rng tvars rng].
    destruct (Qlt_bool _ _).
    + destruct (find (target edge) (index (tvars s))) eqn:Ef.
      * intros H HP. apply (IH _ _ Hes' H). exact HP.
      * intros H HP. apply bind_Ok in H. destruct H as (s1 & Hr & H).
        apply (IH _ _ Hes' H). cbn [tvars with_tvars set_lowlink index].
        apply (Hrec _ _ _ (Hes edge (or_introl eq_refl)) Hr). exact HP.
    + intros H HP. apply (IH _ _ Hes' H). exact HP.
Qed.

Lemma scc_index (fuel : nat) :
  forall node s s',
    In node (get_nodes graph) \/ In node (targets graph) ->
    scc fuel node graph s = Ok s' ->
    P (index (tvars s)) -> P (index (tvars s')).
Proof.
  induction fuel as [| fuel IH]; intros node s s' Hn; [discriminate |].
  rewrite scc_unfold. cbn zeta. intros H HP.
  apply bind_Ok in H. destruct H as (s1 & H1 & H).
  assert (P1 : P (index (tvars s1))).
  { assert (P0 : P (index (tvars (with_tvars (enter node (tvars s)) s)))).
    { cbn [tvars with_tvars enter index]. now apply P_assign. }
    destruct (has_neighbours graph node).
    - apply (scc_edges_index _ _) in H1; [assumption | | | assumption].
      + intros t sa sb Ht. apply IH. now right.
      + intros e. apply neighbours_targets.
    - now injection H1 as <-. }
  destruct (get 0 node (lowlink (tvars s1)) =? get 0 node (index (tvars s1))).
  - apply bind_Ok in H. destruct H as (s2 & Hp & H). injection H as <-.
    apply pop_component_keeps in Hp. destruct Hp as (_ & _ & E).
    cbn [tvars]. now rewrite E.
  - now injection H as <-.
Qed.

Lemma tarjan_roots_index (fuel : nat) (nodes : list N) (s s' : scc_vars) :
  incl nodes (get_nodes graph) ->
  tarjan_roots fuel graph nodes s = Ok s' ->
  P (index (tvars s)) -> P (index (tvars s')).
Proof.
  revert s. induction nodes as [| node nodes IH]; intros s Hincl;
    cbn [tarjan_roots].
  - now intros [= <-].
  - assert (Hincl' : incl nodes (get_nodes graph))
      by (intros x Hx; apply Hincl; now right).
    destruct (find node (index (tvars s))).
    + now apply IH.
    + intros H HP. apply bind_Ok in H. destruct H as (s1 & Hs & H).
      apply (IH _ Hincl' H).
      apply (scc_index _ _ _ _ (or_introl (Hincl node (or_introl eq_refl))) Hs).
      exact HP.
Qed.

End SccIndex.

Lemma tarjan_draws (fuel : nat) (graph : Graph) (e e' : OhsakaEvaluator) :
  tarjan fuel graph e = Ok e' ->
  drawn (gen e')
  = (drawn (gen e) + arcs_at graph (keys (index (tv e'))))%nat /\
  NoDup (keys (index (tv e'))) /\
  (forall v, In v (get_nodes graph) -> In v (keys (index (tv e')))) /\
  (forall v, In v (keys (index (tv e'))) ->
             In v (get_nodes graph) \/ In v (targets graph)).
Proof.
  unfold tarjan. intros H. apply bind_Ok in H. destruct H as (s & Hr & H).
  injection H as <-. cbn [tv gen index].
  pose proof (tarjan_roots_draws _ _ _ _ _ Hr) as Hd.
  pose proof (tarjan_roots_grows _ _ _ _ _ Hr) as (_ & Hall & _).
  cbn [rng tvars index keys map arcs_at fold_right] in Hd. split; [lia |].
  assert (HP : NoDup (keys (index (tvars s))) /\
               forall v, In v (keys (index (tvars s))) ->
                         In v (get_nodes graph) \/ In v (targets graph)).
  { refine (tarjan_roots_index graph
              (fun m => NoDup (keys m) /\
                        forall v, In v (keys m) ->
                                  In v (get_nodes graph) \/
                                  In v (targets graph))
              _ fuel (get_nodes graph) _ s (incl_refl _) Hr _).
    - intros k c m Hk [Hnd Hm]. split; [now apply NoDup_keys_assign |].
      intros v Hv. apply In_keys_assign in Hv.
      destruct Hv as [-> | Hv]; [assumption | now apply Hm].
    - cbn. split; [constructor | intros v []]. }
  destruct HP as [Hnd Hk]. split; [exact Hnd |]. split; assumption.
Qed.

(** X13.  A call of [tarjan] that returns has drawn exactly one number for
    every arc stored at a node it has indexed, whatever the numbers drawn
    are.  It has indexed every node of the graph, no node twice, and
    besides them only targets of arcs. *)
Theorem tarjan_draws_once_per_arc
        (fuel : nat) (graph : Graph) (e e' : OhsakaEvaluator) :
  tarjan fuel graph e = Ok e' ->
  drawn (gen e')
  = (drawn (gen e) + arcs_at graph (keys (index (tv e'))))%nat /\
  NoDup (keys (index (tv e'))) /\
  (forall v, In v (get_nodes graph) -> In v (keys (index (tv e')))) /\
  (forall v, In v (keys (index (tv e'))) ->
             In v (get_nodes graph) \/ In v (targets graph)).
Proof. apply tarjan_draws. Qed.

(** ** select: what the sampling and the main loop leave *)

Lemma main_loop_frame_refl (r : rounds) : main_loop_frame r r.
Proof. repeat split. Qed.

Lemma main_loop_frame_trans (r1 r2 r3 : rounds) :
  main_loop_frame r1 r2 -> main_loop_frame r2 r3 -> main_loop_frame r1 r3.
Proof.
  unfold main_loop_frame.
  intros (A1 & A2 & A3 & A4 & A5 & A6 & A7 & A8)
         (B1 & B2 & B3 & B4 & B5 & B6 & B7 & B8).
  repeat split; congruence.
Qed.

Lemma gain_lengths (fuel : nat) (i : nat) (node : N) (set : uset)
      (r r' : rounds) (d : N) :
  gain fuel i node set r = Ok (d, r') ->
  length (latest r') = length (latest r) /\
  length (delta r') = length (delta r).
Proof.
  revert node r r' d. induction fuel as [| fuel IH]; intros node r r' d;
    cbn [gain]; [discriminate |].
  intros H.
  apply bind_Ok in H. destruct H as (cc_i & Hcc & H).
  apply bind_Ok in H. destruct H as (g & Hg & H).
  destruct (has_node g (get 0 node cc_i)); cbn [negb] in H;
    [| injection H as <- <-; now split].
  apply bind_Ok in H. destruct H as (latest_i & Hl & H).
  apply bind_Ok in H. destruct H as (delta_i & Hd & H).
  destruct (get false (get 0 node cc_i) latest_i);
    [injection H as <- <-; now split |].
  cbn [A D cc_list with_latest] in H.
  apply bind_Ok in H. destruct H as (A_i & HA & H).
  apply bind_Ok in H. destruct H as (D_i & HD & H).
  apply bind_Ok in H. destruct H as (ccl_i & Hccl & H).
  apply bind_Ok in H. destruct H as ([d0 r2] & Hrec & H).
  apply bind_Ok in H. destruct H as (dv & Hloop & H).
  apply bind_Ok in H. destruct H as (delta_i2 & Hd2 & H).
  injection H as <- <-.
  cbn [latest delta with_delta]. rewrite length_vec_set.
  destruct (mem (get 0 node cc_i) A_i && (length set =? 0)%nat).
  - apply bind_Ok in Hrec. destruct Hrec as (h_i & Hh & Hrec).
    destruct (get [] h_i ccl_i) as [| first rest]; [discriminate |].
    apply IH in Hrec. cbn [latest delta with_latest] in Hrec.
    now rewrite length_vec_set in Hrec.
  - injection Hrec as <- <-. cbn [latest delta with_latest].
    now rewrite length_vec_set.
Qed.

Lemma gain_main_loop_frame (fuel : nat) (i : nat) (node : N) (set : uset)
      (r r' : rounds) (d : N) :
  gain fuel i node set r = Ok (d, r') -> main_loop_frame r r'.
Proof.
  intros H. destruct (gain_frame _ _ _ _ _ _ _ H)
    as [(S1 & S2 & S3 & S4 & S5 & S6) _].
  destruct (gain_lengths _ _ _ _ _ _ _ H) as [L1 L2].
  unfold main_loop_frame. rewrite S3. repeat split; assumption.
Qed.

Lemma sum_gains_frame (fuel : nat) (ids : list nat) (v : N) (set : uset)
      (tot : N) (r r' : rounds) (d : N) :
  sum_gains fuel ids v set tot r = Ok (d, r') -> main_loop_frame r r'.
Proof.
  revert tot r. induction ids as [| i ids IH]; intros tot r; cbn [sum_gains].
  - intros [= <- <-]. apply main_loop_frame_refl.
  - intros H. apply bind_Ok in H. destruct H as ([g r1] & Hg & H).
    eapply main_loop_frame_trans;
      [eapply gain_main_loop_frame; eassumption | eapply IH; eassumption].
Qed.

Lemma candidates_frame (fuel : nat) (R : N) (nodes : list N)
      (activated set : uset) (b b' : best) (r r' : rounds) :
  candidates fuel R nodes activated set b r = Ok (b', r') ->
  main_loop_frame r r'.
Proof.
  revert b r. induction nodes as [| v nodes IH]; intros b r; cbn [candidates].
  - intros [= <- <-]. apply main_loop_frame_refl.
  - destruct (negb (mem v activated)).
    + intros H. apply bind_Ok in H. destruct H as ([tot r1] & Hs & H).
      eapply main_loop_frame_trans;
        [eapply sum_gains_frame; eassumption | eapply IH; eassumption].
    + apply IH.
Qed.

Lemma update_dag_frame (fuel : nat) (i : nat) (node : N) (r r' : rounds) :
  update_dag fuel i node r = Ok r' -> main_loop_frame r r'.
Proof.
  unfold update_dag. intros H.
  apply bind_Ok in H. destruct H as (cc_i & _ & H).
  apply bind_Ok in H. destruct H as (desc & _ & H).
  apply bind_Ok in H. destruct H as (g & _ & H).
  apply bind_Ok in H. destruct H as (latest_i & _ & H).
  apply bind_Ok in H. destruct H as (latest_i' & _ & H).
  injection H as <-. unfold main_loop_frame.
  cbn [cc cc_list A D h graphs latest delta with_graphs with_latest].
  rewrite !length_vec_set. repeat split.
Qed.

Lemma update_dags_frame (fuel : nat) (ids : list nat) (t : N)
      (r r' : rounds) :
  update_dags fuel ids t r = Ok r' -> main_loop_frame r r'.
Proof.
  revert r. induction ids as [| i ids IH]; intros r; cbn [update_dags].
  - intros [= <-]. apply main_loop_frame_refl.
  - intros H. apply bind_Ok in H. destruct H as (r1 & Hu & H).
    eapply main_loop_frame_trans;
      [eapply update_dag_frame; eassumption | eapply IH; eassumption].
Qed.

Lemma select_loop_frame (fuel inner : nat) (graph : Graph) (activated : uset)
      (k R : N) (set set' : uset) (r r' : rounds) :
  select_loop fuel inner graph activated k R set r = Ok (set', r') ->
  main_loop_frame r r'.
Proof.
  revert set r. induction fuel as [| fuel IH]; intros set r;
    cbn [select_loop]; [discriminate |].
  destruct (N.of_nat (length set) <? k).
  - intros H. apply bind_Ok in H. destruct H as ([s1 r1] & Hs & H).
    unfold select_step in Hs.
    apply bind_Ok in Hs. destruct Hs as ([b ra] & Hc & Hs).
    apply bind_Ok in Hs. destruct Hs as (rb & Hu & Hs).
    injection Hs as <- <-.
    eapply main_loop_frame_trans;
      [eapply candidates_frame; eassumption |].
    eapply main_loop_frame_trans;
      [eapply update_dags_frame; eassumption | eapply IH; eassumption].
  - intros [= <- <-]. apply main_loop_frame_refl.
Qed.

Lemma sample_sized (fuel : nat) (graph : Graph) (activated : uset) (i : nat)
      (e e' : OhsakaEvaluator) :
  all_sized i (rs e) ->
  sample fuel graph activated i e = Ok e' ->
  all_sized (S i) (rs e') /\ R_ e' = R_ e /\
  draws (gen e') = draws (gen e) /\ (drawn (gen e) <= drawn (gen e'))%nat /\
  vis_stack (tv e') = [].
Proof.
  intros (L1 & L2 & L3 & L4 & L5 & L6 & L7 & L8). unfold sample. intros H.
  apply bind_Ok in H. destruct H as (e1 & Ht & H).
  apply tarjan_spec in Ht.
  destruct Ht as (c & cl & dag & Hrs & _ & _ & Hst & HR & Hdr & Hdn).
  repeat (apply bind_Ok in H; destruct H as (? & _ & H)).
  injection H as <-. cbn [rs tv R_ gen]. rewrite Hrs.
  unfold all_sized.
  cbn [cc cc_list graphs A D h latest delta push_sample].
  rewrite !length_vec_set, !length_app. cbn [length].
  repeat split; try assumption; try lia.
Qed.

Lemma samples_sized (fuel : nat) (graph : Graph) (activated : uset)
      (n start : nat) (e e' : OhsakaEvaluator) :
  all_sized start (rs e) ->
  samples fuel graph activated (seq start n) e = Ok e' ->
  all_sized (start + n) (rs e') /\ R_ e' = R_ e /\
  draws (gen e') = draws (gen e) /\ (drawn (gen e) <= drawn (gen e'))%nat.
Proof.
  revert start e. induction n as [| n IH]; intros start e Hs;
    cbn [seq samples].
  - intros [= <-]. rewrite Nat.add_0_r.
    split; [exact Hs | repeat split; lia].
  - intros H. apply bind_Ok in H. destruct H as (e1 & H1 & H).
    apply (sample_sized _ _ _ _ _ _ Hs) in H1.
    destruct H1 as (S1 & R1 & D1 & N1 & _).
    apply (IH _ _ S1) in H. destruct H as (S2 & R2 & D2 & N2).
    rewrite Nat.add_succ_r.
    split; [exact S2 | repeat split; try congruence; lia].
Qed.

Lemma select_frame (fuel : nat) (graph : Graph) (activated : uset) (k : N)
      (e e' : OhsakaEvaluator) (set : uset) :
  select fuel graph activated k e = Ok (set, e') ->
  exists e1,
    samples fuel graph activated (seq 0 (N.to_nat (R_ e)))
            {| rs := no_rounds; tv := tv e; R_ := R_ e; gen := gen e |}
    = Ok e1 /\
    main_loop_frame (rs e1) (rs e') /\
    gen e' = gen e1 /\ tv e' = tv e1 /\
    all_sized (N.to_nat (R_ e)) (rs e') /\ R_ e' = R_ e /\
    draws (gen e') = draws (gen e) /\ (drawn (gen e) <= drawn (gen e'))%nat.
Proof.
  unfold select. cbn [R_]. intros H.
  apply bind_Ok in H. destruct H as (e1 & Hs & H).
  apply bind_Ok in H. destruct H as ([s r] & Hl & H).
  injection H as <- <-. exists e1. split; [exact Hs |].
  apply select_loop_frame in Hl.
  apply (samples_sized _ _ _ _ 0) in Hs; [| cbn; repeat split].
  cbn [rs gen tv R_ plus] in *.
  destruct Hs as ((L1 & L2 & L3 & L4 & L5 & L6 & L7 & L8) & HR & Hd & Hn).
  destruct Hl as (F1 & F2 & F3 & F4 & F5 & F6 & F7 & F8).
  split; [repeat split; assumption |].
  split; [reflexivity |]. split; [reflexivity |].
  split; [| repeat split; assumption].
  unfold all_sized. repeat split; congruence.
Qed.

(** X14.  When [select] returns, the random numbers were all drawn while
    the graphs were sampled: the main loop leaves the generator and the
    Tarjan variables as the sampling left them, and of the eight vectors
    it assigns only to [graphs], [latest] and [delta] (the key a read
    [m[k]] inserts when it is missing is left out, as in [get]).  Each of
    the eight vectors holds [R_] entries, [R_] is unchanged, and the
    generator has only advanced. *)
Theorem select_main_loop_draws_nothing
        (fuel : nat) (graph : Graph) (activated : uset) (k : N)
        (e e' : OhsakaEvaluator) (set : uset) :
  select fuel graph activated k e = Ok (set, e') ->
  exists e1,
    samples fuel graph activated (seq 0 (N.to_nat (R_ e)))
            {| rs := no_rounds; tv := tv e; R_ := R_ e; gen := gen e |}
    = Ok e1 /\
    main_loop_frame (rs e1) (rs e') /\
    gen e' = gen e1 /\ tv e' = tv e1 /\
    all_sized (N.to_nat (R_ e)) (rs e') /\ R_ e' = R_ e /\
    draws (gen e') = draws (gen e) /\ (drawn (gen e) <= drawn (gen e'))%nat.
Proof. apply select_frame. Qed.

(** ** main.cpp: indices out of range and missing arguments *)

Section MainEdges.

Import String Main MainSpec MainArgs.
Local Open Scope string_scope.

Lemma nth_error_lt {T : Type} (l : list T) (n : nat) (x : T) :
  nth_error l n = Some x -> (n < List.length l)%nat.
Proof. intros H. apply nth_error_Some. congruence. Qed.

(** X15.  An evaluator index past the end of a mode's table is not
    rejected with a message: [evals.at] throws [std::out_of_range], which
    nothing catches.  That happens exactly from index 5 on in the mode
    real and from index 4 on in the modes prior, zsc, explore and egreedy
    (in egreedy for either of its two indices); the mode eg never
    throws. *)
Theorem index_past_the_table_throws
        (file : string) (prog g al be b kk eps idx idx' : string)
        (opt : list string) :
  (main file (prog :: "--real" :: g :: idx :: b :: kk :: opt)
   = Throws_out_of_range <-> (5 <= to_unsigned (atoi idx))%N) /\
  (main file (prog :: "--prior" :: g :: al :: be :: idx :: b :: kk :: opt)
   = Throws_out_of_range <-> (4 <= to_unsigned (atoi idx))%N) /\
  (main file (prog :: "--zsc" :: g :: al :: be :: idx :: b :: kk :: opt)
   = Throws_out_of_range <-> (4 <= to_unsigned (atoi idx))%N) /\
  (main file (prog :: "--explore" :: g :: al :: be :: idx :: b :: kk :: opt)
   = Throws_out_of_range <-> (4 <= to_unsigned (atoi idx))%N) /\
  (main file (prog :: "--egreedy" :: g :: al :: be :: idx :: idx' :: b :: kk
                   :: eps :: opt)
   = Throws_out_of_range <->
   (4 <= to_unsigned (atoi idx))%N \/ (4 <= to_unsigned (atoi idx'))%N) /\
  main file (prog :: "--eg" :: g :: al :: be :: idx :: b :: kk :: opt)
  <> Throws_out_of_range.
Proof.
  unfold main, real, prior, zscore, explore, epsgreedy, expgr, arg, at_.
  cbn [nth_error String.eqb Ascii.eqb Bool.eqb].
  unfold real_evals, prior_evals, zscore_evals, explore_evals,
    epsgreedy_evals.
  generalize (to_unsigned (atoi idx)) (to_unsigned (atoi idx')).
  intros i i'.
  repeat match goal with
         | |- context [nth_error ?l (N.to_nat ?n)] =>
             let E := fresh "E" in
             destruct (nth_error l (N.to_nat n)) eqn:E;
             [apply nth_error_lt in E | apply nth_error_None in E]
         end;
    cbn [List.length] in *;
    (repeat split; try discriminate; try lia;
     try (destruct (expgr_evaluator i); discriminate)).
Qed.

Lemma at_not_null (evals : list Evaluator) (i : N) (f : Evaluator -> outcome) :
  (forall e, f e <> Null_argument) -> at_ evals i f <> Null_argument.
Proof.
  intros Hf. unfold at_. destruct (nth_error evals (N.to_nat i)).
  - apply Hf.
  - discriminate.
Qed.

Lemma missing_arguments (file : string) (argv : list string) :
  main file argv = Null_argument <->
  (List.length argv
   < match nth_error argv 1 with
     | Some mode => required_argc mode
     | None => 2
     end)%nat.
Proof.
  destruct argv as [| prog [| mode rest]];
    [cbn; split; [lia | reflexivity] .. |].
  unfold main, arg, required_argc. cbn [nth_error].
  repeat match goal with
         | |- context [mode =? ?m] => destruct (mode =? m)
         end.
  9: { cbn [List.length]. split; [discriminate | lia]. }
  all: unfold benchmark, spread, epsgreedy, explore, real, prior, expgr,
         zscore, arg.
  all: cbn [nth_error List.length].
  all: repeat (destruct rest as [| ? rest];
               [cbn [nth_error List.length]; split; [lia | reflexivity] |]).
  all: cbn [nth_error List.length]; split; [| lia]; intros H; exfalso;
       revert H.
  all: try discriminate.
  all: try (repeat (apply at_not_null; intros ?); discriminate).
  destruct (expgr_evaluator _); discriminate.
Qed.

(** X16.  No mode tests [argc] before it reads its positional arguments:
    a run reads an [argv[n]] that is not there exactly when it is given
    fewer arguments than its mode reads unconditionally (5 for benchmark,
    6 for spread and real, 10 for egreedy, 8 for explore, prior, eg and
    zsc, 2 otherwise).  A first argument that is none of the eight mode
    words makes [main] return 0 without a message, whatever follows. *)
Theorem arguments_are_read_unchecked
        (file : string) (argv : list string) :
  (main file argv = Null_argument <->
   (List.length argv
    < match nth_error argv 1 with
      | Some mode => required_argc mode
      | None => 2
      end)%nat) /\
  (forall mode, nth_error argv 1 = Some mode -> ~ In mode mode_words ->
                main file argv = Returns 0).
Proof.
  split; [apply missing_arguments |].
  intros mode Hm Hnot.
  destruct argv as [| prog [| mode' rest]]; [discriminate .. |].
  injection Hm as ->.
  unfold main, arg. cbn [nth_error].
  repeat match goal with
         | |- context [mode =? ?m] =>
             destruct (String.eqb_spec mode m) as [-> | ?]
         end;
    try (exfalso; apply Hnot; cbn; tauto).
  reflexivity.
Qed.

Lemma arguments_are_read_unchecked_witness :
  main empty_file ["oim"; "--real"; "graph.txt"; "0"]%list = Null_argument /\
  main empty_file ["oim"; "--help"; "graph.txt"]%list = Returns 0.
Proof.
  split.
  - apply (proj2 (proj1 (arguments_are_read_unchecked
                           empty_file ["oim"; "--real"; "graph.txt"; "0"]%list))).
    cbn. lia.
  - apply (proj2 (arguments_are_read_unchecked
                    empty_file ["oim"; "--help"; "graph.txt"]%list) "--help").
    + reflexivity.
    + cbn. intros H.
      repeat (destruct H as [H | H]; [discriminate H |]). exact H.
Defined.

End MainEdges.

(** ** Instances of the further properties *)

Lemma bfs_collects_exactly_the_descendants_witness :
  vec_at (graphs (rs one_arc_sampled)) 0 = Ok one_arc_dag /\
  (S (length (targets one_arc_dag)) < 50)%nat /\
  exists col1,
    bfs 50 (graphs (rs one_arc_sampled)) 1 0 [] false 0 = Ok col1 /\
    forall x, In x col1 <->
              In x [] \/ (reach_plus one_arc_dag 1 x /\ x <> 1).
Proof.
  assert (H1 : vec_at (graphs (rs one_arc_sampled)) 0 = Ok one_arc_dag)
    by reflexivity.
  assert (H2 : (S (length (targets one_arc_dag)) < 50)%nat)
    by (vm_compute; lia).
  split; [exact H1 |]. split; [exact H2 |].
  exact (bfs_collects_exactly_the_descendants
           50 (graphs (rs one_arc_sampled)) 0 one_arc_dag 1 0 [] H1 H2).
Defined.

Lemma bfs_tests_reachability_witness :
  vec_at (graphs (rs one_arc_sampled)) 0 = Ok one_arc_dag /\
  (S (length (targets one_arc_dag)) < 50)%nat /\
  exists col1,
    bfs 50 (graphs (rs one_arc_sampled)) 1 0 [] true 0 = Ok col1 /\
    ((reach_plus one_arc_dag 1 0 /\ 0 <> 1 /\ col1 = insert 1 []) \/
     (~ (reach_plus one_arc_dag 1 0 /\ 0 <> 1) /\ col1 = [])).
Proof.
  assert (H1 : vec_at (graphs (rs one_arc_sampled)) 0 = Ok one_arc_dag)
    by reflexivity.
  assert (H2 : (S (length (targets one_arc_dag)) < 50)%nat)
    by (vm_compute; lia).
  split; [exact H1 |]. split; [exact H2 |].
  exact (bfs_tests_reachability
           50 (graphs (rs one_arc_sampled)) 0 one_arc_dag 1 0 [] H1 H2).
Defined.

Lemma ancestors_are_the_nodes_reaching_the_hub_witness :
  vec_at (graphs (rs one_arc_sampled)) 0 = Ok one_arc_dag /\
  (S (length (targets one_arc_dag)) < 50)%nat /\
  exists A_i',
    ancestors 50 (graphs (rs one_arc_sampled)) 0 0 [] (get_nodes one_arc_dag)
              [] = Ok A_i' /\
    forall x, In x A_i' <->
              In x [] \/
              (In x (get_nodes one_arc_dag) /\ x <> 0 /\ ~ In x [] /\
               reach_plus one_arc_dag x 0).
Proof.
  assert (H1 : vec_at (graphs (rs one_arc_sampled)) 0 = Ok one_arc_dag)
    by reflexivity.
  assert (H2 : (S (length (targets one_arc_dag)) < 50)%nat)
    by (vm_compute; lia).
  split; [exact H1 |]. split; [exact H2 |].
  exact (ancestors_are_the_nodes_reaching_the_hub
           50 (graphs (rs one_arc_sampled)) 0 one_arc_dag 0 []
           (get_nodes one_arc_dag) [] H1 H2).
Defined.

Lemma update_dag_drops_the_gains_that_reach_removed_nodes_witness :
  vec_at (cc one_arc_gained) 0 = Ok [(1, 0); (0, 1)] /\
  vec_at (graphs one_arc_gained) 0 = Ok one_arc_dag /\
  vec_at (latest one_arc_gained) 0 = Ok [(0, false); (1, true)] /\
  (S (length (targets one_arc_dag)) < 50)%nat /\
  exists r' latest_i',
    update_dag 50 0 0 one_arc_gained = Ok r' /\
    vec_at (latest r') 0 = Ok latest_i' /\
    (forall x,
        get false x latest_i' = true <->
        get false x [(0, false); (1, true)] = true /\
        ~ (has_node one_arc_dag x = true /\
           exists u, reach_plus one_arc_dag (get 0 0 [(1, 0); (0, 1)]) u /\
                     u <> get 0 0 [(1, 0); (0, 1)] /\ u <> x /\
                     reach_plus one_arc_dag x u)) /\
    get false 1 [(0, false); (1, true)] = true /\
    get false 1 latest_i' = false /\
    delta r' = delta one_arc_gained.
Proof.
  assert (H1 : vec_at (cc one_arc_gained) 0 = Ok [(1, 0); (0, 1)])
    by reflexivity.
  assert (H2 : vec_at (graphs one_arc_gained) 0 = Ok one_arc_dag)
    by reflexivity.
  assert (H3 : vec_at (latest one_arc_gained) 0
               = Ok [(0, false); (1, true)]) by reflexivity.
  assert (H4 : (S (length (targets one_arc_dag)) < 50)%nat)
    by (vm_compute; lia).
  split; [exact H1 |]. split; [exact H2 |]. split; [exact H3 |].
  split; [exact H4 |].
  destruct (update_dag_drops_the_gains_that_reach_removed_nodes
              50 0 0 one_arc_gained _ _ _ H1 H2 H3 H4)
    as (r' & l' & Hu & Hl & Hiff & _ & _ & _ & _ & _ & Hd).
  exists r', l'. split; [exact Hu |]. split; [exact Hl |].
  split; [exact Hiff |]. split; [reflexivity |]. split; [| exact Hd].
  destruct (get false 1 l') eqn:E; [exfalso | reflexivity].
  apply Hiff in E. destruct E as [_ Hn]. apply Hn.
  assert (Harc : reach_plus one_arc_dag 1 0).
  { apply t_step. split; [reflexivity |]. vm_compute. now left. }
  split; [reflexivity |]. exists 0.
  change (get 0 0 [(1, 0); (0, 1)]) with 1.
  split; [exact Harc |]. split; [discriminate |]. split; [discriminate |].
  exact Harc.
Defined.

Lemma gain_is_cached_witness :
  gain 50 0 0 [] (rs one_arc_sampled) = Ok (2, one_arc_gained) /\
  gain 1 0 0 [7] one_arc_gained = Ok (2, one_arc_gained).
Proof.
  assert (H : gain 50 0 0 [] (rs one_arc_sampled) = Ok (2, one_arc_gained))
    by (vm_compute; reflexivity).
  split; [exact H |].
  apply (proj2 (proj2 (gain_is_cached 50 0 0 [] (rs one_arc_sampled)
                         one_arc_gained 2 H))).
  lia.
Defined.

Lemma gain_adds_up_the_reachable_components_witness :
  vec_at (cc (rs one_arc_sampled)) 0 = Ok [(1, 0); (0, 1)] /\
  vec_at (graphs (rs one_arc_sampled)) 0 = Ok one_arc_dag /\
  vec_at (latest (rs one_arc_sampled)) 0 = Ok [(0, false); (1, false)] /\
  vec_at (delta (rs one_arc_sampled)) 0 = Ok [(0, 0); (1, 0)] /\
  vec_at (A (rs one_arc_sampled)) 0 = Ok [] /\
  vec_at (D (rs one_arc_sampled)) 0 = Ok [0] /\
  vec_at (cc_list (rs one_arc_sampled)) 0 = Ok [(0, [1]); (1, [0])] /\
  has_node one_arc_dag (get 0 0 [(1, 0); (0, 1)]) = true /\
  get false (get 0 0 [(1, 0); (0, 1)]) [(0, false); (1, false)] = false /\
  mem (get 0 0 [(1, 0); (0, 1)]) [] && (length (@nil N) =? 0)%nat = false /\
  (S (S (S (length (targets one_arc_dag)))) < 50)%nat /\
  exists visited r',
    gain 50 0 0 [] (rs one_arc_sampled)
    = Ok (component_sizes [(0, [1]); (1, [0])] visited, r') /\
    NoDup visited /\
    (forall x, In x visited <->
               reach_present one_arc_dag (get 0 0 [(1, 0); (0, 1)]) x).
Proof.
  assert (H1 : vec_at (cc (rs one_arc_sampled)) 0 = Ok [(1, 0); (0, 1)])
    by reflexivity.
  assert (H2 : vec_at (graphs (rs one_arc_sampled)) 0 = Ok one_arc_dag)
    by reflexivity.
  assert (H3 : vec_at (latest (rs one_arc_sampled)) 0
               = Ok [(0, false); (1, false)]) by reflexivity.
  assert (H4 : vec_at (delta (rs one_arc_sampled)) 0 = Ok [(0, 0); (1, 0)])
    by reflexivity.
  assert (H5 : vec_at (A (rs one_arc_sampled)) 0 = Ok []) by reflexivity.
  assert (H6 : vec_at (D (rs one_arc_sampled)) 0 = Ok [0]) by reflexivity.
  assert (H7 : vec_at (cc_list (rs one_arc_sampled)) 0
               = Ok [(0, [1]); (1, [0])]) by reflexivity.
  assert (H8 : has_node one_arc_dag (get 0 0 [(1, 0); (0, 1)]) = true)
    by reflexivity.
  assert (H9 : get false (get 0 0 [(1, 0); (0, 1)])
                   [(0, false); (1, false)] = false) by reflexivity.
  assert (H10 : mem (get 0 0 [(1, 0); (0, 1)]) []
                && (length (@nil N) =? 0)%nat = false) by reflexivity.
  assert (H11 : (S (S (S (length (targets one_arc_dag)))) < 50)%nat)
    by (vm_compute; lia).
  split; [exact H1 |]. split; [exact H2 |]. split; [exact H3 |].
  split; [exact H4 |]. split; [exact H5 |]. split; [exact H6 |].
  split; [exact H7 |]. split; [exact H8 |]. split; [exact H9 |].
  split; [exact H10 |]. split; [exact H11 |].
  destruct (gain_adds_up_the_reachable_components
              50 0 0 [] (rs one_arc_sampled) _ _ _ _ _ _ _
              H1 H2 H3 H4 H5 H6 H7 H8 H9 H10 H11)
    as (visited & r' & Hg & Hnd & Hv & _).
  exists visited, r'. split; [exact Hg |]. split; assumption.
Defined.

Lemma select_returns_k_distinct_candidates_witness :
  select 50 two_way [] 1 (new_evaluator 1 low_then_high)
  = Ok ([0], two_way_after_call) /\
  NoDup [0] /\ N.of_nat (length [0]) = 1 /\
  (forall x, In x [0] ->
             x = 0 \/ (In x (get_nodes two_way) /\ ~ In x [])).
Proof.
  assert (H : select 50 two_way [] 1 (new_evaluator 1 low_then_high)
              = Ok ([0], two_way_after_call))
    by (vm_compute; reflexivity).
  split; [exact H |].
  destruct (select_returns_k_distinct_candidates
              50 two_way [] 1 (new_evaluator 1 low_then_high)
              two_way_after_call [0] H) as (Hnd & Hlen & Hin & _).
  split; [exact Hnd |]. split; [exact Hlen | exact Hin].
Defined.

Lemma select_without_samples_witness :
  R_ no_samples = 0 /\
  selected (select 2 one_arc [] 1 no_samples) = Ok [0] /\
  select 50 one_arc [] 2 no_samples = OutOfFuel.
Proof.
  assert (H : R_ no_samples = 0) by reflexivity.
  split; [exact H |].
  destruct (select_without_samples one_arc [] no_samples H)
    as (_ & H1 & H2).
  split.
  - apply H1. lia.
  - apply H2. lia.
Defined.

Lemma hub_is_the_last_node_of_largest_degree_witness :
  get_nodes one_arc_dag <> [] /\
  exists l1 l2,
    get_nodes one_arc_dag
    = l1 ++ highest_degree one_arc_dag (get_nodes one_arc_dag) 0 0 :: l2 /\
    (forall n, In n l2 ->
       out_degree one_arc_dag n
       < out_degree one_arc_dag
           (highest_degree one_arc_dag (get_nodes one_arc_dag) 0 0)).
Proof.
  assert (H : get_nodes one_arc_dag <> []) by (vm_compute; discriminate).
  split; [exact H |].
  destruct (proj2 (hub_is_the_last_node_of_largest_degree one_arc_dag) H)
    as (l1 & l2 & H1 & _ & H2).
  exists l1, l2. split; assumption.
Defined.

Lemma pop_component_pops_down_to_node_witness :
  ~ In 1 [2] /\
  (exists s',
      pop_component 1 ([2] ++ 1 :: [0]) stacked = Ok s' /\
      vis_stack (tvars s') = [0] /\
      forall x, In x (visited (tvars s')) <->
                In x (visited (tvars stacked)) /\ ~ In x ([2] ++ [1])) /\
  pop_component 1 [2] stacked = Undefined.
Proof.
  assert (H : ~ In 1 [2]) by (simpl; lia).
  split; [exact H |].
  destruct (pop_component_pops_down_to_node 1 [2] [0] stacked H)
    as ((s' & Hp & Hs & _ & _ & Hv & _) & Hu).
  split; [| exact Hu].
  exists s'. split; [exact Hp |]. split; assumption.
Defined.

Lemma tarjan_appends_one_sample_witness :
  tarjan 50 one_arc (new_evaluator 1 low_draws) = Ok one_arc_tarjan /\
  exists c cl dag,
    rs one_arc_tarjan = push_sample c cl dag (rs (new_evaluator 1 low_draws)) /\
    (forall v, In v (get_nodes one_arc) -> has_node dag v = true) /\
    (forall a b, arc dag a b -> a <> b).
Proof.
  assert (H : tarjan 50 one_arc (new_evaluator 1 low_draws)
              = Ok one_arc_tarjan) by (vm_compute; reflexivity).
  split; [exact H |].
  destruct (tarjan_appends_one_sample
              50 one_arc (new_evaluator 1 low_draws) one_arc_tarjan H)
    as (c & cl & dag & H1 & H2 & H3 & _).
  exists c, cl, dag. split; [exact H1 |]. split; assumption.
Defined.

Lemma tarjan_draws_once_per_arc_witness :
  tarjan 50 one_arc (new_evaluator 1 low_draws) = Ok one_arc_tarjan /\
  drawn (gen one_arc_tarjan)
  = (drawn (gen (new_evaluator 1 low_draws))
     + arcs_at one_arc (keys (index (tv one_arc_tarjan))))%nat /\
  NoDup (keys (index (tv one_arc_tarjan))).
Proof.
  assert (H : tarjan 50 one_arc (new_evaluator 1 low_draws)
              = Ok one_arc_tarjan) by (vm_compute; reflexivity).
  split; [exact H |].
  destruct (tarjan_draws_once_per_arc
              50 one_arc (new_evaluator 1 low_draws) one_arc_tarjan H)
    as (H1 & H2 & _).
  split; assumption.
Defined.

Lemma select_main_loop_draws_nothing_witness :
  select 50 two_way [] 1 (new_evaluator 1 low_then_high)
  = Ok ([0], two_way_after_call) /\
  all_sized (N.to_nat (R_ (new_evaluator 1 low_then_high)))
            (rs two_way_after_call) /\
  R_ two_way_after_call = R_ (new_evaluator 1 low_then_high).
Proof.
  assert (H : select 50 two_way [] 1 (new_evaluator 1 low_then_high)
              = Ok ([0], two_way_after_call))
    by (vm_compute; reflexivity).
  split; [exact H |].
  destruct (select_main_loop_draws_nothing
              50 two_way [] 1 (new_evaluator 1 low_then_high)
              two_way_after_call [0] H)
    as (e1 & _ & _ & _ & _ & H1 & H2 & _).
  split; assumption.
Defined.

(** ** The evaluator with the sampler and the order of pred left open *)

Section SampledFacts.

Variable pred_order : umap N -> list (N * N).

Lemma sampled_scc_unfold (fuel : nat) (node : N) (graph : Graph)
      (s : scc_vars) (sm : Sampled.Sampler) :
  Sampled.scc (S fuel) node graph s sm
  = (let s0 := with_tvars (enter node (tvars s)) s in
     '(s1, sm1) <-
       (if has_neighbours graph node
        then sampled_scc_edges (fun t s sm => Sampled.scc fuel t graph s sm)
                               node (get_neighbours graph node) s0 sm
        else Ok (s0, sm)) ;;
     let t := tvars s1 in
     if get 0 node (lowlink t) =? get 0 node (index t) then
       s2 <- pop_component node (vis_stack t) s1 ;;
       Ok ({| tvars := tvars s2; rng := rng s2; cur_cc := cur_cc s2;
              cur_cc_list := cur_cc_list s2;
              cur_num_cc := cur_num_cc s2 + 1 |}, sm1)
     else Ok (s1, sm1)).
Proof. reflexivity. Qed.

Lemma advanced_refl (g : mt19937) (sm : Sampled.Sampler) :
  advanced g sm g sm.
Proof. unfold advanced. repeat split; lia. Qed.

Lemma advanced_trans (g1 g2 g3 : mt19937) (m1 m2 m3 : Sampled.Sampler) :
  advanced g1 m1 g2 m2 -> advanced g2 m2 g3 m3 -> advanced g1 m1 g3 m3.
Proof.
  unfold advanced. intros (A1 & A2 & A3 & A4) (B1 & B2 & B3 & B4).
  repeat split; try congruence; lia.
Qed.

Lemma sampled_scc_edges_advanced
      (rec : N -> scc_vars -> Sampled.Sampler
             -> result (scc_vars * Sampled.Sampler))
      (node : N) :
  (forall t s sm s' sm', rec t s sm = Ok (s', sm') ->
     advanced (rng s) sm (rng s') sm') ->
  forall es s sm s' sm',
    sampled_scc_edges rec node es s sm = Ok (s', sm') ->
    advanced (rng s) sm (rng s') sm'.
Proof.
  intros Hrec. induction es as [| edge es IH]; intros s sm s' sm';
    cbn [sampled_scc_edges].
  - intros [= <- <-]. apply advanced_refl.
  - unfold Sampled.sample_dist, draw. cbn [with_rng tvars rng].
    assert (Hstep : forall g1 sm1,
               advanced g1 sm1 (rng s') sm' ->
               draws g1 = draws (rng s) ->
               drawn g1 = S (drawn (rng s)) ->
               Sampled.values sm1 = Sampled.values sm ->
               Sampled.asked sm1 = S (Sampled.asked sm) ->
               advanced (rng s) sm (rng s') sm').
    { unfold advanced. intros g1 sm1 (A1 & A2 & A3 & A4) E1 E2 E3 E4.
      repeat split; try congruence; lia. }
    destruct (Qlt_bool _ _).
    + destruct (find (target edge) (index (tvars s))) eqn:Ef.
      * intros H. apply IH in H. apply (Hstep _ _ H); reflexivity.
      * intros H. apply bind_Ok in H. destruct H as ([s1 sm1] & Hr & H).
        apply Hrec in Hr. apply IH in H. cbn [rng with_tvars] in Hr, H.
        apply (Hstep _ _ (advanced_trans _ _ _ _ _ _ Hr H)); reflexivity.
    + intros H. apply IH in H. apply (Hstep _ _ H); reflexivity.
Qed.

Lemma sampled_scc_advanced (fuel : nat) (graph : Graph) :
  forall node s sm s' sm',
    Sampled.scc fuel node graph s sm = Ok (s', sm') ->
    advanced (rng s) sm (rng s') sm'.
Proof.
  induction fuel as [| fuel IH]; intros node s sm s' sm'; [discriminate |].
  rewrite sampled_scc_unfold. cbn zeta. intros H.
  apply bind_Ok in H. destruct H as ([s1 sm1] & H1 & H).
  assert (A1 : advanced (rng s) sm (rng s1) sm1).
  { destruct (has_neighbours graph node).
    - apply sampled_scc_edges_advanced in H1; [exact H1 |].
      intros t sa ma sb mb. apply IH.
    - injection H1 as <- <-. apply advanced_refl. }
  destruct (get 0 node (lowlink (tvars s1)) =? get 0 node (index (tvars s1))).
  - apply bind_Ok in H. destruct H as (s2 & Hp & H). injection H as <- <-.
    apply pop_component_keeps in Hp. destruct Hp as (E & _ & _).
    cbn [rng]. rewrite E. exact A1.
  - injection H as <- <-. exact A1.
Qed.

Lemma sampled_tarjan_roots_advanced (fuel : nat) (graph : Graph)
      (nodes : list N) :
  forall s sm s' sm',
    Sampled.tarjan_roots fuel graph nodes s sm = Ok (s', sm') ->
    advanced (rng s) sm (rng s') sm'.
Proof.
  induction nodes as [| node nodes IH]; intros s sm s' sm';
    cbn [Sampled.tarjan_roots].
  - intros [= <- <-]. apply advanced_refl.
  - destruct (find node (index (tvars s))); [apply IH |].
    intros H. apply bind_Ok in H. destruct H as ([s1 sm1] & Hs & H).
    apply sampled_scc_advanced in Hs. apply IH in H.
    cbn [rng with_tvars] in Hs.
    eapply advanced_trans; [exact Hs | exact H].
Qed.

(** ** Ohsaka is Sampled over point distributions, in insertion order *)

Lemma without_sampler_Ok {T : Type} (m : result (T * Sampled.Sampler))
      (x : T) (sm : Sampled.Sampler) :
  m = Ok (x, sm) -> without_sampler m = Ok x.
Proof. now intros ->. Qed.

Lemma sampled_scc_edges_point
      (rec : N -> scc_vars -> Sampled.Sampler
             -> result (scc_vars * Sampled.Sampler))
      (rec0 : N -> scc_vars -> result scc_vars) (node : N) :
  (forall t s sm, is_point sm -> without_sampler (rec t s sm) = rec0 t s) ->
  (forall t s sm s' sm', rec t s sm = Ok (s', sm') ->
     advanced (rng s) sm (rng s') sm') ->
  forall es s sm,
    is_point sm ->
    without_sampler (sampled_scc_edges rec node es s sm)
    = scc_edges rec0 node es s.
Proof.
  intros Hrec Hadv. induction es as [| edge es IH]; intros s sm Hpt;
    cbn [sampled_scc_edges scc_edges]; [reflexivity |].
  unfold Sampled.sample_dist, draw. cbn [with_rng tvars rng].
  assert (Hv : Sampled.values sm (Sampled.asked sm) edge = dist edge)
    by (unfold is_point in Hpt; now rewrite Hpt).
  rewrite Hv.
  assert (Hpt1 : is_point {| Sampled.values := Sampled.values sm;
                             Sampled.asked := S (Sampled.asked sm) |})
    by exact Hpt.
  destruct (Qlt_bool _ _); [| now apply IH].
  destruct (find (target edge) (index (tvars s))); [now apply IH |].
  match goal with
  | |- without_sampler (bind (rec ?t ?s1 ?m1) _) = _ =>
      pose proof (Hrec t s1 m1 Hpt1) as Hr;
      pose proof (Hadv t s1 m1) as Ha;
      destruct (rec t s1 m1) as [[s' sm'] | |]
  end; cbn [without_sampler bind] in Hr; rewrite <- Hr; cbn [bind];
    try reflexivity.
  apply IH. destruct (Ha s' sm' eq_refl) as (_ & Ev & _).
  unfold is_point in *. now rewrite Ev.
Qed.

Lemma sampled_scc_point (fuel : nat) (graph : Graph) :
  forall node s sm,
    is_point sm ->
    without_sampler (Sampled.scc fuel node graph s sm)
    = scc fuel node graph s.
Proof.
  induction fuel as [| fuel IH]; intros node s sm Hpt; [reflexivity |].
  rewrite sampled_scc_unfold, scc_unfold. cbn zeta.
  assert (E : without_sampler
                (if has_neighbours graph node
                 then sampled_scc_edges
                        (fun t s sm => Sampled.scc fuel t graph s sm) node
                        (get_neighbours graph node)
                        (with_tvars (enter node (tvars s)) s) sm
                 else Ok (with_tvars (enter node (tvars s)) s, sm))
              = (if has_neighbours graph node
                 then scc_edges (fun t s => scc fuel t graph s) node
                        (get_neighbours graph node)
                        (with_tvars (enter node (tvars s)) s)
                 else Ok (with_tvars (enter node (tvars s)) s))).
  { destruct (has_neighbours graph node); [| reflexivity].
    apply sampled_scc_edges_point; [| | exact Hpt].
    - intros t sa ma Hm. now apply IH.
    - intros t sa ma sb mb. apply sampled_scc_advanced. }
  rewrite <- E.
  match goal with
  | |- without_sampler (bind ?m _) = bind (without_sampler ?m) _ =>
      destruct m as [[s1 sm1] | |]
  end; cbn [without_sampler bind]; try reflexivity.
  destruct (get 0 node (lowlink (tvars s1)) =? get 0 node (index (tvars s1)));
    [| reflexivity].
  destruct (pop_component node (vis_stack (tvars s1)) s1); reflexivity.
Qed.

Lemma sampled_tarjan_roots_point (fuel : nat) (graph : Graph)
      (nodes : list N) :
  forall s sm,
    is_point sm ->
    without_sampler (Sampled.tarjan_roots fuel graph nodes s sm)
    = tarjan_roots fuel graph nodes s.
Proof.
  induction nodes as [| node nodes IH]; intros s sm Hpt;
    cbn [Sampled.tarjan_roots tarjan_roots]; [reflexivity |].
  destruct (find node (index (tvars s))); [now apply IH |].
  match goal with
  | |- without_sampler (bind (Sampled.scc ?f ?n ?g ?s1 ?m1) _) = _ =>
      pose proof (sampled_scc_point f g n s1 m1 Hpt) as Hr;
      pose proof (sampled_scc_advanced f g n s1 m1) as Ha;
      destruct (Sampled.scc f n g s1 m1) as [[s' sm'] | |]
  end; cbn [without_sampler bind] in Hr; rewrite <- Hr; cbn [bind];
    try reflexivity.
  apply IH. destruct (Ha s' sm' eq_refl) as (_ & Ev & _).
  unfold is_point in *. now rewrite Ev.
Qed.

Lemma sampled_tarjan_point (fuel : nat) (graph : Graph)
      (e : OhsakaEvaluator) (sm : Sampled.Sampler) :
  is_point sm ->
  without_sampler (Sampled.tarjan insertion_order fuel graph e sm)
  = tarjan fuel graph e /\
  forall e' sm', Sampled.tarjan insertion_order fuel graph e sm = Ok (e', sm') ->
                 is_point sm'.
Proof.
  intros Hpt. unfold Sampled.tarjan, tarjan, insertion_order.
  match goal with
  | |- without_sampler (bind (Sampled.tarjan_roots ?f ?g ?ns ?s1 ?m1) _) = _
       /\ _ =>
      pose proof (sampled_tarjan_roots_point f g ns s1 m1 Hpt) as Hr;
      pose proof (sampled_tarjan_roots_advanced f g ns s1 m1) as Ha;
      destruct (Sampled.tarjan_roots f g ns s1 m1) as [[s' sm'] | |]
  end; cbn [without_sampler bind] in Hr; rewrite <- Hr; cbn [bind];
    (split; [reflexivity |]); try discriminate.
  intros e' sm2 [= _ <-]. destruct (Ha s' sm' eq_refl) as (_ & Ev & _).
  unfold is_point in *. now rewrite Ev.
Qed.

Lemma sampled_sample_point (fuel : nat) (graph : Graph) (activated : uset)
      (i : nat) (e : OhsakaEvaluator) (sm : Sampled.Sampler) :
  is_point sm ->
  without_sampler (Sampled.sample insertion_order fuel graph activated i e sm)
  = sample fuel graph activated i e /\
  forall e' sm',
    Sampled.sample insertion_order fuel graph activated i e sm = Ok (e', sm') ->
    is_point sm'.
Proof.
  intros Hpt. unfold Sampled.sample, sample.
  destruct (sampled_tarjan_point fuel graph e sm Hpt) as [Hr Hp].
  destruct (Sampled.tarjan insertion_order fuel graph e sm)
    as [[e1 sm1] | |]; cbn [without_sampler bind] in Hr; rewrite <- Hr;
    cbn [bind]; try (split; [reflexivity | discriminate]).
  specialize (Hp e1 sm1 eq_refl).
  repeat match goal with
         | |- context [bind ?m _] =>
             match m with
             | Ok _ => fail 1
             | _ => destruct m; cbn [bind without_sampler];
                    try (split; [reflexivity | discriminate])
             end
         end.
  split; [reflexivity |]. now intros e' sm' [= _ <-].
Qed.

Lemma sampled_samples_point (fuel : nat) (graph : Graph) (activated : uset)
      (ids : list nat) :
  forall e sm,
    is_point sm ->
    without_sampler
      (Sampled.samples insertion_order fuel graph activated ids e sm)
    = samples fuel graph activated ids e.
Proof.
  induction ids as [| i ids IH]; intros e sm Hpt;
    cbn [Sampled.samples samples]; [reflexivity |].
  destruct (sampled_sample_point fuel graph activated i e sm Hpt) as [Hr Hp].
  destruct (Sampled.sample insertion_order fuel graph activated i e sm)
    as [[e1 sm1] | |]; cbn [without_sampler bind] in Hr; rewrite <- Hr;
    cbn [bind]; try reflexivity.
  apply IH. exact (Hp e1 sm1 eq_refl).
Qed.

Lemma sampled_select_point (fuel : nat) (graph : Graph) (activated : uset)
      (k : N) (e : OhsakaEvaluator) (sm : Sampled.Sampler) :
  is_point sm ->
  without_sampler
    (Sampled.select insertion_order fuel graph activated k e sm)
  = select fuel graph activated k e.
Proof.
  intros Hpt. unfold Sampled.select, select.
  match goal with
  | |- without_sampler (bind (Sampled.samples ?o ?f ?g ?a ?ids ?e0 ?m0) _) = _ =>
      pose proof (sampled_samples_point f g a ids e0 m0 Hpt) as Hr;
      destruct (Sampled.samples o f g a ids e0 m0) as [[e1 sm1] | |]
  end; cbn [without_sampler bind] in Hr; rewrite <- Hr; cbn [bind];
    try reflexivity.
  destruct (select_loop fuel fuel graph activated k (R_ e1) [] (rs e1))
    as [[set r] | |]; reflexivity.
Qed.

(** ** What a call of select depends on *)







End SampledFacts.



(** ** Runs that print what they measure *)

Section MainOutput.

Import String Main MainSpec.
Local Open Scope string_scope.


End MainOutput.
